(** * PCF bitmap-font parser and dotted-outline vectorizer

    A shallow embedding of the two programs of the converter:
    the PCF parser ([class PcfParser]) and the PCF-to-OpenType
    converter script ([pcf2opentype.js], in its revision with the three
    dot shapes), followed by the properties proved about them.

    Conventions of the embedding.
    - A Node [Buffer] is a [list byte]; the numeric value of a byte is
      [Z_of_byte].
    - JavaScript integers are [Z]; the 32-bit conversions performed by the
      bitwise operators are written out ([JS.ToInt32]).
    - A JavaScript value that may be [undefined] (an array read out of
      range) or [NaN] (arithmetic on [undefined]) is an [option].
    - A thrown exception is the [Err] case of [result]; the constructors of
      [error] name the exception that is thrown.
    - The declarative parsers of the [binary-parser] package are parser
      combinators over the bytes that remain after the parser's read
      offset: the remaining input of a parser whose offset is [n] is
      [drop n buffer].
    - JavaScript numbers that are not integers (the design-unit geometry of
      the converter) are exact rationals [Q], and [Math.round x] is the
      integer [floor (x + 1/2)].  The program computes them in double
      precision, and divides by the pixel height: the statements that
      depend on the value of a coordinate take a pixel height of at least
      1 (for a height of 0 the pixel size of the program is [Infinity] and
      its coordinates are [NaN], which no rational stands for), and speak
      of the corners that [vectorizeGlyph] computes, which are no ties
      between two integers. *)

From Stdlib Require Import ZArith QArith Qround Lia Lqa Strings.Byte String Ascii List.
From stdpp Require Import base list gmap sets strings.

Local Open Scope Z_scope.

(* ================================================================== *)
(** ** JavaScript helpers *)
(* ================================================================== *)

Module JS.

(** [ToInt32] of ECMAScript, on integers. *)
Definition ToInt32 (x : Z) : Z := (x + 2 ^ 31) mod 2 ^ 32 - 2 ^ 31.

(** [a & b]: both operands are converted with [ToInt32]. *)
Definition and (a b : Z) : Z := Z.land (ToInt32 a) (ToInt32 b).

(** [a << b]. *)
Definition shl (a b : Z) : Z := ToInt32 (Z.shiftl (ToInt32 a) (b mod 32)).

(** Truthiness of a number used as a condition. *)
Definition truthy (x : Z) : bool := negb (x =? 0).

(** A boolean used as a number: [true] is 1 and [false] is 0. *)
Definition ofBool (b : bool) : Z := if b then 1 else 0.

(** [arr[i]] for an integer [i]: [undefined] out of range. *)
Definition index {A : Type} (arr : list A) (i : Z) : option A :=
  if i <? 0 then None else arr !! Z.to_nat i.

(** [a + b] where either operand may be [undefined] or [NaN]. *)
Definition add (a b : option Z) : option Z :=
  match a, b with
  | Some x, Some y => Some (x + y)
  | _, _ => None
  end.

(** [a < b] where either operand may be [undefined] or [NaN]: a
    comparison with [NaN] is false. *)
Definition lt (a b : option Z) : bool :=
  match a, b with
  | Some x, Some y => x <? y
  | _, _ => false
  end.

(** [a >= b], same convention. *)
Definition ge (a b : option Z) : bool :=
  match a, b with
  | Some x, Some y => x >=? y
  | _, _ => false
  end.

(** [buffer.slice(start, end)] of a Node [Buffer]: [NaN] counts as 0,
    negative indices count from the end, and both are clamped. *)
Definition sliceIndex (len : Z) (i : option Z) : Z :=
  match i with
  | None => 0
  | Some i => if i <? 0 then Z.max (len + i) 0 else Z.min i len
  end.

Definition slice {A : Type} (buf : list A) (start end_ : option Z) : list A :=
  let len := Z.of_nat (length buf) in
  let s := sliceIndex len start in
  let e := sliceIndex len end_ in
  take (Z.to_nat (e - s)) (drop (Z.to_nat s) buf).

End JS.

(* ================================================================== *)
(** ** Results and exceptions *)
(* ================================================================== *)

(** The exceptions the two programs can raise.
    - [RangeError]: a [Buffer] read outside the buffer, raised inside a
      [binary-parser] parser.
    - [NotValidPcf]: [new Error('Not a valid PCF file.')].
    - [TypeError]: a property read on [undefined]. *)
Inductive error : Type :=
| RangeError
| NotValidPcf
| TypeError.

Inductive result (A : Type) : Type :=
| Ok (a : A)
| Err (e : error).
Arguments Ok {A} a.
Arguments Err {A} e.

#[global] Instance result_ret : MRet result := λ A a, Ok a.
#[global] Instance result_bind : MBind result := λ A B f m,
  match m with
  | Ok a => f a
  | Err e => Err e
  end.
#[global] Instance result_fmap : FMap result := λ A B f m,
  match m with
  | Ok a => Ok (f a)
  | Err e => Err e
  end.

#[global] Instance error_eq_dec : EqDecision error.
Proof. solve_decision. Defined.

#[global] Instance byte_eq_dec : EqDecision byte := Byte.byte_eq_dec.

Definition Z_of_byte (b : byte) : Z := Z.of_N (Byte.to_N b).

(** A byte of a given value (for writing buffers down). *)
Definition byte_of_Z (z : Z) : byte :=
  match Byte.of_N (Z.to_N (z mod 256)) with
  | Some b => b
  | None => x00
  end.

(* ================================================================== *)
(** ** The [binary-parser] combinators used by the PCF parser *)
(* ================================================================== *)

Module BinaryParser.

Inductive endianess : Type := little | big.

(** A parser reads from the bytes that follow its offset and returns
    its value with the bytes that follow the new offset. *)
Record Parser (A : Type) : Type :=
  MkParser { runParser : list byte → result (A * list byte) }.
Arguments MkParser {A} _.
Arguments runParser {A} _ _.

#[global] Instance parser_ret : MRet Parser :=
  λ A a, MkParser (λ s, Ok (a, s)).
#[global] Instance parser_bind : MBind Parser := λ A B f m,
  MkParser (λ s,
    match runParser m s with
    | Ok (a, s') => runParser (f a) s'
    | Err e => Err e
    end).

(** [parser.parse(buffer)]: run from offset 0, keep the value. *)
Definition parse {A : Type} (p : Parser A) (buffer : list byte) : result A :=
  match runParser p buffer with
  | Ok (a, _) => Ok a
  | Err e => Err e
  end.

(** [.seek(n)]: move the offset forward, with no bounds check. *)
Definition seek (n : Z) : Parser unit :=
  MkParser (λ s, Ok (tt, drop (Z.to_nat n) s)).

(** [.uint8(..)]: a read past the end raises [RangeError]. *)
Definition uint8 : Parser Z :=
  MkParser (λ s,
    match s with
    | [] => Err RangeError
    | b :: s' => Ok (Z_of_byte b, s')
    end).

Definition uint16 (e : endianess) : Parser Z :=
  b0 ← uint8; b1 ← uint8;
  mret (match e with
        | little => b0 + 2 ^ 8 * b1
        | big => 2 ^ 8 * b0 + b1
        end).

Definition uint32 (e : endianess) : Parser Z :=
  b0 ← uint8; b1 ← uint8; b2 ← uint8; b3 ← uint8;
  mret (match e with
        | little => b0 + 2 ^ 8 * b1 + 2 ^ 16 * b2 + 2 ^ 24 * b3
        | big => 2 ^ 24 * b0 + 2 ^ 16 * b1 + 2 ^ 8 * b2 + b3
        end).

(** [.string(.., {length: n})]: the bytes are taken as they are, and a
    short buffer gives a short string. *)
Definition string_length (n : nat) : Parser (list byte) :=
  MkParser (λ s, Ok (take n s, drop n s)).

(** [.string(.., {zeroTerminated: true})]:
    [while (buffer.readUInt8(offset++) !== 0);], so a string that
    is not terminated inside the buffer raises [RangeError]. *)
Fixpoint zeroTerminated (s : list byte) : result (list byte * list byte) :=
  match s with
  | [] => Err RangeError
  | b :: s' =>
      if Z_of_byte b =? 0 then Ok ([], s')
      else match zeroTerminated s' with
           | Ok (str, r) => Ok (b :: str, r)
           | Err e => Err e
           end
  end.

Definition string_zeroTerminated : Parser (list byte) :=
  MkParser zeroTerminated.

(** [.array(.., {type: p, length: n})]:
    [for (i = n; i > 0; i--) push(p())]. *)
Fixpoint arrayN {A : Type} (n : nat) (p : Parser A) : Parser (list A) :=
  match n with
  | O => mret []
  | S n' => x ← p; xs ← arrayN n' p; mret (x :: xs)
  end.

Definition array {A : Type} (length : Z) (p : Parser A) : Parser (list A) :=
  arrayN (Z.to_nat length) p.

End BinaryParser.

(* ================================================================== *)
(** ** The PCF parser ([class PcfParser]) *)
(* ================================================================== *)

(** The objects the parsers build.  Each record lists the properties of
    the JavaScript object, under their source names. *)

Module TocEntry.
Record t : Type := Build
  { type : Z; format : Z; size : Z; offset : Z }.
End TocEntry.

Module GlyphNameTable.
Record t : Type := Build
  { format : Z;
    glyphCount : Z;
    offsets : list Z;
    stringSize : Z;
    strings : list (list byte) }.
End GlyphNameTable.

Module EncodingTable.
Record t : Type := Build
  { format : Z;
    minCharOrByte2 : Z;
    maxCharOrByte2 : Z;
    minByte1 : Z;
    maxByte1 : Z;
    defaultChar : Z;
    glyphIndeces : list Z }.
End EncodingTable.

Module MetricsEntry.
Record t : Type := Build
  { leftSidedBearing : Z;
    rightSideBearing : Z;
    characterWidth : Z;
    characterAscent : Z;
    characterDescent : Z;
    characterAttributes : Z }.
End MetricsEntry.

Module MetricsTable.
Record t : Type := Build
  { format : Z;
    metricsCount : Z;
    metrics : list MetricsEntry.t }.
End MetricsTable.

Module BitmapTable.
Record t : Type := Build
  { format : Z;
    glyphCount : Z;
    offsets : list Z;
    bitmapSizes : list Z;
    bitmapSize : option Z;
    bitmapsBaseOffset : Z }.
End BitmapTable.

Module Pcf.
Record t : Type := Build
  { header : list byte;
    tableCount : Z;
    tocEntry : list TocEntry.t;
    glyphNameTable : option GlyphNameTable.t;
    encodingTable : option EncodingTable.t;
    metricsTable : option MetricsTable.t;
    bitmapTable : option BitmapTable.t }.
End Pcf.

Module PcfParser.
Import BinaryParser.

(** The signature ['\u0001fcp'] the header string is compared with.
    The four header bytes are decoded as UTF-8 before the comparison;
    the decoded string is these four ASCII characters exactly when the
    bytes are these four bytes, so the comparison is made on the
    bytes. *)
Definition PCF_MAGIC : list byte := [x01; x66; x63; x70].

Definition headerTableParser : Parser TocEntry.t :=
  type ← uint32 little;
  format ← uint32 little;
  size ← uint32 little;
  offset ← uint32 little;
  mret (TocEntry.Build type format size offset).

Definition mainParser : Parser Pcf.t :=
  header ← string_length 4;
  tableCount ← uint32 little;
  tocEntry ← array tableCount headerTableParser;
  mret (Pcf.Build header tableCount tocEntry None None None None).

(** [tableTypeToString]. *)
Definition tableTypeToString (type : Z) : string :=
  let push (bit : Z) (name : string) (ret : list string) : list string :=
    if JS.truthy (JS.and type (JS.shl 1 bit)) then ret ++ [name] else ret in
  let ret := [] in
  let ret := push 0 "PCF_PROPERTIES"%string ret in
  let ret := push 1 "PCF_ACCELERATORS"%string ret in
  let ret := push 2 "PCF_METRICS"%string ret in
  let ret := push 3 "PCF_BITMAPS"%string ret in
  let ret := push 4 "PCF_INK_METRICS"%string ret in
  let ret := push 5 "PCF_BDF_ENCODINGS"%string ret in
  let ret := push 6 "PCF_SWIDTHS"%string ret in
  let ret := push 7 "PCF_GLYPH_NAMES"%string ret in
  let ret := push 8 "PCF_BDF_ACCELERATORS"%string ret in
  String.concat " | " ret.

(** [tableFormatToString]: the names it collects, then their join.
    In JavaScript [<<] binds tighter than [==], which binds tighter than
    [&]: the test of the pad mask reads [format & ((3 << 0) == 3)] and the
    test of the scan-unit mask [format & ((3 << 4) == (3 << 4))], and the
    boolean counts as a number in [&]. *)
Definition tableFormatNames (format : Z) : list string :=
  let ret := [] in
  let value := JS.and format 0xFFFFFF00 in
  let ret :=
    if value =? 0x200 then ret ++ ["PCF_INKBOUNDS"%string]
    else if value =? 0x100 then ret ++ ["PCF_COMPRESSED_METRICS"%string]
    else ret ++ ["PCF_DEFAULT_FORMAT"%string] in
  let ret :=
    if JS.truthy (JS.and format (JS.ofBool (JS.shl 3 0 =? 3)))
    then ret ++ ["PCF_GLYPH_PAD_MASK"%string] else ret in
  let ret :=
    if JS.truthy (JS.and format (JS.shl 1 2))
    then ret ++ ["PCF_BYTE_MASK"%string] else ret in
  let ret :=
    if JS.truthy (JS.and format (JS.shl 1 3))
    then ret ++ ["PCF_BIT_MASK"%string] else ret in
  let ret :=
    if JS.truthy (JS.and format (JS.ofBool (JS.shl 3 4 =? JS.shl 3 4)))
    then ret ++ ["PCF_SCAN_UNIT_MASK"%string] else ret in
  ret.

Definition tableFormatToString (format : Z) : string :=
  String.concat " | " (tableFormatNames format).

(** [isCompressedMetrics]. *)
Definition isCompressedMetrics (format : Z) : bool :=
  let value := JS.and format 0xFFFFFF00 in
  value =? 0x100.

(** [getEndianessFromFormat]: the endianess and its suffix. *)
Definition getEndianessFromFormat (format : Z) : endianess * endianess :=
  let endianess := if JS.truthy (JS.and format (JS.shl 1 2)) then big else little in
  let endianessSuffix := if JS.truthy (JS.and format (JS.shl 1 2)) then big else little in
  (endianess, endianessSuffix).

(** [parseGlyphNameTable]. *)
Definition parseGlyphNameTable (rawBuffer : list byte) (offset format : Z)
  : result GlyphNameTable.t :=
  let '(endianess, endianessSuffix) := getEndianessFromFormat format in
  let tableParser :=
    _ ← seek offset;
    format ← uint32 little;
    glyphCount ← uint32 endianess;
    offsets ← array glyphCount (uint32 endianessSuffix);
    stringSize ← uint32 endianess;
    mret (format, glyphCount, offsets, stringSize) in
  '(tformat, glyphCount, offsets, stringSize) ← parse tableParser rawBuffer;
  let baseOffset := 4 * 2 + 4 * glyphCount + 4 in
  strings ← mapM (λ stringOffset,
                    let stringParser :=
                      _ ← seek (offset + baseOffset + stringOffset);
                      string_zeroTerminated in
                    parse stringParser rawBuffer) offsets;
  mret (GlyphNameTable.Build tformat glyphCount offsets stringSize strings).

(** [parseEncodingTable]. *)
Definition parseEncodingTable (rawBuffer : list byte) (offset format : Z)
  : result EncodingTable.t :=
  let '(endianess, endianessSuffix) := getEndianessFromFormat format in
  let tableParser :=
    _ ← seek offset;
    format ← uint32 little;
    minCharOrByte2 ← uint16 endianess;
    maxCharOrByte2 ← uint16 endianess;
    minByte1 ← uint16 endianess;
    maxByte1 ← uint16 endianess;
    defaultChar ← uint16 endianess;
    glyphIndeces ← array ((maxCharOrByte2 - minCharOrByte2 + 1) *
                            (maxByte1 - minByte1 + 1))
                     (uint16 endianessSuffix);
    mret (EncodingTable.Build format minCharOrByte2 maxCharOrByte2
            minByte1 maxByte1 defaultChar glyphIndeces) in
  parse tableParser rawBuffer.

(** The entry parser of the compressed format, with the loop that
    rebiases each entry. *)
Definition compressedEntryParser : Parser MetricsEntry.t :=
  leftSidedBearing ← uint8;
  rightSideBearing ← uint8;
  characterWidth ← uint8;
  characterAscent ← uint8;
  characterDescent ← uint8;
  mret (MetricsEntry.Build leftSidedBearing rightSideBearing
          characterWidth characterAscent characterDescent 0).

Definition rebias (entry : MetricsEntry.t) : MetricsEntry.t :=
  MetricsEntry.Build
    (MetricsEntry.leftSidedBearing entry - 0x80)
    (MetricsEntry.rightSideBearing entry - 0x80)
    (MetricsEntry.characterWidth entry - 0x80)
    (MetricsEntry.characterAscent entry - 0x80)
    (MetricsEntry.characterDescent entry - 0x80)
    0.

Definition defaultEntryParser (endianess : endianess) : Parser MetricsEntry.t :=
  leftSidedBearing ← uint16 endianess;
  rightSideBearing ← uint16 endianess;
  characterWidth ← uint16 endianess;
  characterAscent ← uint16 endianess;
  characterDescent ← uint16 endianess;
  characterAttributes ← uint16 endianess;
  mret (MetricsEntry.Build leftSidedBearing rightSideBearing
          characterWidth characterAscent characterDescent
          characterAttributes).

(** [parseMetricsTable]. *)
Definition parseMetricsTable (rawBuffer : list byte) (offset format : Z)
  : result MetricsTable.t :=
  let '(endianess, endianessSuffix) := getEndianessFromFormat format in
  if isCompressedMetrics format then
    let tableParser :=
      _ ← seek offset;
      format ← uint32 little;
      metricsCount ← uint16 endianess;
      metrics ← array metricsCount compressedEntryParser;
      mret (MetricsTable.Build format metricsCount metrics) in
    table ← parse tableParser rawBuffer;
    mret (MetricsTable.Build (MetricsTable.format table)
            (MetricsTable.metricsCount table)
            (rebias <$> MetricsTable.metrics table))
  else
    let tableParser :=
      _ ← seek offset;
      format ← uint32 little;
      metricsCount ← uint32 endianess;
      metrics ← array metricsCount (defaultEntryParser endianess);
      mret (MetricsTable.Build format metricsCount metrics) in
    parse tableParser rawBuffer.

(** [parseBitmapTable]. *)
Definition parseBitmapTable (rawBuffer : list byte) (offset format : Z)
  : result BitmapTable.t :=
  let '(endianess, endianessSuffix) := getEndianessFromFormat format in
  let tableParser :=
    _ ← seek offset;
    format ← uint32 little;
    glyphCount ← uint32 endianess;
    offsets ← array glyphCount (uint32 endianessSuffix);
    bitmapSizes ← array 4 (uint32 endianessSuffix);
    mret (format, glyphCount, offsets, bitmapSizes) in
  '(tformat, glyphCount, offsets, bitmapSizes) ← parse tableParser rawBuffer;
  mret (BitmapTable.Build tformat glyphCount offsets bitmapSizes
          (JS.index bitmapSizes (JS.and tformat 3))
          (offset + 4 * 2 + 4 * glyphCount + 4 * 4)).

(** The body of the loop of [parse] over the entries of the table of
    contents: one table at most is decoded and stored.  The two strings
    that the loop attaches to the entry for display are not kept. *)
Definition parseTable (rawBuffer : list byte) (pcf : Pcf.t) (table : TocEntry.t)
  : result Pcf.t :=
  let typeString := tableTypeToString (TocEntry.type table) in
  let offset := TocEntry.offset table in
  let format := TocEntry.format table in
  if String.eqb typeString "PCF_GLYPH_NAMES" then
    t ← parseGlyphNameTable rawBuffer offset format;
    mret (Pcf.Build (Pcf.header pcf) (Pcf.tableCount pcf) (Pcf.tocEntry pcf)
            (Some t) (Pcf.encodingTable pcf) (Pcf.metricsTable pcf)
            (Pcf.bitmapTable pcf))
  else if String.eqb typeString "PCF_BDF_ENCODINGS" then
    t ← parseEncodingTable rawBuffer offset format;
    mret (Pcf.Build (Pcf.header pcf) (Pcf.tableCount pcf) (Pcf.tocEntry pcf)
            (Pcf.glyphNameTable pcf) (Some t) (Pcf.metricsTable pcf)
            (Pcf.bitmapTable pcf))
  else if String.eqb typeString "PCF_METRICS" then
    t ← parseMetricsTable rawBuffer offset format;
    mret (Pcf.Build (Pcf.header pcf) (Pcf.tableCount pcf) (Pcf.tocEntry pcf)
            (Pcf.glyphNameTable pcf) (Pcf.encodingTable pcf) (Some t)
            (Pcf.bitmapTable pcf))
  else if String.eqb typeString "PCF_BITMAPS" then
    t ← parseBitmapTable rawBuffer offset format;
    mret (Pcf.Build (Pcf.header pcf) (Pcf.tableCount pcf) (Pcf.tocEntry pcf)
            (Pcf.glyphNameTable pcf) (Pcf.encodingTable pcf)
            (Pcf.metricsTable pcf) (Some t))
  else mret pcf.

Fixpoint parseTables (rawBuffer : list byte) (pcf : Pcf.t)
    (tables : list TocEntry.t) : result Pcf.t :=
  match tables with
  | [] => mret pcf
  | table :: rest =>
      pcf' ← parseTable rawBuffer pcf table;
      parseTables rawBuffer pcf' rest
  end.

(** [parse]: the table of contents is read whole, then the signature
    is checked, then the tables are decoded in directory order; the
    final log line reads [metricsTable.metricsCount]. *)
Definition parse (rawBuffer : list byte) : result Pcf.t :=
  pcf ← BinaryParser.parse mainParser rawBuffer;
  if bool_decide (Pcf.header pcf ≠ PCF_MAGIC) then Err NotValidPcf
  else
    pcf ← parseTables rawBuffer pcf (Pcf.tocEntry pcf);
    match Pcf.metricsTable pcf with
    | None => Err TypeError
    | Some _ => mret pcf
    end.

End PcfParser.

(* ================================================================== *)
(** ** The glyph accessors of [PcfParser] *)
(* ================================================================== *)

(** The accessors read the object [this.pcf] that [parse] has built; it
    is their argument [pcf] here, so their guard [this.pcf == null] has no
    counterpart. *)
Module Accessor.

(** [arr[i]] where the index itself may be [undefined]. *)
Definition at_ {A : Type} (arr : list A) (i : option Z) : option A :=
  i ≫= JS.index arr.

(** The first statement of the three accessors:
    [this.pcf.encodingTable.glyphIndeces[glyphCode]]. *)
Definition glyphIndexOf (pcf : Pcf.t) (glyphCode : Z) : result (option Z) :=
  match Pcf.encodingTable pcf with
  | None => Err TypeError
  | Some enc => Ok (JS.index (EncodingTable.glyphIndeces enc) glyphCode)
  end.

(** [getGlyphName]. *)
Definition getGlyphName (pcf : Pcf.t) (glyphCode : Z)
  : result (option (list byte)) :=
  glyphIndex ← glyphIndexOf pcf glyphCode;
  match Pcf.glyphNameTable pcf with
  | None => Err TypeError
  | Some t => Ok (at_ (GlyphNameTable.strings t) glyphIndex)
  end.

(** [getGlyphMetrics]. *)
Definition getGlyphMetrics (pcf : Pcf.t) (glyphCode : Z)
  : result (option MetricsEntry.t) :=
  glyphIndex ← glyphIndexOf pcf glyphCode;
  match Pcf.metricsTable pcf with
  | None => Err TypeError
  | Some t => Ok (at_ (MetricsTable.metrics t) glyphIndex)
  end.

(** The two ends [bitmapOffset] and [bitmapEnd] that [getGlyphBitmap]
    computes before it slices the buffer. *)
Definition glyphBitmapRange (t : BitmapTable.t) (glyphIndex : option Z)
  : option Z * option Z :=
  let bitmapOffset := at_ (BitmapTable.offsets t) glyphIndex in
  let bitmapEnd :=
    if JS.lt glyphIndex (Some (BitmapTable.glyphCount t - 1))
    then at_ (BitmapTable.offsets t) (JS.add glyphIndex (Some 1))
    else BitmapTable.bitmapSize t in
  let bitmapOffset := JS.add bitmapOffset (Some (BitmapTable.bitmapsBaseOffset t)) in
  let bitmapEnd := JS.add bitmapEnd (Some (BitmapTable.bitmapsBaseOffset t)) in
  (bitmapOffset, bitmapEnd).

(** [getGlyphBitmap]. *)
Definition getGlyphBitmap (rawBuffer : list byte) (pcf : Pcf.t) (glyphCode : Z)
  : result (list byte) :=
  glyphIndex ← glyphIndexOf pcf glyphCode;
  match Pcf.bitmapTable pcf with
  | None => Err TypeError
  | Some t =>
      let '(bitmapOffset, bitmapEnd) := glyphBitmapRange t glyphIndex in
      Ok (JS.slice rawBuffer bitmapOffset bitmapEnd)
  end.

End Accessor.

(* ================================================================== *)
(** ** The converter script *)
(* ================================================================== *)

(** The drawing commands an [opentype.Path] records. *)
Inductive command : Type :=
| M (x y : Q)
| L (x y : Q)
| C (x1 y1 x2 y2 x y : Q)
| Zc.

Module Glyph.
Record t : Type := Build
  { name : option (list byte);
    unicode : Z;
    advanceWidth : Q;
    path : list command }.
End Glyph.

Module GlyphInfo.
Record t : Type := Build
  { code : Z;
    index : Z;
    name : option (list byte);
    metrics : option MetricsEntry.t;
    bitmap : list byte }.
End GlyphInfo.

Module Font.
Record t : Type := Build
  { unitsPerEm : Q;
    ascender : Q;
    descender : Q;
    glyphs : list Glyph.t }.
End Font.

Inductive dotShape : Type := square | circle | diamond.

(** The command-line options the core reads. *)
Module Argv.
Record t : Type := Build
  { glyph_size_in_pixel : Z;
    dot_shape : dotShape;
    dry_run : bool;
    gb2312_only : bool }.
End Argv.

Module Converter.

Definition str (s : string) : list ascii := list_ascii_of_string s.

Definition WHITE_PIXEL : ascii := "_"%char.
Definition BLACK_PIXEL : ascii := "#"%char.

Definition BYTES_PER_LINE : Z := 4.

(** [Math.round]: the nearest integer, halves upwards. *)
Definition Math_round (x : Q) : Z := Qfloor (x + (1 # 2))%Q.

(** [ASCII_SET]. *)
Definition ASCII_SET : gset Z :=
  foldl (λ ret code, {[code]} ∪ ret) ∅ (seqZ 0x20 (0xFF - 0x20 + 1)).

(** [n.toString(2)] for an integer. *)
Fixpoint pos_toString2 (p : positive) : list ascii :=
  match p with
  | xH => ["1"%char]
  | xO p' => pos_toString2 p' ++ ["0"%char]
  | xI p' => pos_toString2 p' ++ ["1"%char]
  end.

Definition toString2 (n : Z) : list ascii :=
  match n with
  | Z0 => ["0"%char]
  | Zpos p => pos_toString2 p
  | Zneg p => "-"%char :: pos_toString2 p
  end.

(** [s.substr(-n)]: the last [n] characters. *)
Definition substr_last (n : nat) (s : list ascii) : list ascii :=
  drop (length s - n)%nat s.

(** [s.replace(/a/g, b)] for single characters. *)
Definition replace_char (a b : ascii) (s : list ascii) : list ascii :=
  (λ c, if Ascii.eqb c a then b else c) <$> s.

(** [byteToBinaryString]; the argument is [bitmap[i + j]], which is
    [undefined] past the end of the buffer, and then
    [parseInt(undefined, 10)] is [NaN], printed as ["NaN"]. *)
Definition byteToBinaryString (byte : option byte) : list ascii :=
  let binaryString :=
    match byte with
    | Some b => toString2 (Z_of_byte b)
    | None => str "NaN"
    end in
  let paddedString := substr_last 8 (str "00000000" ++ binaryString) in
  replace_char "1" BLACK_PIXEL (replace_char "0" WHITE_PIXEL paddedString).

(** One turn of the outer loop of [bitmapToBinaryLines]: the line
    that starts at byte [i]. *)
Definition binaryLine (bitmap : list byte) (width i : Z) : list ascii :=
  let line :=
    foldl (λ line j, line ++ byteToBinaryString (JS.index bitmap (i + j)))
      [] (seqZ 0 BYTES_PER_LINE) in
  JS.slice line (Some 0) (Some width).

(** The outer loop [for (i; i < bitmap.length; i += BYTES_PER_LINE)];
    [fuel] bounds the number of turns. *)
Fixpoint binaryLinesFrom (fuel : nat) (bitmap : list byte) (width i : Z)
    (lines : list (list ascii)) : list (list ascii) :=
  match fuel with
  | O => lines
  | S fuel' =>
      if i <? Z.of_nat (length bitmap)
      then binaryLinesFrom fuel' bitmap width (i + BYTES_PER_LINE)
             (lines ++ [binaryLine bitmap width i])
      else lines
  end.

(** [bitmapToBinaryLines]; every turn advances [i] by 4, so
    [bitmap.length] turns are more than the loop can make. *)
Definition bitmapToBinaryLines (bitmap : list byte) (width : Z)
  : list (list ascii) :=
  binaryLinesFrom (length bitmap) bitmap width 0 [].

(** [ScreenXyToFontXy]; the difference that is rounded is the exact
    one. *)
Definition ScreenXyToFontXy (x y glyphTop : Q) : Q * Q :=
  (inject_Z (Math_round x), inject_Z (Math_round (glyphTop - y)%Q)).

(** [drawSquareDot]. *)
Definition drawSquareDot (path : list command) (left top right bottom : Q)
  : list command :=
  path ++ [M left top; L left bottom; L right bottom; L right top; L left top].

(** [drawDiamondDot]. *)
Definition drawDiamondDot (path : list command) (left top right bottom : Q)
  : list command :=
  let RADIUS := ((right - left) / 2)%Q in
  path ++ [M (left + RADIUS) top;
           L left (top - RADIUS);
           L (left + RADIUS) bottom;
           L right (top - RADIUS);
           L (left + RADIUS) top]%Q.

(** [drawCircleDot]. *)
Definition drawCircleDot (path : list command) (left top right bottom : Q)
  : list command :=
  let C_ := (551915 # 1000000)%Q in
  let RADIUS := ((right - left) / 2)%Q in
  path ++ [M (left + RADIUS) top;
           C (left + RADIUS - RADIUS * C_) top
             left (top - RADIUS + RADIUS * C_)
             left (top - RADIUS);
           C left (top - RADIUS - RADIUS * C_)
             (left + RADIUS - RADIUS * C_) bottom
             (left + RADIUS) bottom;
           C (left + RADIUS + RADIUS * C_) bottom
             right (top - RADIUS - RADIUS * C_)
             right (top - RADIUS);
           C right (top - RADIUS + RADIUS * C_)
             (left + RADIUS + RADIUS * C_) top
             (left + RADIUS) top]%Q.

Section WithArgv.

Variable argv : Argv.t.

(** The Unicode value [gbkDecoder.decode(bytes).charCodeAt(0)] of a
    two-byte sequence; the decoder belongs to the platform. *)
Variable gbkDecode : Z → Z → Z.

(** The basic metrics.  [PIXEL_SIZE] is the exact quotient for a pixel
    height other than 0. *)
Definition PIXEL_HEIGHT : Q := inject_Z (Argv.glyph_size_in_pixel argv).
Definition DEFAULT_ASCENT_IN_PIXELS : Q := (PIXEL_HEIGHT - 2)%Q.
Definition UNITS_PER_EM : Q := 1000%Q.
Definition PIXEL_SIZE : Q := (UNITS_PER_EM / PIXEL_HEIGHT)%Q.
Definition PIXEL_PADDING : Q := (PIXEL_SIZE / 9)%Q.
Definition DESCENDER_HEIGHT : Q := (PIXEL_SIZE * 3)%Q.

(** [GB2312_SET]. *)
Definition GB2312_SET : gset Z :=
  let rows (ret : gset Z) (first last : Z) :=
    foldl (λ ret byte1,
             foldl (λ ret byte2, {[gbkDecode byte1 byte2]} ∪ ret)
               ret (seqZ 0xA1 (0xFE - 0xA1 + 1)))
      ret (seqZ first (last - first + 1)) in
  let ret := rows ∅ 0xA1 0xA9 in
  rows ret 0xB0 0xF7.

(** [isAcceptedGlyph]. *)
Definition isAcceptedGlyph (glyphCode : Z) : bool :=
  if Argv.dry_run argv then bool_decide (glyphCode ∈ ASCII_SET)
  else if Argv.gb2312_only argv then
    bool_decide (glyphCode ∈ ASCII_SET) || bool_decide (glyphCode ∈ GB2312_SET)
  else true.

(** The corners [(left, top, right, bottom)] computed for the pixel
    in column [x] of line [y], as handed to the drawing function. *)
Definition dotCorners (xOffset yOffset glyphTop : Q) (x y : Z)
  : Q * Q * Q * Q :=
  let x1 := (xOffset + inject_Z x * PIXEL_SIZE + PIXEL_PADDING)%Q in
  let y1 := (yOffset + inject_Z y * PIXEL_SIZE + PIXEL_PADDING)%Q in
  let '(left_, top_) := ScreenXyToFontXy x1 y1 glyphTop in
  let x2 := (xOffset + (inject_Z x + 1) * PIXEL_SIZE - PIXEL_PADDING)%Q in
  let y2 := (yOffset + (inject_Z y + 1) * PIXEL_SIZE - PIXEL_PADDING)%Q in
  let '(right_, bottom_) := ScreenXyToFontXy x2 y2 glyphTop in
  (left_, top_, right_, bottom_).

(** The [switch (argv.dot_shape)] of [vectorizeGlyph]. *)
Definition drawDot (path : list command) (corners : Q * Q * Q * Q)
  : list command :=
  let '(left_, top_, right_, bottom_) := corners in
  match Argv.dot_shape argv with
  | square => drawSquareDot path left_ top_ right_ bottom_
  | circle => drawCircleDot path left_ top_ right_ bottom_
  | diamond => drawDiamondDot path left_ top_ right_ bottom_
  end.

(** The inner loop of [vectorizeGlyph] over the characters of a line. *)
Definition vectorizeLine (xOffset yOffset glyphTop : Q)
    (path : list command) (y : Z) (line : list ascii) : list command :=
  foldl (λ path '(x, ch),
           if Ascii.eqb ch BLACK_PIXEL
           then drawDot path (dotCorners xOffset yOffset glyphTop x y)
           else path)
    path (zip (seqZ 0 (Z.of_nat (length line))) line).

(** [vectorizeGlyph]; reading a metric of an [undefined] metrics
    object raises [TypeError]. *)
Definition vectorizeGlyph (glyphInfo : GlyphInfo.t) : result Glyph.t :=
  match GlyphInfo.metrics glyphInfo with
  | None => Err TypeError
  | Some metrics =>
      let width := MetricsEntry.characterWidth metrics in
      let glyphWidth := (inject_Z width * PIXEL_SIZE)%Q in
      let glyphTop := (PIXEL_HEIGHT * PIXEL_SIZE - DESCENDER_HEIGHT)%Q in
      let xOffset :=
        (inject_Z (MetricsEntry.leftSidedBearing metrics) * PIXEL_SIZE)%Q in
      let yOffset :=
        ((DEFAULT_ASCENT_IN_PIXELS -
            inject_Z (MetricsEntry.characterAscent metrics)) * PIXEL_SIZE)%Q in
      let binaryLines := bitmapToBinaryLines (GlyphInfo.bitmap glyphInfo) width in
      let path :=
        foldl (λ path '(y, line),
                 vectorizeLine xOffset yOffset glyphTop path y line)
          [] (zip (seqZ 0 (Z.of_nat (length binaryLines))) binaryLines) in
      let path := path ++ [Zc] in
      Ok (Glyph.Build (GlyphInfo.name glyphInfo) (GlyphInfo.code glyphInfo)
            glyphWidth path)
  end.

(** The first loop of [convert]: the glyphs to be converted. *)
Definition collectGlyph (rawBuffer : list byte) (pcf : Pcf.t)
    (enc : EncodingTable.t) (mt : MetricsTable.t)
    (glyphs : list GlyphInfo.t) (code : Z) : result (list GlyphInfo.t) :=
  let index := JS.index (EncodingTable.glyphIndeces enc) code in
  if JS.ge index (Some 0) &&
     JS.lt index (Some (MetricsTable.metricsCount mt)) &&
     isAcceptedGlyph code
  then
    name ← Accessor.getGlyphName pcf code;
    metrics ← Accessor.getGlyphMetrics pcf code;
    bitmap ← Accessor.getGlyphBitmap rawBuffer pcf code;
    mret (glyphs ++ [GlyphInfo.Build code (default 0 index) name metrics bitmap])
  else mret glyphs.

Fixpoint collectGlyphsFrom (rawBuffer : list byte) (pcf : Pcf.t)
    (enc : EncodingTable.t) (mt : MetricsTable.t)
    (glyphs : list GlyphInfo.t) (codes : list Z) : result (list GlyphInfo.t) :=
  match codes with
  | [] => mret glyphs
  | code :: rest =>
      glyphs' ← collectGlyph rawBuffer pcf enc mt glyphs code;
      collectGlyphsFrom rawBuffer pcf enc mt glyphs' rest
  end.

Definition collectGlyphs (rawBuffer : list byte) (pcf : Pcf.t)
  : result (list GlyphInfo.t) :=
  match Pcf.encodingTable pcf, Pcf.metricsTable pcf with
  | Some enc, Some mt =>
      collectGlyphsFrom rawBuffer pcf enc mt []
        (seqZ 0 (Z.of_nat (length (EncodingTable.glyphIndeces enc))))
  | _, _ => Err TypeError
  end.


End WithArgv.

End Converter.

(* ================================================================== *)
(** ** The first revision of the converter script *)
(* ================================================================== *)

(** The first revision of [pcf2opentype.js] draws square dots only and
    does not round: [ScreenXyToFontXy] returns the exact pair.  Its
    constants, its unpacking of the bitmap and its filter are those of
    [Converter]. *)
Module Legacy.

(** [ScreenXyToFontXy]. *)
Definition ScreenXyToFontXy (x y glyphTop : Q) : Q * Q :=
  (x, (glyphTop - y)%Q).

Section WithArgv.

Variable argv : Argv.t.

(** The corners [(fLeft, fTop, fRight, fBottom)] computed for the pixel
    in column [x] of line [y]. *)
Definition dotCorners (xOffset yOffset glyphTop : Q) (x y : Z)
  : Q * Q * Q * Q :=
  let left_ := (xOffset + inject_Z x * Converter.PIXEL_SIZE argv
                + Converter.PIXEL_PADDING argv)%Q in
  let top_ := (yOffset + inject_Z y * Converter.PIXEL_SIZE argv
               + Converter.PIXEL_PADDING argv)%Q in
  let '(fLeft, fTop) := ScreenXyToFontXy left_ top_ glyphTop in
  let right_ := (xOffset + (inject_Z x + 1) * Converter.PIXEL_SIZE argv
                 - Converter.PIXEL_PADDING argv)%Q in
  let bottom_ := (yOffset + (inject_Z y + 1) * Converter.PIXEL_SIZE argv
                  - Converter.PIXEL_PADDING argv)%Q in
  let '(fRight, fBottom) := ScreenXyToFontXy right_ bottom_ glyphTop in
  (fLeft, fTop, fRight, fBottom).

(** The five path commands of one dot. *)
Definition drawDot (path : list command) (corners : Q * Q * Q * Q)
  : list command :=
  let '(fLeft, fTop, fRight, fBottom) := corners in
  path ++ [M fLeft fTop; L fLeft fBottom; L fRight fBottom; L fRight fTop;
           L fLeft fTop].

(** The inner loop of [vectorizeGlyph] over the characters of a line. *)
Definition vectorizeLine (xOffset yOffset glyphTop : Q)
    (path : list command) (y : Z) (line : list ascii) : list command :=
  foldl (λ path '(x, ch),
           if Ascii.eqb ch Converter.BLACK_PIXEL
           then drawDot path (dotCorners xOffset yOffset glyphTop x y)
           else path)
    path (zip (seqZ 0 (Z.of_nat (length line))) line).

(** [vectorizeGlyph]. *)
Definition vectorizeGlyph (glyphInfo : GlyphInfo.t) : result Glyph.t :=
  match GlyphInfo.metrics glyphInfo with
  | None => Err TypeError
  | Some metrics =>
      let width := MetricsEntry.characterWidth metrics in
      let glyphWidth := (inject_Z width * Converter.PIXEL_SIZE argv)%Q in
      let glyphTop := (Converter.PIXEL_HEIGHT argv * Converter.PIXEL_SIZE argv
                       - Converter.DESCENDER_HEIGHT argv)%Q in
      let xOffset :=
        (inject_Z (MetricsEntry.leftSidedBearing metrics)
         * Converter.PIXEL_SIZE argv)%Q in
      let yOffset :=
        ((Converter.DEFAULT_ASCENT_IN_PIXELS argv -
            inject_Z (MetricsEntry.characterAscent metrics))
         * Converter.PIXEL_SIZE argv)%Q in
      let binaryLines :=
        Converter.bitmapToBinaryLines (GlyphInfo.bitmap glyphInfo) width in
      let path :=
        foldl (λ path '(y, line),
                 vectorizeLine xOffset yOffset glyphTop path y line)
          [] (zip (seqZ 0 (Z.of_nat (length binaryLines))) binaryLines) in
      let path := path ++ [Zc] in
      Ok (Glyph.Build (GlyphInfo.name glyphInfo) (GlyphInfo.code glyphInfo)
            glyphWidth path)
  end.

End WithArgv.

End Legacy.

(* ================================================================== *)
(** ** Vocabulary of the statements *)
(* ================================================================== *)

(** Reading a buffer by position, independently of the parsers: the
    value of the byte at [pos], and the 16- and 32-bit integers whose
    first byte is at [pos], in either byte order. *)
Definition byteAt (buf : list byte) (pos : Z) : Z :=
  match JS.index buf pos with
  | Some b => Z_of_byte b
  | None => 0
  end.

Definition u16At (e : BinaryParser.endianess) (buf : list byte) (pos : Z) : Z :=
  match e with
  | BinaryParser.little => byteAt buf pos + 256 * byteAt buf (pos + 1)
  | BinaryParser.big => 256 * byteAt buf pos + byteAt buf (pos + 1)
  end.

Definition u32At (e : BinaryParser.endianess) (buf : list byte) (pos : Z) : Z :=
  match e with
  | BinaryParser.little =>
      byteAt buf pos + 256 * byteAt buf (pos + 1) +
      65536 * byteAt buf (pos + 2) + 16777216 * byteAt buf (pos + 3)
  | BinaryParser.big =>
      16777216 * byteAt buf pos + 65536 * byteAt buf (pos + 1) +
      256 * byteAt buf (pos + 2) + byteAt buf (pos + 3)
  end.

(** The byte order that bit 2 of a format word selects. *)
Definition formatEndianess (format : Z) : BinaryParser.endianess :=
  if Z.testbit format 2 then BinaryParser.big else BinaryParser.little.

(** A parser [p] reads exactly [sz] bytes, wherever it starts in [buf],
    returns [f n] when started at offset [n], and raises [RangeError]
    when fewer than [sz] bytes remain. *)
Definition fixedSize {A : Type} (buf : list byte) (p : BinaryParser.Parser A)
    (sz : nat) (f : nat → A) : Prop :=
  ∀ n : nat,
    BinaryParser.runParser p (drop n buf) =
      if decide (n + sz ≤ length buf)%nat
      then Ok (f n, drop (n + sz) buf)
      else Err RangeError.

(** A buffer written as the list of its byte values. *)
Definition bytes (l : list Z) : list byte := byte_of_Z <$> l.

(** The decoder that [parse] runs for the entry [entry] of the table of
    contents raises [err]. *)
Definition entryFails (rawBuffer : list byte) (entry : TocEntry.t) (err : error)
  : Prop :=
  let typeString := PcfParser.tableTypeToString (TocEntry.type entry) in
  let offset := TocEntry.offset entry in
  let format := TocEntry.format entry in
  (typeString = "PCF_GLYPH_NAMES"%string ∧
   PcfParser.parseGlyphNameTable rawBuffer offset format = Err err) ∨
  (typeString = "PCF_BDF_ENCODINGS"%string ∧
   PcfParser.parseEncodingTable rawBuffer offset format = Err err) ∨
  (typeString = "PCF_METRICS"%string ∧
   PcfParser.parseMetricsTable rawBuffer offset format = Err err) ∨
  (typeString = "PCF_BITMAPS"%string ∧
   PcfParser.parseBitmapTable rawBuffer offset format = Err err).

(** A rational that is an integer. *)
Definition is_integer (q : Q) : Prop := ∃ z : Z, q = inject_Z z.

(** The black pixels of the unpacked lines, as (column, line) pairs in
    the order in which [vectorizeGlyph] visits them. *)
Definition linePixels (y : Z) (line : list ascii) : list (Z * Z) :=
  omap (λ '(x, ch), if Ascii.eqb ch Converter.BLACK_PIXEL then Some (x, y) else None)
    (zip (seqZ 0 (Z.of_nat (length line))) line).

Definition setPixels (lines : list (list ascii)) : list (Z * Z) :=
  zip (seqZ 0 (Z.of_nat (length lines))) lines ≫= (λ '(y, line), linePixels y line).

(** The placement of a glyph: [xOffset], [yOffset] and [glyphTop] of
    [vectorizeGlyph]. *)
Definition xOffsetOf (argv : Argv.t) (metrics : MetricsEntry.t) : Q :=
  (inject_Z (MetricsEntry.leftSidedBearing metrics) * Converter.PIXEL_SIZE argv)%Q.

Definition yOffsetOf (argv : Argv.t) (metrics : MetricsEntry.t) : Q :=
  ((Converter.DEFAULT_ASCENT_IN_PIXELS argv
    - inject_Z (MetricsEntry.characterAscent metrics)) * Converter.PIXEL_SIZE argv)%Q.

Definition glyphTopOf (argv : Argv.t) : Q :=
  (Converter.PIXEL_HEIGHT argv * Converter.PIXEL_SIZE argv
   - Converter.DESCENDER_HEIGHT argv)%Q.

(** The corners handed to the drawing function for each black pixel of a
    glyph, in drawing order. *)
Definition glyphDots (argv : Argv.t) (metrics : MetricsEntry.t)
    (bitmap : list byte) : list (Q * Q * Q * Q) :=
  (λ '(x, y), Converter.dotCorners argv (xOffsetOf argv metrics)
                (yOffsetOf argv metrics) (glyphTopOf argv) x y)
    <$> setPixels (Converter.bitmapToBinaryLines bitmap
                     (MetricsEntry.characterWidth metrics)).

(** The nominal cell of the pixel in column [x] of line [y], in font
    coordinates: its left, right, bottom and top edges. *)
Definition cellLeft (argv : Argv.t) (metrics : MetricsEntry.t) (x : Z) : Q :=
  (xOffsetOf argv metrics + inject_Z x * Converter.PIXEL_SIZE argv)%Q.
Definition cellRight (argv : Argv.t) (metrics : MetricsEntry.t) (x : Z) : Q :=
  (xOffsetOf argv metrics + (inject_Z x + 1) * Converter.PIXEL_SIZE argv)%Q.
Definition cellTop (argv : Argv.t) (metrics : MetricsEntry.t) (y : Z) : Q :=
  (glyphTopOf argv
   - (yOffsetOf argv metrics + inject_Z y * Converter.PIXEL_SIZE argv))%Q.
Definition cellBottom (argv : Argv.t) (metrics : MetricsEntry.t) (y : Z) : Q :=
  (glyphTopOf argv
   - (yOffsetOf argv metrics + (inject_Z y + 1) * Converter.PIXEL_SIZE argv))%Q.

(** A point lies strictly inside the cell of pixel ([x], [y]). *)
Definition strictlyInside (argv : Argv.t) (metrics : MetricsEntry.t) (x y : Z)
    (p : Q * Q) : Prop :=
  (cellLeft argv metrics x < p.1)%Q ∧ (p.1 < cellRight argv metrics x)%Q ∧
  (cellBottom argv metrics y < p.2)%Q ∧ (p.2 < cellTop argv metrics y)%Q.

(** [corner] is the rounding of the exact coordinate [exact]: an integer,
    less than 1/2 away from [exact] on either side (so that [exact] is no
    tie between two integers), and different from [exact]. *)
Definition roundedFrom (exact corner : Q) : Prop :=
  ∃ n : Z,
    corner = inject_Z n ∧
    (inject_Z n - (1 # 2) < exact)%Q ∧ (exact < inject_Z n + (1 # 2))%Q ∧
    ¬ (exact == inject_Z n)%Q.

(** The padded rectangle of the pixel in column [x] of line [y], in screen
    coordinates, as [vectorizeGlyph] computes it: the points [(x1, y1)]
    and [(x2, y2)] that it hands to [ScreenXyToFontXy]. *)
Definition screenCorners (argv : Argv.t) (metrics : MetricsEntry.t) (x y : Z)
  : (Q * Q) * (Q * Q) :=
  let x1 := (xOffsetOf argv metrics + inject_Z x * Converter.PIXEL_SIZE argv
             + Converter.PIXEL_PADDING argv)%Q in
  let y1 := (yOffsetOf argv metrics + inject_Z y * Converter.PIXEL_SIZE argv
             + Converter.PIXEL_PADDING argv)%Q in
  let x2 := (xOffsetOf argv metrics + (inject_Z x + 1) * Converter.PIXEL_SIZE argv
             - Converter.PIXEL_PADDING argv)%Q in
  let y2 := (yOffsetOf argv metrics + (inject_Z y + 1) * Converter.PIXEL_SIZE argv
             - Converter.PIXEL_PADDING argv)%Q in
  ((x1, y1), (x2, y2)).

(** The corners [(left, top, right, bottom)] handed to the drawing
    function for the pixel ([x], [y]) are what [ScreenXyToFontXy] returns
    on the two screen corners of the pixel, and each is the rounding of
    the exact padded corner of the cell of the pixel in font
    coordinates. *)
Definition roundedCorners (argv : Argv.t) (metrics : MetricsEntry.t)
    (pixel : Z * Z) (corners : Q * Q * Q * Q) : Prop :=
  let '(x, y) := pixel in
  let '(left_, top_, right_, bottom_) := corners in
  let '((x1, y1), (x2, y2)) := screenCorners argv metrics x y in
  let pad := Converter.PIXEL_PADDING argv in
  Converter.ScreenXyToFontXy x1 y1 (glyphTopOf argv) = (left_, top_) ∧
  Converter.ScreenXyToFontXy x2 y2 (glyphTopOf argv) = (right_, bottom_) ∧
  roundedFrom (cellLeft argv metrics x + pad) left_ ∧
  roundedFrom (cellTop argv metrics y - pad) top_ ∧
  roundedFrom (cellRight argv metrics x - pad) right_ ∧
  roundedFrom (cellBottom argv metrics y + pad) bottom_.

(** The points of a drawing command, control points included: their
    bounding box contains the segment or curve drawn. *)
Definition commandPoints (c : command) : list (Q * Q) :=
  match c with
  | M x y => [(x, y)]
  | L x y => [(x, y)]
  | C x1 y1 x2 y2 x y => [(x1, y1); (x2, y2); (x, y)]
  | Zc => []
  end.

Definition endPoint (c : command) : option (Q * Q) :=
  match c with
  | M x y => Some (x, y)
  | L x y => Some (x, y)
  | C _ _ _ _ x y => Some (x, y)
  | Zc => None
  end.

Definition isDraw (c : command) : bool :=
  match c with
  | L _ _ => true
  | C _ _ _ _ _ _ => true
  | _ => false
  end.

(** One closed sub-path: a move to a point, then lines or curves only,
    the last of which ends at that point. *)
Definition closedSubpath (cmds : list command) : Prop :=
  ∃ x y rest,
    cmds = M x y :: rest ∧
    Forall (λ c, isDraw c = true) rest ∧
    last rest ≫= endPoint = Some (x, y).

(** The glyph made of the single black pixel of column 0 of line 0:
    width 1, one row of four bytes whose only set bit is the first. *)
Definition onePixelGlyph (metrics : MetricsEntry.t) : GlyphInfo.t :=
  GlyphInfo.Build 65 0 None (Some metrics) (bytes [0x80; 0; 0; 0]).

(** The outline of [onePixelGlyph] is one closed sub-path, all of whose
    points lie strictly inside the cell of the pixel. *)
Definition onePixelInsideCell (argv : Argv.t) (metrics : MetricsEntry.t) : Prop :=
  ∃ sub,
    Glyph.path <$> Converter.vectorizeGlyph argv (onePixelGlyph metrics)
      = Ok (sub ++ [Zc]) ∧
    closedSubpath sub ∧
    Forall (λ c, Forall (strictlyInside argv metrics 0 0) (commandPoints c)) sub.

(** The selection policy that the two flags of the command line denote. *)
Inductive policy : Type := Full | AsciiOnly | AsciiPlusGb2312.

Definition policyOf (argv : Argv.t) : policy :=
  if Argv.dry_run argv then AsciiOnly
  else if Argv.gb2312_only argv then AsciiPlusGb2312
  else Full.

(** The test that decides whether the first loop of [convert] emits the
    code point [code]: its glyph index lies in [[0, metricsCount)] and the
    filter accepts the code point. *)
Definition isEmitted (argv : Argv.t) (gbkDecode : Z → Z → Z)
    (enc : EncodingTable.t) (mt : MetricsTable.t) (code : Z) : bool :=
  match JS.index (EncodingTable.glyphIndeces enc) code with
  | Some index =>
      (0 <=? index) && (index <? MetricsTable.metricsCount mt) &&
      Converter.isAcceptedGlyph argv gbkDecode code
  | None => false
  end.

(** The glyph indices of the encoding table and the [metricsCount] that
    [parse] finds in a file. *)
Definition parsedIndexTable (rawBuffer : list byte)
  : result (option (list Z) * option Z) :=
  pcf ← PcfParser.parse rawBuffer;
  Ok (option_map EncodingTable.glyphIndeces (Pcf.encodingTable pcf),
      option_map MetricsTable.metricsCount (Pcf.metricsTable pcf)).

(** The code point and the glyph index of every glyph that the first
    loop of [convert] emits for a file. *)
Definition emittedGlyphs (argv : Argv.t) (gbkDecode : Z → Z → Z)
    (rawBuffer : list byte) : result (list (Z * Z)) :=
  pcf ← PcfParser.parse rawBuffer;
  glyphs ← Converter.collectGlyphs argv gbkDecode rawBuffer pcf;
  Ok (map (λ g, (GlyphInfo.code g, GlyphInfo.index g)) glyphs).

(** The string [tableTypeToString] builds, as a function of the nine low
    bits of the type word. *)
Definition typeStringOfBits (b0 b1 b2 b3 b4 b5 b6 b7 b8 : bool) : string :=
  String.concat " | "
    ((if b0 then ["PCF_PROPERTIES"%string] else []) ++
     (if b1 then ["PCF_ACCELERATORS"%string] else []) ++
     (if b2 then ["PCF_METRICS"%string] else []) ++
     (if b3 then ["PCF_BITMAPS"%string] else []) ++
     (if b4 then ["PCF_INK_METRICS"%string] else []) ++
     (if b5 then ["PCF_BDF_ENCODINGS"%string] else []) ++
     (if b6 then ["PCF_SWIDTHS"%string] else []) ++
     (if b7 then ["PCF_GLYPH_NAMES"%string] else []) ++
     (if b8 then ["PCF_BDF_ACCELERATORS"%string] else [])).

(** The number whose nine low bits are given. *)
Definition valueOfBits (b0 b1 b2 b3 b4 b5 b6 b7 b8 : bool) : Z :=
  Z.b2z b0 + 2 * Z.b2z b1 + 4 * Z.b2z b2 + 8 * Z.b2z b3 + 16 * Z.b2z b4 +
  32 * Z.b2z b5 + 64 * Z.b2z b6 + 128 * Z.b2z b7 + 256 * Z.b2z b8.

(** The nine low bits of the type word of a directory entry: the bits
    that [tableTypeToString] tests. *)
Definition tableKind (entry : TocEntry.t) : Z := Z.land (TocEntry.type entry) 0x1FF.

(** The last entry of a directory whose kind is [kind]. *)
Definition lastOfKind (kind : Z) (entries : list TocEntry.t) : option TocEntry.t :=
  last (filter (λ e, tableKind e = kind) entries).

(** The only exception a parser raises, on any input, is
    [RangeError]. *)
Definition raisesRangeErrorOnly {A : Type} (p : BinaryParser.Parser A) : Prop :=
  ∀ s e, BinaryParser.runParser p s = Err e → e = RangeError.

(** A call returns normally. *)
Definition returns {A : Type} (r : result A) : Prop := ∃ a, r = Ok a.

(** The number that a string of pixels spells in binary, a black pixel
    being the digit 1 and any other character the digit 0. *)
Definition pixelsValue (pixels : list ascii) : Z :=
  foldl (λ value ch, 2 * value + (if Ascii.eqb ch Converter.BLACK_PIXEL then 1 else 0))
    0 pixels.

(** A point lies in the box with the given edges, the edges included. *)
Definition inBox (left_ top_ right_ bottom_ : Q) (p : Q * Q) : Prop :=
  (left_ <= p.1)%Q ∧ (p.1 <= right_)%Q ∧ (bottom_ <= p.2)%Q ∧ (p.2 <= top_)%Q.

(** A drawing command ends at the point [q], up to equality of
    rationals. *)
Definition endsAt (c : command) (q : Q * Q) : Prop :=
  ∃ p, endPoint c = Some p ∧ (p.1 == q.1)%Q ∧ (p.2 == q.2)%Q.

(** A drawing command with every coordinate rounded by [Math.round]. *)
Definition roundCommand (c : command) : command :=
  let r (v : Q) : Q := inject_Z (Converter.Math_round v) in
  match c with
  | M x y => M (r x) (r y)
  | L x y => L (r x) (r y)
  | C x1 y1 x2 y2 x y => C (r x1) (r y1) (r x2) (r y2) (r x) (r y)
  | Zc => Zc
  end.

(** The corners that the first revision computes for each black pixel of
    a glyph, in drawing order. *)
Definition legacyDots (argv : Argv.t) (metrics : MetricsEntry.t)
    (bitmap : list byte) : list (Q * Q * Q * Q) :=
  (λ '(x, y), Legacy.dotCorners argv (xOffsetOf argv metrics)
                (yOffsetOf argv metrics) (glyphTopOf argv) x y)
    <$> setPixels (Converter.bitmapToBinaryLines bitmap
                     (MetricsEntry.characterWidth metrics)).

(** What the first loop of [convert] stores for an emitted code point:
    the glyph index of the code, inside [[0, metricsCount)], and under
    that index the name, the metrics and the slice of the file. *)
Definition collected (rawBuffer : list byte) (enc : EncodingTable.t)
    (names : GlyphNameTable.t) (mt : MetricsTable.t) (bt : BitmapTable.t)
    (g : GlyphInfo.t) : Prop :=
  let index := GlyphInfo.index g in
  JS.index (EncodingTable.glyphIndeces enc) (GlyphInfo.code g) = Some index ∧
  0 ≤ index < MetricsTable.metricsCount mt ∧
  GlyphInfo.name g = JS.index (GlyphNameTable.strings names) index ∧
  GlyphInfo.metrics g = JS.index (MetricsTable.metrics mt) index ∧
  GlyphInfo.bitmap g =
    JS.slice rawBuffer (Accessor.glyphBitmapRange bt (Some index)).1
      (Accessor.glyphBitmapRange bt (Some index)).2.

(* ================================================================== *)
(** ** Sample inputs *)
(* ================================================================== *)

(** A file whose only table is a compressed metrics table that declares
    three entries and holds one. *)
Definition sampleTruncated : list byte :=
  bytes [1; 0x66; 0x63; 0x70;  1; 0; 0; 0;
         4; 0; 0; 0;  0; 1; 0; 0;  11; 0; 0; 0;  24; 0; 0; 0;
         0; 1; 0; 0;  3; 0;  0x80; 0x80; 0x80; 0x80; 0x80].

(** The same file with one entry declared, and the same with a wrong
    last signature byte. *)
Definition sampleFile : list byte :=
  bytes [1; 0x66; 0x63; 0x70;  1; 0; 0; 0;
         4; 0; 0; 0;  0; 1; 0; 0;  11; 0; 0; 0;  24; 0; 0; 0;
         0; 1; 0; 0;  1; 0;  0x80; 0x80; 0x80; 0x80; 0x80].

Definition sampleBadMagic : list byte :=
  bytes [1; 0x66; 0x63; 0x71;  1; 0; 0; 0;
         4; 0; 0; 0;  0; 1; 0; 0;  11; 0; 0; 0;  24; 0; 0; 0;
         0; 1; 0; 0;  1; 0;  0x80; 0x80; 0x80; 0x80; 0x80].

(** A little-endian bitmap table of three glyphs with offsets 0, 8, 20
    and candidate sizes 32, 40, 48, 64; its own format word is 0. *)
Definition sampleBitmap3 : list byte :=
  bytes [0; 0; 0; 0;  3; 0; 0; 0;
         0; 0; 0; 0;  8; 0; 0; 0;  20; 0; 0; 0;
         32; 0; 0; 0;  40; 0; 0; 0;  48; 0; 0; 0;  64; 0; 0; 0].

(** The same table, but its own format word is 1 while the directory
    (the [format] argument) says 0. *)
Definition sampleBitmapOwnFormat : list byte :=
  bytes [1; 0; 0; 0;  3; 0; 0; 0;
         0; 0; 0; 0;  8; 0; 0; 0;  20; 0; 0; 0;
         32; 0; 0; 0;  40; 0; 0; 0;  48; 0; 0; 0;  64; 0; 0; 0].

(** A file with the four tables whose encoding table maps code 0 to
    0xFFFF and whose metrics table, in the default format, declares and
    holds 65536 entries. *)
Definition sampleManyMetrics : list byte :=
  bytes [1; 0x66; 0x63; 0x70;  4; 0; 0; 0;
         128; 0; 0; 0;  0; 0; 0; 0;  12; 0; 0; 0;  72; 0; 0; 0;
         32; 0; 0; 0;  0; 0; 0; 0;  16; 0; 0; 0;  84; 0; 0; 0;
         8; 0; 0; 0;  0; 0; 0; 0;  24; 0; 0; 0;  100; 0; 0; 0;
         4; 0; 0; 0;  0; 0; 0; 0;  8; 0; 12; 0;  124; 0; 0; 0;
         0; 0; 0; 0;  0; 0; 0; 0;  0; 0; 0; 0;
         0; 0; 0; 0;  0; 0;  0; 0;  0; 0;  0; 0;  0; 0;  255; 255;
         0; 0; 0; 0;  0; 0; 0; 0;
         0; 0; 0; 0;  0; 0; 0; 0;  0; 0; 0; 0;  0; 0; 0; 0;
         0; 0; 0; 0;  0; 0; 1; 0]
  ++ replicate (Z.to_nat (65536 * 12)) x00.

(** A small font with the four tables: two glyphs, named A and B, of
    widths 1 and 5; the encoding table maps the codes 0, 1, 2 to the glyph
    indices 0, 1 and 0xFFFF; the metrics are compressed. *)
Definition sampleFont : list byte :=
  bytes [1; 0x66; 0x63; 0x70;  4; 0; 0; 0;
         128; 0; 0; 0;  0; 0; 0; 0;  24; 0; 0; 0;  72; 0; 0; 0;
         32; 0; 0; 0;  0; 0; 0; 0;  20; 0; 0; 0;  96; 0; 0; 0;
         4; 0; 0; 0;  0; 1; 0; 0;  16; 0; 0; 0;  116; 0; 0; 0;
         8; 0; 0; 0;  0; 0; 0; 0;  41; 0; 0; 0;  132; 0; 0; 0;
         0; 0; 0; 0;  2; 0; 0; 0;  0; 0; 0; 0;  2; 0; 0; 0;  4; 0; 0; 0;
         65; 0; 66; 0;
         0; 0; 0; 0;  65; 0;  67; 0;  0; 0;  0; 0;  65; 0;
         0; 0;  1; 0;  255; 255;
         0; 1; 0; 0;  2; 0;
         0x80; 0x81; 0x81; 0x8B; 0x80;  0x80; 0x85; 0x85; 0x8B; 0x80;
         0; 0; 0; 0;  2; 0; 0; 0;  0; 0; 0; 0;  4; 0; 0; 0;
         9; 0; 0; 0;  0; 0; 0; 0;  0; 0; 0; 0;  0; 0; 0; 0;
         0x80; 0; 0; 0;  0xA8; 0; 0; 0;  0x50].

(** The options of a full conversion with square dots at 13 pixels. *)
Definition argvFull : Argv.t := Argv.Build 13 square false false.

(** A big-endian glyph-name table: one name, ["A"]. *)
Definition sampleGlyphNamesBE : list byte :=
  bytes [4; 0; 0; 0;  0; 0; 0; 1;  0; 0; 0; 0;  0; 0; 0; 2;  65; 0].

(** A big-endian encoding table for the codes 65..66 of row 0. *)
Definition sampleEncodingBE : list byte :=
  bytes [4; 0; 0; 0;  0; 65;  0; 66;  0; 0;  0; 0;  0; 65;  0; 0;  255; 255].

(** A big-endian metrics table in the default format, one entry. *)
Definition sampleMetricsBE : list byte :=
  bytes [4; 0; 0; 0;  0; 0; 0; 1;  0; 1;  0; 5;  0; 6;  0; 11;  0; 2;  0; 0].

(** A big-endian bitmap table: one glyph of 32 bytes. *)
Definition sampleBitmapBE : list byte :=
  bytes [4; 0; 0; 0;  0; 0; 0; 1;  0; 0; 0; 0;
         0; 0; 0; 32;  0; 0; 0; 32;  0; 0; 0; 32;  0; 0; 0; 32].

(** A compressed metrics table with one entry, whose bytes are
    0x80, 0x00, 0xFF, 0x80, 0x00. *)
Definition sampleCompressed : list byte :=
  bytes [0; 1; 0; 0;  1; 0;  0x80; 0x00; 0xFF; 0x80; 0x00].

(** A file whose directory lists two compressed metrics tables of one
    entry each: the first, at offset 40, holds the metrics 0, 0, 0, 0, 0
    and the second, at offset 51, the metrics 1, 2, 3, 4, 5. *)
Definition sampleTwoMetrics : list byte :=
  bytes [1; 0x66; 0x63; 0x70;  2; 0; 0; 0;
         4; 0; 0; 0;  0; 1; 0; 0;  11; 0; 0; 0;  40; 0; 0; 0;
         4; 0; 0; 0;  0; 1; 0; 0;  11; 0; 0; 0;  51; 0; 0; 0;
         0; 1; 0; 0;  1; 0;  0x80; 0x80; 0x80; 0x80; 0x80;
         0; 1; 0; 0;  1; 0;  0x81; 0x82; 0x83; 0x84; 0x85].

(** A file whose only table is an encoding table, for the code 65 of
    row 0. *)
Definition sampleNoMetrics : list byte :=
  bytes [1; 0x66; 0x63; 0x70;  1; 0; 0; 0;
         32; 0; 0; 0;  0; 0; 0; 0;  16; 0; 0; 0;  24; 0; 0; 0;
         0; 0; 0; 0;  65; 0;  65; 0;  0; 0;  0; 0;  65; 0;  0; 0].

(* ================================================================== *)
(** ** Lemmas on the JavaScript helpers *)
(* ================================================================== *)

Lemma ToInt32_testbit (x i : Z) :
  0 ≤ i < 32 → Z.testbit (JS.ToInt32 x) i = Z.testbit x i.
Proof.
  intros Hi. unfold JS.ToInt32.
  rewrite <- (Z.mod_pow2_bits_low _ 32 i) by lia.
  rewrite <- (Z.mod_pow2_bits_low x 32 i) by lia.
  f_equal.
  rewrite Zminus_mod, Zmod_mod, <- Zminus_mod.
  replace (x + 2 ^ 31 - 2 ^ 31) with x by lia. reflexivity.
Qed.

Lemma land_4_testbit (x : Z) :
  Z.land x 4 = if Z.testbit x 2 then 4 else 0.
Proof.
  apply Z.bits_inj'. intros n Hn.
  rewrite Z.land_spec.
  destruct (Z.eq_dec n 2) as [->|Hne].
  - destruct (Z.testbit x 2); reflexivity.
  - replace (Z.testbit 4 n) with false.
    + rewrite andb_false_r. destruct (Z.testbit x 2).
      * replace 4 with (2 ^ 2) by reflexivity. rewrite Z.pow2_bits_false; auto.
      * symmetry. apply Z.bits_0.
    + replace 4 with (2 ^ 2) by reflexivity. rewrite Z.pow2_bits_false; auto.
Qed.

Lemma getEndianessFromFormat_spec (format : Z) :
  PcfParser.getEndianessFromFormat format =
    (formatEndianess format, formatEndianess format).
Proof.
  unfold PcfParser.getEndianessFromFormat, formatEndianess, JS.truthy, JS.and.
  replace (JS.ToInt32 (JS.shl 1 2)) with 4 by reflexivity.
  rewrite land_4_testbit, ToInt32_testbit by lia.
  destruct (Z.testbit format 2); reflexivity.
Qed.

Lemma index_of_nat {A : Type} (l : list A) (n : nat) :
  JS.index l (Z.of_nat n) = l !! n.
Proof.
  unfold JS.index. destruct (Z.ltb_spec (Z.of_nat n) 0); [lia|].
  by rewrite Nat2Z.id.
Qed.

Lemma index_Some {A : Type} (l : list A) (i : Z) (x : A) :
  JS.index l i = Some x ↔ 0 ≤ i ∧ l !! Z.to_nat i = Some x.
Proof.
  unfold JS.index. destruct (Z.ltb_spec i 0).
  - split; [done | lia].
  - split; [intros Hx; split; [lia | done] | by intros [_ Hx]].
Qed.

Lemma Z_of_byte_range (b : byte) : 0 ≤ Z_of_byte b < 256.
Proof.
  unfold Z_of_byte. pose proof (Byte.to_N_bounded b). lia.
Qed.

Lemma byteAt_range (buf : list byte) (pos : Z) : 0 ≤ byteAt buf pos < 256.
Proof.
  unfold byteAt. destruct (JS.index buf pos); [apply Z_of_byte_range | lia].
Qed.

Lemma u16At_range (e : BinaryParser.endianess) (buf : list byte) (pos : Z) :
  0 ≤ u16At e buf pos < 65536.
Proof.
  pose proof (byteAt_range buf pos). pose proof (byteAt_range buf (pos + 1)).
  unfold u16At. destruct e; lia.
Qed.

Lemma u32At_range (e : BinaryParser.endianess) (buf : list byte) (pos : Z) :
  0 ≤ u32At e buf pos < 4294967296.
Proof.
  pose proof (byteAt_range buf pos). pose proof (byteAt_range buf (pos + 1)).
  pose proof (byteAt_range buf (pos + 2)). pose proof (byteAt_range buf (pos + 3)).
  unfold u32At. destruct e; lia.
Qed.

(* ================================================================== *)
(** ** Lemmas on the parser combinators *)
(* ================================================================== *)

Section ParserLemmas.
Import BinaryParser.

Lemma run_bind {A B : Type} (m : Parser A) (f : A → Parser B) (s : list byte) :
  runParser (m ≫= f) s =
    match runParser m s with
    | Ok (a, s') => runParser (f a) s'
    | Err e => Err e
    end.
Proof. reflexivity. Qed.

Lemma parse_unfold {A : Type} (p : Parser A) (s : list byte) :
  parse p s =
    match runParser p s with
    | Ok (a, _) => Ok a
    | Err e => Err e
    end.
Proof. reflexivity. Qed.

Lemma run_ret {A : Type} (a : A) (s : list byte) :
  runParser (mret a) s = Ok (a, s).
Proof. reflexivity. Qed.

Lemma run_seek (buf : list byte) (n : Z) :
  runParser (seek n) buf = Ok (tt, drop (Z.to_nat n) buf).
Proof. reflexivity. Qed.

Variable buf : list byte.

Lemma fixedSize_uint8 : fixedSize buf uint8 1 (λ n, byteAt buf (Z.of_nat n)).
Proof.
  intros n. unfold byteAt. rewrite index_of_nat. simpl.
  destruct (drop n buf) as [|b s'] eqn:Hd.
  - rewrite decide_False; [done|].
    assert (length (drop n buf) = 0%nat) as Hl by (by rewrite Hd).
    rewrite length_drop in Hl. lia.
  - assert (buf !! n = Some b) as Hb.
    { rewrite <- (Nat.add_0_r n), <- lookup_drop, Hd. done. }
    assert (n < length buf)%nat by (by eapply lookup_lt_Some).
    rewrite decide_True by lia. rewrite Hb.
    do 2 f_equal.
    rewrite <- drop_drop, Hd. done.
Qed.

Lemma fixedSize_bind {A B : Type} (p : Parser A) (k : A → Parser B)
    (a b : nat) (f : nat → A) (g : A → nat → B) :
  fixedSize buf p a f →
  (∀ x, fixedSize buf (k x) b (g x)) →
  fixedSize buf (p ≫= k) (a + b) (λ n, g (f n) (n + a)%nat).
Proof.
  intros Hp Hk n. rewrite run_bind, Hp.
  destruct (decide (n + a ≤ length buf)%nat) as [Ha|Ha].
  - rewrite Hk. rewrite Nat.add_assoc.
    destruct (decide (n + a + b ≤ length buf)%nat); done.
  - rewrite decide_False by lia. done.
Qed.

Lemma fixedSize_map {A B : Type} (p : Parser A) (c : A → B)
    (a : nat) (f : nat → A) :
  fixedSize buf p a f →
  fixedSize buf (x ← p; mret (c x)) a (λ n, c (f n)).
Proof.
  intros Hp n. rewrite run_bind, Hp.
  destruct (decide (n + a ≤ length buf)%nat); done.
Qed.

Lemma fixedSize_ext {A : Type} (p : Parser A) (a : nat) (f g : nat → A) :
  (∀ n, f n = g n) → fixedSize buf p a f → fixedSize buf p a g.
Proof.
  intros Hfg Hp n. rewrite Hp, Hfg. done.
Qed.

End ParserLemmas.

Section FixedSizeParsers.
Import BinaryParser.

Variable buf : list byte.

Lemma fixedSize_uint16 (e : endianess) :
  fixedSize buf (uint16 e) 2 (λ n, u16At e buf (Z.of_nat n)).
Proof.
  unfold uint16.
  eapply fixedSize_ext;
    [| eapply (fixedSize_bind buf uint8 _ 1 1);
       [apply fixedSize_uint8
       | intros b0; apply fixedSize_map, fixedSize_uint8]].
  intros n; simpl. rewrite Nat2Z.inj_add.
  destruct e; reflexivity.
Qed.

Lemma fixedSize_uint32 (e : endianess) :
  fixedSize buf (uint32 e) 4 (λ n, u32At e buf (Z.of_nat n)).
Proof.
  unfold uint32.
  eapply fixedSize_ext;
    [| eapply (fixedSize_bind buf uint8 _ 1 3);
       [apply fixedSize_uint8
       | intros b0; eapply (fixedSize_bind buf uint8 _ 1 2);
         [apply fixedSize_uint8
         | intros b1; eapply (fixedSize_bind buf uint8 _ 1 1);
           [apply fixedSize_uint8
           | intros b2; apply fixedSize_map, fixedSize_uint8]]]].
  intros n; simpl. rewrite !Nat2Z.inj_add.
  replace (Z.of_nat n + Z.of_nat 1 + Z.of_nat 1 + Z.of_nat 1)
    with (Z.of_nat n + 3) by lia.
  replace (Z.of_nat n + Z.of_nat 1 + Z.of_nat 1) with (Z.of_nat n + 2) by lia.
  destruct e; reflexivity.
Qed.

(** An array of [k] fixed-size elements. *)
Lemma run_arrayN {A : Type} (p : Parser A) (sz : nat) (f : nat → A) :
  fixedSize buf p sz f →
  ∀ (k n : nat),
    runParser (arrayN k p) (drop n buf) =
      if decide (k = 0%nat ∨ n + k * sz ≤ length buf)%nat
      then Ok ((λ i, f (n + i * sz)%nat) <$> seq 0 k, drop (n + k * sz) buf)
      else Err RangeError.
Proof.
  intros Hp k. induction k as [|k IH]; intros n.
  - rewrite decide_True by (by left). simpl. by rewrite Nat.add_0_r.
  - cbn [arrayN]. rewrite run_bind, Hp.
    destruct (decide (n + sz ≤ length buf)%nat) as [Hn|Hn].
    + rewrite run_bind, IH.
      destruct (decide (k = 0%nat ∨ n + sz + k * sz ≤ length buf)%nat) as [Hk|Hk].
      * rewrite decide_True by (right; destruct Hk as [->|Hk]; simpl; lia).
        rewrite run_ret. f_equal. f_equal.
        -- cbn [seq fmap list_fmap]. f_equal; [f_equal; lia|].
           rewrite <- fmap_S_seq, <- list_fmap_compose.
           apply list_fmap_ext. intros _ i _. simpl. f_equal. lia.
        -- f_equal. simpl. lia.
      * rewrite decide_False; [done|].
        intros [?|?]; [done|]. apply Hk. right. simpl in *. lia.
    + rewrite decide_False; [done|].
      intros [?|?]; [done|]. simpl in *. lia.
Qed.

Lemma run_array {A : Type} (p : Parser A) (sz : nat) (f : nat → A)
    (len : Z) (n : nat) :
  fixedSize buf p sz f →
  runParser (array len p) (drop n buf) =
    if decide (len ≤ 0 ∨ Z.of_nat n + len * Z.of_nat sz ≤ Z.of_nat (length buf))
    then Ok ((λ i, f (n + i * sz)%nat) <$> seq 0 (Z.to_nat len),
             drop (n + Z.to_nat len * sz) buf)
    else Err RangeError.
Proof.
  intros Hp. unfold array. rewrite (run_arrayN p sz f Hp).
  destruct (decide (len ≤ 0 ∨ _)) as [H|H].
  - rewrite decide_True; [done|].
    destruct H as [H|H]; [left; lia|].
    destruct (decide (len ≤ 0)); [left; lia | right; nia].
  - rewrite decide_False; [done|].
    intros [H'|H']; apply H; [left; lia | right; nia].
Qed.

Lemma fixedSize_headerTableParser :
  fixedSize buf PcfParser.headerTableParser 16
    (λ n, TocEntry.Build
            (u32At little buf (Z.of_nat n))
            (u32At little buf (Z.of_nat n + 4))
            (u32At little buf (Z.of_nat n + 8))
            (u32At little buf (Z.of_nat n + 12))).
Proof.
  unfold PcfParser.headerTableParser.
  eapply fixedSize_ext;
    [| eapply (fixedSize_bind buf _ _ 4 12);
       [apply fixedSize_uint32
       | intros b0; eapply (fixedSize_bind buf _ _ 4 8);
         [apply fixedSize_uint32
         | intros b1; eapply (fixedSize_bind buf _ _ 4 4);
           [apply fixedSize_uint32
           | intros b2; apply fixedSize_map, fixedSize_uint32]]]].
  intros n; cbv beta. rewrite ?Nat2Z.inj_add.
  f_equal; f_equal; lia.
Qed.

Lemma fixedSize_compressedEntryParser :
  fixedSize buf PcfParser.compressedEntryParser 5
    (λ n, MetricsEntry.Build
            (byteAt buf (Z.of_nat n))
            (byteAt buf (Z.of_nat n + 1))
            (byteAt buf (Z.of_nat n + 2))
            (byteAt buf (Z.of_nat n + 3))
            (byteAt buf (Z.of_nat n + 4))
            0).
Proof.
  unfold PcfParser.compressedEntryParser.
  eapply fixedSize_ext;
    [| eapply (fixedSize_bind buf _ _ 1 4);
       [apply fixedSize_uint8
       | intros b0; eapply (fixedSize_bind buf _ _ 1 3);
         [apply fixedSize_uint8
         | intros b1; eapply (fixedSize_bind buf _ _ 1 2);
           [apply fixedSize_uint8
           | intros b2; eapply (fixedSize_bind buf _ _ 1 1);
             [apply fixedSize_uint8
             | intros b3; apply fixedSize_map, fixedSize_uint8]]]]].
  intros n; cbv beta. rewrite ?Nat2Z.inj_add.
  f_equal; f_equal; lia.
Qed.

Lemma fixedSize_defaultEntryParser (e : endianess) :
  fixedSize buf (PcfParser.defaultEntryParser e) 12
    (λ n, MetricsEntry.Build
            (u16At e buf (Z.of_nat n))
            (u16At e buf (Z.of_nat n + 2))
            (u16At e buf (Z.of_nat n + 4))
            (u16At e buf (Z.of_nat n + 6))
            (u16At e buf (Z.of_nat n + 8))
            (u16At e buf (Z.of_nat n + 10))).
Proof.
  unfold PcfParser.defaultEntryParser.
  eapply fixedSize_ext;
    [| eapply (fixedSize_bind buf _ _ 2 10);
       [apply fixedSize_uint16
       | intros b0; eapply (fixedSize_bind buf _ _ 2 8);
         [apply fixedSize_uint16
         | intros b1; eapply (fixedSize_bind buf _ _ 2 6);
           [apply fixedSize_uint16
           | intros b2; eapply (fixedSize_bind buf _ _ 2 4);
             [apply fixedSize_uint16
             | intros b3; eapply (fixedSize_bind buf _ _ 2 2);
               [apply fixedSize_uint16
               | intros b4; apply fixedSize_map, fixedSize_uint16]]]]]].
  intros n; cbv beta. rewrite ?Nat2Z.inj_add.
  f_equal; f_equal; lia.
Qed.

End FixedSizeParsers.

(* ================================================================== *)
(** ** What each table decoder computes *)
(* ================================================================== *)

(** One read of a fixed-size field inside a table parser. *)
Ltac read_ok lem :=
  rewrite run_bind, lem; cbv beta; rewrite decide_True by lia.
Ltac read_any lem :=
  rewrite run_bind, lem; cbv beta; case_decide; [| reflexivity].

Section Decoders.
Import BinaryParser PcfParser.

Variable buf : list byte.
Variables offset format : Z.
Hypothesis offset_nonneg : 0 ≤ offset.

Let e := formatEndianess format.
Let len := Z.of_nat (length buf).

Lemma parseEncodingTable_eq :
  let min2 := u16At e buf (offset + 4) in
  let max2 := u16At e buf (offset + 6) in
  let min1 := u16At e buf (offset + 8) in
  let max1 := u16At e buf (offset + 10) in
  let count := (max2 - min2 + 1) * (max1 - min1 + 1) in
  parseEncodingTable buf offset format =
    if decide (offset + 14 ≤ len ∧ (count ≤ 0 ∨ offset + 14 + 2 * count ≤ len))
    then Ok (EncodingTable.Build (u32At little buf offset)
               min2 max2 min1 max1 (u16At e buf (offset + 12))
               ((λ i, u16At e buf (offset + 14 + 2 * Z.of_nat i))
                  <$> seq 0 (Z.to_nat count)))
    else Err RangeError.
Proof.
  intros min2 max2 min1 max1 count.
  unfold parseEncodingTable. rewrite getEndianessFromFormat_spec.
  fold e. cbv iota beta. unfold BinaryParser.parse.
  rewrite run_bind, run_seek.
  assert (Hn : offset = Z.of_nat (Z.to_nat offset)) by lia.
  subst min2 max2 min1 max1 count len.
  revert Hn. generalize (Z.to_nat offset) as n. intros n ->.
  replace (Z.of_nat n + 4) with (Z.of_nat (n + 4)) by lia.
  replace (Z.of_nat n + 6) with (Z.of_nat (n + 4 + 2)) by lia.
  replace (Z.of_nat n + 8) with (Z.of_nat (n + 4 + 2 + 2)) by lia.
  replace (Z.of_nat n + 10) with (Z.of_nat (n + 4 + 2 + 2 + 2)) by lia.
  replace (Z.of_nat n + 12) with (Z.of_nat (n + 4 + 2 + 2 + 2 + 2)) by lia.
  case_decide as Hfit.
  - read_ok (fixedSize_uint32 buf). do 5 read_ok (fixedSize_uint16 buf).
    rewrite run_bind, (run_array buf _ _ _ _ _ (fixedSize_uint16 buf _)).
    rewrite decide_True by lia.
    rewrite run_ret. do 2 f_equal.
    apply list_fmap_ext. intros _ i _. cbv beta. f_equal. lia.
  - read_any (fixedSize_uint32 buf). do 5 read_any (fixedSize_uint16 buf).
    rewrite run_bind, (run_array buf _ _ _ _ _ (fixedSize_uint16 buf _)).
    rewrite decide_False; [done|]. lia.
Qed.

Lemma parseMetricsTable_compressed_eq :
  isCompressedMetrics format = true →
  let count := u16At e buf (offset + 4) in
  parseMetricsTable buf offset format =
    if decide (offset + 6 ≤ len ∧ (count ≤ 0 ∨ offset + 6 + 5 * count ≤ len))
    then Ok (MetricsTable.Build (u32At little buf offset) count
               ((λ i, MetricsEntry.Build
                        (byteAt buf (offset + 6 + 5 * Z.of_nat i) - 128)
                        (byteAt buf (offset + 6 + 5 * Z.of_nat i + 1) - 128)
                        (byteAt buf (offset + 6 + 5 * Z.of_nat i + 2) - 128)
                        (byteAt buf (offset + 6 + 5 * Z.of_nat i + 3) - 128)
                        (byteAt buf (offset + 6 + 5 * Z.of_nat i + 4) - 128)
                        0)
                  <$> seq 0 (Z.to_nat count)))
    else Err RangeError.
Proof.
  intros Hc count.
  unfold parseMetricsTable. rewrite getEndianessFromFormat_spec, Hc.
  fold e. cbv iota beta. unfold BinaryParser.parse.
  rewrite run_bind, run_seek.
  assert (Hn : offset = Z.of_nat (Z.to_nat offset)) by lia.
  subst count len.
  revert Hn. generalize (Z.to_nat offset) as n. intros n ->.
  replace (Z.of_nat n + 4) with (Z.of_nat (n + 4)) by lia.
  case_decide as Hfit.
  - read_ok (fixedSize_uint32 buf). read_ok (fixedSize_uint16 buf).
    rewrite run_bind,
      (run_array buf _ _ _ _ _ (fixedSize_compressedEntryParser buf)).
    rewrite decide_True by lia.
    rewrite run_ret. simpl. do 2 f_equal.
    rewrite <- list_fmap_compose.
    apply list_fmap_ext. intros _ i _. unfold rebias, compose. simpl.
    f_equal; f_equal; f_equal; lia.
  - read_any (fixedSize_uint32 buf). read_any (fixedSize_uint16 buf).
    rewrite run_bind,
      (run_array buf _ _ _ _ _ (fixedSize_compressedEntryParser buf)).
    rewrite decide_False; [done|]. lia.
Qed.

Lemma parseMetricsTable_default_eq :
  isCompressedMetrics format = false →
  let count := u32At e buf (offset + 4) in
  parseMetricsTable buf offset format =
    if decide (offset + 8 ≤ len ∧ (count ≤ 0 ∨ offset + 8 + 12 * count ≤ len))
    then Ok (MetricsTable.Build (u32At little buf offset) count
               ((λ i, MetricsEntry.Build
                        (u16At e buf (offset + 8 + 12 * Z.of_nat i))
                        (u16At e buf (offset + 8 + 12 * Z.of_nat i + 2))
                        (u16At e buf (offset + 8 + 12 * Z.of_nat i + 4))
                        (u16At e buf (offset + 8 + 12 * Z.of_nat i + 6))
                        (u16At e buf (offset + 8 + 12 * Z.of_nat i + 8))
                        (u16At e buf (offset + 8 + 12 * Z.of_nat i + 10)))
                  <$> seq 0 (Z.to_nat count)))
    else Err RangeError.
Proof.
  intros Hc count.
  unfold parseMetricsTable. rewrite getEndianessFromFormat_spec, Hc.
  fold e. cbv iota beta. unfold BinaryParser.parse.
  rewrite run_bind, run_seek.
  assert (Hn : offset = Z.of_nat (Z.to_nat offset)) by lia.
  subst count len.
  revert Hn. generalize (Z.to_nat offset) as n. intros n ->.
  replace (Z.of_nat n + 4) with (Z.of_nat (n + 4)) by lia.
  case_decide as Hfit.
  - do 2 read_ok (fixedSize_uint32 buf).
    rewrite run_bind,
      (run_array buf _ _ _ _ _ (fixedSize_defaultEntryParser buf _)).
    rewrite decide_True by lia.
    rewrite run_ret. do 2 f_equal.
    apply list_fmap_ext. intros _ i _. cbv beta.
    f_equal; f_equal; lia.
  - do 2 read_any (fixedSize_uint32 buf).
    rewrite run_bind,
      (run_array buf _ _ _ _ _ (fixedSize_defaultEntryParser buf _)).
    rewrite decide_False; [done|]. lia.
Qed.

Lemma parseBitmapTable_eq :
  let count := u32At e buf (offset + 4) in
  let tformat := u32At little buf offset in
  let bitmapSizes :=
    (λ i, u32At e buf (offset + 8 + 4 * count + 4 * Z.of_nat i)) <$> seq 0 4 in
  parseBitmapTable buf offset format =
    if decide (offset + 8 + 4 * count + 16 ≤ len)
    then Ok (BitmapTable.Build tformat count
               ((λ i, u32At e buf (offset + 8 + 4 * Z.of_nat i))
                  <$> seq 0 (Z.to_nat count))
               bitmapSizes
               (JS.index bitmapSizes (JS.and tformat 3))
               (offset + 4 * 2 + 4 * count + 4 * 4))
    else Err RangeError.
Proof.
  intros count tformat bitmapSizes.
  unfold parseBitmapTable. rewrite getEndianessFromFormat_spec.
  fold e. cbv iota beta. unfold BinaryParser.parse.
  rewrite run_bind, run_seek.
  assert (Hn : offset = Z.of_nat (Z.to_nat offset)) by lia.
  pose proof (u32At_range e buf (offset + 4)) as Hcount.
  subst bitmapSizes tformat count len.
  revert Hn Hcount. generalize (Z.to_nat offset) as n. intros n -> Hcount.
  replace (Z.of_nat n + 4) with (Z.of_nat (n + 4)) in * by lia.
  case_decide as Hfit.
  - do 2 read_ok (fixedSize_uint32 buf).
    rewrite run_bind, (run_array buf _ _ _ _ _ (fixedSize_uint32 buf _)).
    rewrite decide_True by lia.
    rewrite run_bind, (run_array buf _ _ _ _ _ (fixedSize_uint32 buf _)).
    rewrite decide_True by lia.
    rewrite run_ret. cbn [mbind result_bind mret result_ret].
    assert (Hsizes :
      (λ i : nat, u32At e buf
         (Z.of_nat (n + 4 + 4 + Z.to_nat (u32At e buf (Z.of_nat (n + 4))) * 4
                    + i * 4))) <$> seq 0 (Z.to_nat 4)
      = (λ i : nat, u32At e buf
           (Z.of_nat n + 8 + 4 * u32At e buf (Z.of_nat (n + 4))
            + 4 * Z.of_nat i)) <$> seq 0 4).
    { apply list_fmap_ext. intros _ i _. cbv beta. f_equal. lia. }
    rewrite Hsizes. f_equal. f_equal.
    apply list_fmap_ext. intros _ i _. cbv beta. f_equal. lia.
  - do 2 read_any (fixedSize_uint32 buf).
    rewrite run_bind, (run_array buf _ _ _ _ _ (fixedSize_uint32 buf _)).
    case_decide; [| reflexivity].
    rewrite run_bind, (run_array buf _ _ _ _ _ (fixedSize_uint32 buf _)).
    rewrite decide_False; [done|]. lia.
Qed.

(** The header of the glyph-name table; the strings are read next,
    one parse per offset. *)
Lemma parseGlyphNameTable_eq :
  let count := u32At e buf (offset + 4) in
  let offsets :=
    (λ i, u32At e buf (offset + 8 + 4 * Z.of_nat i)) <$> seq 0 (Z.to_nat count) in
  parseGlyphNameTable buf offset format =
    if decide (offset + 8 + 4 * count + 4 ≤ len)
    then
      strings ← mapM (λ stringOffset,
                        BinaryParser.parse
                          (_ ← seek (offset + (4 * 2 + 4 * count + 4) + stringOffset);
                           string_zeroTerminated) buf) offsets;
      mret (GlyphNameTable.Build (u32At little buf offset) count offsets
              (u32At e buf (offset + 8 + 4 * count)) strings)
    else Err RangeError.
Proof.
  intros count offsets.
  unfold parseGlyphNameTable. rewrite getEndianessFromFormat_spec.
  fold e. cbv iota beta. rewrite (parse_unfold (seek offset ≫= _) buf).
  rewrite run_bind, run_seek.
  assert (Hn : offset = Z.of_nat (Z.to_nat offset)) by lia.
  pose proof (u32At_range e buf (offset + 4)) as Hcount.
  subst offsets count len.
  revert Hn Hcount. generalize (Z.to_nat offset) as n. intros n -> Hcount.
  replace (Z.of_nat n + 4) with (Z.of_nat (n + 4)) in * by lia.
  case_decide as Hfit.
  - do 2 read_ok (fixedSize_uint32 buf).
    rewrite run_bind, (run_array buf _ _ _ _ _ (fixedSize_uint32 buf _)).
    rewrite decide_True by lia.
    read_ok (fixedSize_uint32 buf).
    rewrite run_ret. cbn [mbind result_bind].
    assert (Hoffsets :
      (λ i : nat, u32At e buf (Z.of_nat (n + 4 + 4 + i * 4)))
        <$> seq 0 (Z.to_nat (u32At e buf (Z.of_nat (n + 4))))
      = (λ i : nat, u32At e buf (Z.of_nat n + 8 + 4 * Z.of_nat i))
          <$> seq 0 (Z.to_nat (u32At e buf (Z.of_nat (n + 4))))).
    { apply list_fmap_ext. intros _ i _. cbv beta. f_equal. lia. }
    rewrite Hoffsets.
    replace (Z.of_nat (n + 4 + 4 + Z.to_nat (u32At e buf (Z.of_nat (n + 4))) * 4))
      with (Z.of_nat n + 8 + 4 * u32At e buf (Z.of_nat (n + 4))) by lia.
    reflexivity.
  - do 2 read_any (fixedSize_uint32 buf).
    rewrite run_bind, (run_array buf _ _ _ _ _ (fixedSize_uint32 buf _)).
    case_decide; [| reflexivity].
    rewrite run_bind, (fixedSize_uint32 buf). cbv beta.
    rewrite decide_False; [done|]. lia.
Qed.

End Decoders.

Section MainParser.
Import BinaryParser PcfParser.

Lemma mainParser_eq (buf : list byte) :
  let len := Z.of_nat (length buf) in
  let tableCount := u32At little buf 4 in
  BinaryParser.parse mainParser buf =
    if decide (8 ≤ len ∧ (tableCount ≤ 0 ∨ 8 + 16 * tableCount ≤ len))
    then Ok (Pcf.Build (take 4 buf) tableCount
               ((λ i, TocEntry.Build
                        (u32At little buf (8 + 16 * Z.of_nat i))
                        (u32At little buf (8 + 16 * Z.of_nat i + 4))
                        (u32At little buf (8 + 16 * Z.of_nat i + 8))
                        (u32At little buf (8 + 16 * Z.of_nat i + 12)))
                  <$> seq 0 (Z.to_nat tableCount))
               None None None None)
    else Err RangeError.
Proof.
  intros len tableCount. subst len tableCount.
  unfold BinaryParser.parse, mainParser.
  rewrite run_bind. cbn [string_length runParser].
  change 4 with (Z.of_nat 4).
  case_decide as Hfit.
  - read_ok (fixedSize_uint32 buf).
    rewrite run_bind, (run_array buf _ _ _ _ _ (fixedSize_headerTableParser buf)).
    rewrite decide_True by lia.
    rewrite run_ret. do 2 f_equal.
    apply list_fmap_ext. intros _ i _. cbv beta.
    f_equal; f_equal; lia.
  - read_any (fixedSize_uint32 buf).
    rewrite run_bind, (run_array buf _ _ _ _ _ (fixedSize_headerTableParser buf)).
    rewrite decide_False; [done|]. lia.
Qed.

End MainParser.

Lemma index_fmap_seq {A : Type} (f : nat → A) (n : nat) (i : Z) :
  0 ≤ i < Z.of_nat n → JS.index (f <$> seq 0 n) i = Some (f (Z.to_nat i)).
Proof.
  intros Hi. apply index_Some. split; [lia|].
  rewrite list_lookup_fmap, lookup_seq_lt by lia. done.
Qed.

(* ================================================================== *)
(** ** Byte order of the table fields *)
(* ================================================================== *)

(** C1.  In each of the four table decoders the first 32-bit field, the
    table's own copy of the format word, is read little-endian whatever
    the format says, and every later multi-byte field is read in the
    byte order given by bit 2 of the format argument (the format word of
    the table's directory entry): big-endian when the bit is set,
    little-endian when it is clear.  The fields are given by
    position: [u16At] and [u32At] read the buffer directly. *)
Theorem table_fields_byte_order (buf : list byte) (offset format : Z) :
  0 ≤ offset →
  let e := if Z.testbit format 2 then BinaryParser.big else BinaryParser.little in
  (∀ t, PcfParser.parseGlyphNameTable buf offset format = Ok t →
     GlyphNameTable.format t = u32At BinaryParser.little buf offset ∧
     GlyphNameTable.glyphCount t = u32At e buf (offset + 4) ∧
     (∀ i, 0 ≤ i < GlyphNameTable.glyphCount t →
        JS.index (GlyphNameTable.offsets t) i =
          Some (u32At e buf (offset + 8 + 4 * i))) ∧
     GlyphNameTable.stringSize t =
       u32At e buf (offset + 8 + 4 * GlyphNameTable.glyphCount t)) ∧
  (∀ t, PcfParser.parseEncodingTable buf offset format = Ok t →
     EncodingTable.format t = u32At BinaryParser.little buf offset ∧
     EncodingTable.minCharOrByte2 t = u16At e buf (offset + 4) ∧
     EncodingTable.maxCharOrByte2 t = u16At e buf (offset + 6) ∧
     EncodingTable.minByte1 t = u16At e buf (offset + 8) ∧
     EncodingTable.maxByte1 t = u16At e buf (offset + 10) ∧
     EncodingTable.defaultChar t = u16At e buf (offset + 12) ∧
     (∀ i, 0 ≤ i < Z.of_nat (length (EncodingTable.glyphIndeces t)) →
        JS.index (EncodingTable.glyphIndeces t) i =
          Some (u16At e buf (offset + 14 + 2 * i)))) ∧
  (∀ t, PcfParser.parseMetricsTable buf offset format = Ok t →
     MetricsTable.format t = u32At BinaryParser.little buf offset ∧
     if PcfParser.isCompressedMetrics format
     then MetricsTable.metricsCount t = u16At e buf (offset + 4)
     else
       MetricsTable.metricsCount t = u32At e buf (offset + 4) ∧
       (∀ i, 0 ≤ i < MetricsTable.metricsCount t →
          JS.index (MetricsTable.metrics t) i =
            Some (MetricsEntry.Build
                    (u16At e buf (offset + 8 + 12 * i))
                    (u16At e buf (offset + 8 + 12 * i + 2))
                    (u16At e buf (offset + 8 + 12 * i + 4))
                    (u16At e buf (offset + 8 + 12 * i + 6))
                    (u16At e buf (offset + 8 + 12 * i + 8))
                    (u16At e buf (offset + 8 + 12 * i + 10))))) ∧
  (∀ t, PcfParser.parseBitmapTable buf offset format = Ok t →
     BitmapTable.format t = u32At BinaryParser.little buf offset ∧
     BitmapTable.glyphCount t = u32At e buf (offset + 4) ∧
     (∀ i, 0 ≤ i < BitmapTable.glyphCount t →
        JS.index (BitmapTable.offsets t) i =
          Some (u32At e buf (offset + 8 + 4 * i))) ∧
     (∀ k, 0 ≤ k < 4 →
        JS.index (BitmapTable.bitmapSizes t) k =
          Some (u32At e buf (offset + 8 + 4 * BitmapTable.glyphCount t + 4 * k)))).
Proof.
  intros Hoff e. change e with (formatEndianess format). clear e.
  split; [|split; [|split]].
  - intros t. rewrite parseGlyphNameTable_eq by done.
    case_decide; [|done].
    destruct (mapM _ _) as [strings|err]; [|done]. intros [= <-]. simpl.
    repeat split.
    + intros i Hi. rewrite index_fmap_seq by lia. do 2 f_equal. lia.
  - intros t. rewrite parseEncodingTable_eq by done.
    case_decide; [|done]. intros [= <-]. simpl.
    repeat split.
    intros i Hi. rewrite length_fmap, length_seq in Hi.
    rewrite index_fmap_seq by lia. do 2 f_equal. lia.
  - intros t. destruct (PcfParser.isCompressedMetrics format) eqn:Hc.
    + rewrite parseMetricsTable_compressed_eq by done.
      case_decide; [|done]. intros [= <-]. done.
    + rewrite parseMetricsTable_default_eq by done.
      case_decide; [|done]. intros [= <-]. simpl.
      repeat split.
      intros i Hi. rewrite index_fmap_seq by lia.
      do 2 f_equal; f_equal; lia.
  - intros t. rewrite parseBitmapTable_eq by done.
    case_decide; [|done]. intros [= <-]. simpl.
    repeat split.
    + intros i Hi. rewrite index_fmap_seq by lia. do 2 f_equal. lia.
    + intros k Hk.
      assert (k = 0 ∨ k = 1 ∨ k = 2 ∨ k = 3) as [->|[->|[->| ->]]] by lia;
        reflexivity.
Qed.

Lemma table_fields_byte_order_witness :
  (∃ t, PcfParser.parseGlyphNameTable sampleGlyphNamesBE 0 4 = Ok t ∧
        GlyphNameTable.glyphCount t = u32At BinaryParser.big sampleGlyphNamesBE 4 ∧
        GlyphNameTable.glyphCount t = 1) ∧
  (∃ t, PcfParser.parseEncodingTable sampleEncodingBE 0 4 = Ok t ∧
        EncodingTable.maxCharOrByte2 t = u16At BinaryParser.big sampleEncodingBE 6 ∧
        EncodingTable.maxCharOrByte2 t = 66) ∧
  (∃ t, PcfParser.parseMetricsTable sampleMetricsBE 0 4 = Ok t ∧
        MetricsTable.metricsCount t = u32At BinaryParser.big sampleMetricsBE 4 ∧
        MetricsTable.metricsCount t = 1) ∧
  (∃ t, PcfParser.parseBitmapTable sampleBitmapBE 0 4 = Ok t ∧
        BitmapTable.glyphCount t = u32At BinaryParser.big sampleBitmapBE 4 ∧
        BitmapTable.glyphCount t = 1).
Proof.
  split; [|split; [|split]].
  - destruct (table_fields_byte_order sampleGlyphNamesBE 0 4 (Z.le_refl 0))
      as (H & _).
    eexists. split; [vm_compute; reflexivity|].
    split; [|reflexivity].
    exact (proj1 (proj2 (H _ eq_refl))).
  - destruct (table_fields_byte_order sampleEncodingBE 0 4 (Z.le_refl 0))
      as (_ & H & _).
    eexists. split; [vm_compute; reflexivity|].
    split; [|reflexivity].
    exact (proj1 (proj2 (proj2 (H _ eq_refl)))).
  - destruct (table_fields_byte_order sampleMetricsBE 0 4 (Z.le_refl 0))
      as (_ & _ & H & _).
    eexists. split; [vm_compute; reflexivity|].
    split; [|reflexivity].
    exact (proj1 (proj2 (H _ eq_refl))).
  - destruct (table_fields_byte_order sampleBitmapBE 0 4 (Z.le_refl 0))
      as (_ & _ & _ & H).
    eexists. split; [vm_compute; reflexivity|].
    split; [|reflexivity].
    exact (proj1 (proj2 (H _ eq_refl))).
Defined.

(* ================================================================== *)
(** ** Compressed metrics *)
(* ================================================================== *)

(** C2.  For a format word that marks compressed metrics, the decoder
    reads a 16-bit count at offset 4 of the table and then that many
    entries of five unsigned bytes; each of the five fields of entry [i]
    is its byte minus 128 and [characterAttributes] is 0.  The table is
    decoded whenever the buffer holds these entries.  On the sample
    table the bytes 0x80, 0x00 and 0xFF decode to 0, -128 and 127. *)
Theorem compressed_metrics_decoding (buf : list byte) (offset format : Z) :
  0 ≤ offset →
  PcfParser.isCompressedMetrics format = true →
  let e := if Z.testbit format 2 then BinaryParser.big else BinaryParser.little in
  let count := u16At e buf (offset + 4) in
  offset + 6 + 5 * count ≤ Z.of_nat (length buf) →
  (∃ t, PcfParser.parseMetricsTable buf offset format = Ok t ∧
        MetricsTable.metricsCount t = count ∧
        Z.of_nat (length (MetricsTable.metrics t)) = count ∧
        (∀ i, 0 ≤ i < count →
           JS.index (MetricsTable.metrics t) i =
             Some (MetricsEntry.Build
                     (byteAt buf (offset + 6 + 5 * i) - 128)
                     (byteAt buf (offset + 6 + 5 * i + 1) - 128)
                     (byteAt buf (offset + 6 + 5 * i + 2) - 128)
                     (byteAt buf (offset + 6 + 5 * i + 3) - 128)
                     (byteAt buf (offset + 6 + 5 * i + 4) - 128)
                     0))) ∧
  PcfParser.parseMetricsTable sampleCompressed 0 0x100 =
    Ok (MetricsTable.Build 0x100 1 [MetricsEntry.Build 0 (-128) 127 0 (-128) 0]).
Proof.
  intros Hoff Hc e count Hfit.
  change e with (formatEndianess format) in *. clear e.
  split; [|reflexivity].
  rewrite parseMetricsTable_compressed_eq by done. fold count.
  pose proof (u16At_range (formatEndianess format) buf (offset + 4)) as Hcount.
  fold count in Hcount.
  rewrite decide_True by lia.
  eexists. split; [reflexivity|]. simpl.
  split; [reflexivity|]. split.
  - rewrite length_fmap, length_seq. lia.
  - intros i Hi. rewrite index_fmap_seq by lia.
    do 2 f_equal; f_equal; f_equal; lia.
Qed.

Lemma compressed_metrics_decoding_witness :
  ∃ t, PcfParser.parseMetricsTable sampleCompressed 0 0x100 = Ok t ∧
       MetricsTable.metricsCount t = 1 ∧
       JS.index (MetricsTable.metrics t) 0 =
         Some (MetricsEntry.Build 0 (-128) 127 0 (-128) 0).
Proof.
  destruct (compressed_metrics_decoding sampleCompressed 0 0x100)
    as [(t & Ht & Hcount & _ & Hentry) _].
  - lia.
  - reflexivity.
  - vm_compute. discriminate.
  - exists t. split; [exact Ht|]. split; [exact Hcount|].
    apply (Hentry 0). vm_compute. split; [discriminate | reflexivity].
Defined.

(* ================================================================== *)
(** ** Fatal errors of the parse *)
(* ================================================================== *)

Lemma parseTable_fails (buf : list byte) (pcf : Pcf.t) (entry : TocEntry.t)
    (err : error) :
  entryFails buf entry err → PcfParser.parseTable buf pcf entry = Err err.
Proof.
  unfold entryFails, PcfParser.parseTable.
  intros [[-> ->]|[[-> ->]|[[-> ->]|[-> ->]]]]; reflexivity.
Qed.

Lemma parseTables_fails (buf : list byte) (entries : list TocEntry.t)
    (entry : TocEntry.t) (err : error) :
  entry ∈ entries → entryFails buf entry err →
  ∀ pcf, ∃ err', PcfParser.parseTables buf pcf entries = Err err'.
Proof.
  intros Hin Hfail. induction Hin as [entry rest|entry other rest Hin IH];
    intros pcf; cbn [PcfParser.parseTables].
  - rewrite (parseTable_fails _ _ _ _ Hfail). by eexists.
  - destruct (PcfParser.parseTable buf pcf other) as [pcf'|err'].
    + by apply IH.
    + by eexists.
Qed.

(** C5.  A declared count that reaches past the end of the buffer is
    fatal.  Each decoder raises [RangeError] when its count field
    ([glyphCount], [metricsCount], or the number of glyph indices computed
    from the four range fields of the encoding table) needs more bytes
    than the buffer holds after the table's offset; and when the decoder
    of any entry of the table of contents raises, [parse] raises too and
    returns no object. *)
Theorem count_past_end_is_fatal (buf : list byte) (offset format : Z) :
  0 ≤ offset →
  let e := if Z.testbit format 2 then BinaryParser.big else BinaryParser.little in
  let len := Z.of_nat (length buf) in
  (len < offset + 8 + 4 * u32At e buf (offset + 4) →
   PcfParser.parseGlyphNameTable buf offset format = Err RangeError) ∧
  (let count := (u16At e buf (offset + 6) - u16At e buf (offset + 4) + 1) *
                (u16At e buf (offset + 10) - u16At e buf (offset + 8) + 1) in
   0 < count → len < offset + 14 + 2 * count →
   PcfParser.parseEncodingTable buf offset format = Err RangeError) ∧
  (len < offset + (if PcfParser.isCompressedMetrics format
                   then 6 + 5 * u16At e buf (offset + 4)
                   else 8 + 12 * u32At e buf (offset + 4)) →
   PcfParser.parseMetricsTable buf offset format = Err RangeError) ∧
  (len < offset + 8 + 4 * u32At e buf (offset + 4) →
   PcfParser.parseBitmapTable buf offset format = Err RangeError) ∧
  (∀ pcf entry err,
     BinaryParser.parse PcfParser.mainParser buf = Ok pcf →
     entry ∈ Pcf.tocEntry pcf →
     entryFails buf entry err →
     ∃ err', PcfParser.parse buf = Err err').
Proof.
  intros Hoff e len. change e with (formatEndianess format). clear e.
  split; [|split; [|split; [|split]]].
  - intros H. rewrite parseGlyphNameTable_eq by done.
    rewrite decide_False; [done | fold len; lia].
  - intros count Hpos H. rewrite parseEncodingTable_eq by done.
    rewrite decide_False; [done | fold len count; lia].
  - intros H. destruct (PcfParser.isCompressedMetrics format) eqn:Hc.
    + rewrite parseMetricsTable_compressed_eq by done.
      pose proof (u16At_range (formatEndianess format) buf (offset + 4)).
      rewrite decide_False; [done | fold len; lia].
    + rewrite parseMetricsTable_default_eq by done.
      pose proof (u32At_range (formatEndianess format) buf (offset + 4)).
      rewrite decide_False; [done | fold len; lia].
  - intros H. rewrite parseBitmapTable_eq by done.
    rewrite decide_False; [done | fold len; lia].
  - intros pcf entry err Hmain Hin Hfail.
    unfold PcfParser.parse. rewrite Hmain. cbn [mbind result_bind].
    case_bool_decide; [by eexists|].
    destruct (parseTables_fails buf _ entry err Hin Hfail pcf) as [err' ->].
    by eexists.
Qed.

Lemma count_past_end_is_fatal_witness :
  PcfParser.parseMetricsTable sampleTruncated 24 0x100 = Err RangeError ∧
  ∃ err, PcfParser.parse sampleTruncated = Err err.
Proof.
  destruct (count_past_end_is_fatal sampleTruncated 24 0x100)
    as (_ & _ & Hmetrics & _ & Hparse).
  - lia.
  - split.
    + apply Hmetrics. vm_compute. reflexivity.
    + destruct (BinaryParser.parse PcfParser.mainParser sampleTruncated)
        as [pcf|] eqn:Hmain; [|vm_compute in Hmain; discriminate].
      apply (Hparse pcf (TocEntry.Build 4 0x100 11 24) RangeError eq_refl).
      * vm_compute in Hmain. injection Hmain as <-. apply list_elem_of_here.
      * right. right. left. split; [reflexivity|].
        apply Hmetrics. vm_compute. reflexivity.
Defined.

(** C6.  A buffer whose first four bytes are not the signature is never
    decoded: [parse] raises after reading the table of contents alone.
    It raises [NotValidPcf] when the table of contents can be read
    and the [RangeError] of that read otherwise; no table decoder is run.
    So a parse that returns has the signature in its first four bytes. *)
Theorem bad_magic_is_fatal (buf : list byte) :
  take 4 buf ≠ PcfParser.PCF_MAGIC →
  PcfParser.parse buf =
    match BinaryParser.parse PcfParser.mainParser buf with
    | Ok _ => Err NotValidPcf
    | Err err => Err err
    end ∧
  (PcfParser.parse buf = Err NotValidPcf ∨ PcfParser.parse buf = Err RangeError) ∧
  (∀ pcf, PcfParser.parse buf ≠ Ok pcf).
Proof.
  intros Hmagic.
  assert (Heq : PcfParser.parse buf =
    match BinaryParser.parse PcfParser.mainParser buf with
    | Ok _ => Err NotValidPcf
    | Err err => Err err
    end).
  { unfold PcfParser.parse. rewrite mainParser_eq.
    case_decide; [|done]. cbn [mbind result_bind Pcf.header].
    by rewrite bool_decide_eq_true_2. }
  split; [exact Heq|].
  rewrite Heq, mainParser_eq. case_decide.
  - split; [by left | done].
  - split; [by right | done].
Qed.

Lemma bad_magic_is_fatal_witness :
  PcfParser.parse sampleBadMagic = Err NotValidPcf ∧
  ∃ pcf, PcfParser.parse sampleFile = Ok pcf.
Proof.
  split.
  - destruct (bad_magic_is_fatal sampleBadMagic) as (H & _).
    + vm_compute. discriminate.
    + rewrite H. vm_compute. reflexivity.
  - eexists. vm_compute. reflexivity.
Defined.

(* ================================================================== *)
(** ** The byte range of a glyph bitmap *)
(* ================================================================== *)

Lemma and_3_range (x : Z) : 0 ≤ JS.and x 3 < 4.
Proof.
  unfold JS.and. replace (JS.ToInt32 3) with (Z.ones 2) by reflexivity.
  rewrite Z.land_ones by lia. apply Z.mod_pos_bound. lia.
Qed.

(** C3, as the code has it.  For a decoded bitmap table and a glyph index
    [i] inside it, the byte range that the accessor slices starts at
    [offsets[i] + bitmapsBaseOffset] and ends at
    [offsets[i+1] + bitmapsBaseOffset] when [i] is not the last glyph and
    at [bitmapSize + bitmapsBaseOffset] when it is.  [bitmapSize] is the
    candidate selected with the low two bits of the format word stored in
    the table itself (its first four bytes), which is the directory's
    format word only when the file repeats it.  For offsets 0, 8, 20 and
    selected size 32 the three ranges are [0,8), [8,20), [20,32), counted
    from [bitmapsBaseOffset]. *)
Theorem glyph_bitmap_range (buf : list byte) (offset format : Z)
    (t : BitmapTable.t) (i : Z) :
  0 ≤ offset →
  PcfParser.parseBitmapTable buf offset format = Ok t →
  0 ≤ i < BitmapTable.glyphCount t →
  let base := BitmapTable.bitmapsBaseOffset t in
  (∃ start stop size,
     JS.index (BitmapTable.offsets t) i = Some start ∧
     BitmapTable.bitmapSize t = Some size ∧
     JS.index (BitmapTable.bitmapSizes t)
       (JS.and (u32At BinaryParser.little buf offset) 3) = Some size ∧
     (if i <? BitmapTable.glyphCount t - 1
      then JS.index (BitmapTable.offsets t) (i + 1) = Some stop
      else stop = size) ∧
     Accessor.glyphBitmapRange t (Some i) =
       (Some (start + base), Some (stop + base)) ∧
     (∀ rawBuffer pcf glyphCode,
        Pcf.bitmapTable pcf = Some t →
        Accessor.glyphIndexOf pcf glyphCode = Ok (Some i) →
        Accessor.getGlyphBitmap rawBuffer pcf glyphCode =
          Ok (JS.slice rawBuffer (Some (start + base)) (Some (stop + base))))) ∧
  base = offset + 8 + 4 * BitmapTable.glyphCount t + 16 ∧
  (∀ tformat sizes b,
     let t3 := BitmapTable.Build tformat 3 [0; 8; 20] sizes (Some 32) b in
     Accessor.glyphBitmapRange t3 (Some 0) = (Some (0 + b), Some (8 + b)) ∧
     Accessor.glyphBitmapRange t3 (Some 1) = (Some (8 + b), Some (20 + b)) ∧
     Accessor.glyphBitmapRange t3 (Some 2) = (Some (20 + b), Some (32 + b))).
Proof.
  intros Hoff Hparse Hi base.
  rewrite parseBitmapTable_eq in Hparse by done. cbv zeta in Hparse.
  set (e := formatEndianess format) in *.
  set (count := u32At e buf (offset + 4)) in *.
  set (tformat := u32At BinaryParser.little buf offset) in *.
  set (sizes := (λ k : nat, u32At e buf (offset + 8 + 4 * count + 4 * Z.of_nat k))
                  <$> seq 0 4) in *.
  set (offsets := (λ k : nat, u32At e buf (offset + 8 + 4 * Z.of_nat k))
                    <$> seq 0 (Z.to_nat count)) in *.
  case_decide as Hfit; [|done]. injection Hparse as <-.
  subst base.
  cbn [BitmapTable.glyphCount BitmapTable.offsets BitmapTable.bitmapSize
       BitmapTable.bitmapSizes BitmapTable.bitmapsBaseOffset] in *.
  split; [|split; [lia | done]].
  pose proof (and_3_range tformat) as Hk.
  destruct (JS.index sizes (JS.and tformat 3)) as [size|] eqn:Hsize;
    [|subst sizes; rewrite index_fmap_seq in Hsize by (simpl; lia); done].
  exists (u32At e buf (offset + 8 + 4 * i)),
    (if i <? count - 1 then u32At e buf (offset + 8 + 4 * (i + 1)) else size),
    size.
  assert (Hstart : JS.index offsets i = Some (u32At e buf (offset + 8 + 4 * i))).
  { subst offsets. rewrite index_fmap_seq by lia. do 2 f_equal. lia. }
  assert (Hstop : (i <? count - 1) = true →
    JS.index offsets (i + 1) = Some (u32At e buf (offset + 8 + 4 * (i + 1)))).
  { intros Hlt%Z.ltb_lt. subst offsets.
    rewrite index_fmap_seq by lia. do 2 f_equal. lia. }
  assert (Hrange :
    Accessor.glyphBitmapRange
      (BitmapTable.Build tformat count offsets sizes (Some size)
         (offset + 4 * 2 + 4 * count + 4 * 4)) (Some i)
    = (Some (u32At e buf (offset + 8 + 4 * i)
             + (offset + 4 * 2 + 4 * count + 4 * 4)),
       Some ((if i <? count - 1
              then u32At e buf (offset + 8 + 4 * (i + 1)) else size)
             + (offset + 4 * 2 + 4 * count + 4 * 4)))).
  { unfold Accessor.glyphBitmapRange, Accessor.at_.
    cbn [BitmapTable.glyphCount BitmapTable.offsets BitmapTable.bitmapSize
         BitmapTable.bitmapsBaseOffset JS.lt JS.add mbind option_bind].
    rewrite Hstart. destruct (i <? count - 1) eqn:Hlt.
    - rewrite Hstop by done. reflexivity.
    - reflexivity. }
  split; [exact Hstart|]. split; [reflexivity|]. split; [reflexivity|].
  split; [destruct (i <? count - 1) eqn:Hlt; [by apply Hstop | done]|].
  split; [exact Hrange|].
  intros rawBuffer pcf glyphCode Ht Hidx.
  unfold Accessor.getGlyphBitmap. rewrite Hidx.
  cbn [mbind result_bind]. rewrite Ht, Hrange. reflexivity.
Qed.

Lemma glyph_bitmap_range_witness :
  ∃ t, PcfParser.parseBitmapTable sampleBitmap3 0 0 = Ok t ∧
       Accessor.glyphBitmapRange t (Some 2) = (Some (20 + 36), Some (32 + 36)).
Proof.
  eexists. split; [vm_compute; reflexivity|].
  edestruct (glyph_bitmap_range sampleBitmap3 0 0 _ 2 (Z.le_refl 0) eq_refl)
    as [(start & stop & size & Hstart & Hsize & _ & Hstop & Hrange & _) _].
  - vm_compute. split; [discriminate | reflexivity].
  - vm_compute in Hstart, Hsize, Hstop.
    injection Hstart as <-. injection Hsize as <-. subst stop.
    exact Hrange.
Defined.

(** C3 as stated fails where the table's own format word differs from
    the directory's: parsed with format word 0, the table below keeps the
    candidate of index 1. *)
Lemma glyph_bitmap_range_counterexample :
  ∃ t, PcfParser.parseBitmapTable sampleBitmapOwnFormat 0 0 = Ok t ∧
       BitmapTable.bitmapSize t ≠ JS.index (BitmapTable.bitmapSizes t) (JS.and 0 3) ∧
       JS.index (BitmapTable.bitmapSizes t) (JS.and 0 3) = Some 32 ∧
       BitmapTable.bitmapSize t = Some 40 ∧
       Accessor.glyphBitmapRange t (Some 2) =
         (Some (20 + BitmapTable.bitmapsBaseOffset t),
          Some (40 + BitmapTable.bitmapsBaseOffset t)).
Proof.
  eexists. split; [vm_compute; reflexivity|].
  split; [vm_compute; discriminate|].
  repeat split; reflexivity.
Qed.

(* ================================================================== *)
(** ** Code points without a glyph *)
(* ================================================================== *)

Section CollectGlyphs.

Variable argv : Argv.t.
Variable gbkDecode : Z → Z → Z.
Variable rawBuffer : list byte.
Variable pcf : Pcf.t.
Variable enc : EncodingTable.t.
Variable mt : MetricsTable.t.
Hypothesis Henc : Pcf.encodingTable pcf = Some enc.
Hypothesis Hnames : is_Some (Pcf.glyphNameTable pcf).
Hypothesis Hmetrics : is_Some (Pcf.metricsTable pcf).
Hypothesis Hbitmaps : is_Some (Pcf.bitmapTable pcf).

Lemma collectGlyph_spec (glyphs : list GlyphInfo.t) (code : Z) :
  ∃ more,
    Converter.collectGlyph argv gbkDecode rawBuffer pcf enc mt glyphs code
      = Ok (glyphs ++ more) ∧
    GlyphInfo.code <$> more =
      (if isEmitted argv gbkDecode enc mt code then [code] else []) ∧
    Forall (λ g, JS.index (EncodingTable.glyphIndeces enc) (GlyphInfo.code g)
                 = Some (GlyphInfo.index g)) more.
Proof.
  unfold Converter.collectGlyph, isEmitted.
  destruct Hnames as [nt Hnt], Hmetrics as [mt' Hmt], Hbitmaps as [bt Hbt].
  destruct (JS.index (EncodingTable.glyphIndeces enc) code) as [index|] eqn:Hidx;
    cbn [JS.ge JS.lt].
  - replace (index >=? 0) with (0 <=? index) by (rewrite Z.geb_leb; done).
    destruct ((0 <=? index) && (index <? MetricsTable.metricsCount mt) &&
              Converter.isAcceptedGlyph argv gbkDecode code).
    + unfold Accessor.getGlyphName, Accessor.getGlyphMetrics,
        Accessor.getGlyphBitmap, Accessor.glyphIndexOf.
      rewrite Henc, Hnt, Hmt, Hbt. cbn [mbind result_bind mret result_ret].
      destruct (Accessor.glyphBitmapRange bt _) as [bitmapOffset bitmapEnd].
      cbn [mbind result_bind mret result_ret].
      eexists. split; [reflexivity|]. split; [reflexivity|].
      constructor; [|constructor]. simpl. by rewrite Hidx.
    + exists []. rewrite app_nil_r. by split.
  - exists []. rewrite app_nil_r. by split.
Qed.

Lemma collectGlyphsFrom_spec (codes : list Z) (glyphs : list GlyphInfo.t) :
  ∃ more,
    Converter.collectGlyphsFrom argv gbkDecode rawBuffer pcf enc mt glyphs codes
      = Ok (glyphs ++ more) ∧
    GlyphInfo.code <$> more = filter (λ code, isEmitted argv gbkDecode enc mt code) codes ∧
    Forall (λ g, JS.index (EncodingTable.glyphIndeces enc) (GlyphInfo.code g)
                 = Some (GlyphInfo.index g)) more.
Proof.
  revert glyphs. induction codes as [|code codes IH]; intros glyphs.
  - exists []. rewrite app_nil_r. by split.
  - cbn [Converter.collectGlyphsFrom].
    destruct (collectGlyph_spec glyphs code) as (m1 & -> & Hc1 & Hi1).
    cbn [mbind result_bind].
    destruct (IH (glyphs ++ m1)) as (m2 & -> & Hc2 & Hi2).
    exists (m1 ++ m2). rewrite app_assoc. split; [done|]. split.
    + rewrite fmap_app, Hc1, Hc2, filter_cons.
      destruct (isEmitted argv gbkDecode enc mt code); reflexivity.
    + by apply Forall_app.
Qed.

End CollectGlyphs.

(** C4, as the code has it.  The first loop of [convert] emits a code
    point exactly when its glyph index lies in [[0, metricsCount)] and the
    filter accepts it; every other code point is left out, no glyph is
    emitted in its place (each emitted glyph carries the index the
    encoding table gives to its own code, [defaultChar] is not read), and
    the code points around it are emitted as they would be without it.
    The value 0xFFFF is left out through the same range test, that is
    whenever [metricsCount] is at most 0xFFFF. *)
Theorem unmapped_code_points_are_skipped (argv : Argv.t) (gbkDecode : Z → Z → Z)
    (rawBuffer : list byte) (pcf : Pcf.t) (enc : EncodingTable.t)
    (mt : MetricsTable.t) :
  Pcf.encodingTable pcf = Some enc →
  Pcf.metricsTable pcf = Some mt →
  is_Some (Pcf.glyphNameTable pcf) →
  is_Some (Pcf.bitmapTable pcf) →
  ∃ glyphs,
    Converter.collectGlyphs argv gbkDecode rawBuffer pcf = Ok glyphs ∧
    GlyphInfo.code <$> glyphs =
      filter (λ code, isEmitted argv gbkDecode enc mt code)
        (seqZ 0 (Z.of_nat (length (EncodingTable.glyphIndeces enc)))) ∧
    (∀ g, g ∈ glyphs →
       JS.index (EncodingTable.glyphIndeces enc) (GlyphInfo.code g)
         = Some (GlyphInfo.index g)) ∧
    (∀ code index,
       JS.index (EncodingTable.glyphIndeces enc) code = Some index →
       ¬ (0 ≤ index < MetricsTable.metricsCount mt) →
       code ∉ GlyphInfo.code <$> glyphs) ∧
    (MetricsTable.metricsCount mt ≤ 0xFFFF →
     ∀ code,
       JS.index (EncodingTable.glyphIndeces enc) code = Some 0xFFFF →
       code ∉ GlyphInfo.code <$> glyphs).
Proof.
  intros Henc Hmt Hnames Hbitmaps.
  unfold Converter.collectGlyphs. rewrite Henc, Hmt.
  destruct (collectGlyphsFrom_spec argv gbkDecode rawBuffer pcf enc mt Henc
              Hnames (mk_is_Some _ _ Hmt) Hbitmaps
              (seqZ 0 (Z.of_nat (length (EncodingTable.glyphIndeces enc)))) [])
    as (glyphs & -> & Hcodes & Hidx).
  exists glyphs. split; [done|]. split; [exact Hcodes|].
  assert (Hout : ∀ code index,
    JS.index (EncodingTable.glyphIndeces enc) code = Some index →
    ¬ (0 ≤ index < MetricsTable.metricsCount mt) →
    code ∉ GlyphInfo.code <$> glyphs).
  { intros code index Hcode Hrange. rewrite Hcodes.
    intros [Hem _]%list_elem_of_filter. unfold isEmitted in Hem.
    rewrite Hcode in Hem.
    apply Is_true_true in Hem.
    apply andb_true_iff in Hem as [Hem _].
    apply andb_true_iff in Hem as [H0 H1].
    apply Z.leb_le in H0. apply Z.ltb_lt in H1. lia. }
  split; [|split].
  - intros g Hg. by eapply Forall_forall in Hidx.
  - exact Hout.
  - intros Hcount code Hcode. eapply Hout; [exact Hcode | lia].
Qed.

Lemma unmapped_code_points_are_skipped_witness :
  ∃ pcf glyphs,
    PcfParser.parse sampleFont = Ok pcf ∧
    (EncodingTable.glyphIndeces <$> Pcf.encodingTable pcf) = Some [0; 1; 0xFFFF] ∧
    Converter.collectGlyphs argvFull (λ _ _, 0) sampleFont pcf = Ok glyphs ∧
    GlyphInfo.code <$> glyphs = [0; 1] ∧
    2 ∉ GlyphInfo.code <$> glyphs.
Proof.
  destruct (PcfParser.parse sampleFont) as [pcf|] eqn:Hparse;
    [|vm_compute in Hparse; discriminate].
  pose proof (unmapped_code_points_are_skipped argvFull (λ _ _, 0) sampleFont pcf)
    as Hskip.
  vm_compute in Hparse. injection Hparse as <-.
  edestruct (Hskip _ _ eq_refl eq_refl)
    as (glyphs & Hglyphs & Hcodes & _ & _ & Hsentinel);
    [by eexists | by eexists |].
  eexists _, glyphs. split; [reflexivity|]. split; [reflexivity|].
  split; [exact Hglyphs|]. split.
  - rewrite Hcodes. vm_compute. reflexivity.
  - apply Hsentinel; [vm_compute; discriminate | reflexivity].
Defined.

(** C4 as stated fails for the value 0xFFFF when the metrics table
    declares more than 0xFFFF entries: the code point is emitted, with
    glyph index 0xFFFF. *)
Lemma unmapped_code_points_are_skipped_counterexample :
  parsedIndexTable sampleManyMetrics = Ok (Some [0xFFFF], Some 65536) ∧
  emittedGlyphs argvFull (λ _ _, 0) sampleManyMetrics = Ok [(0, 0xFFFF)].
Proof.
  split; vm_compute; reflexivity.
Qed.

(* ================================================================== *)
(** ** The code-point filter *)
(* ================================================================== *)

Lemma elem_of_foldl_add (l : list Z) (acc : gset Z) (x : Z) :
  x ∈ foldl (λ ret code, {[code]} ∪ ret) acc l ↔ x ∈ l ∨ x ∈ acc.
Proof.
  revert acc. induction l as [|y l IH]; intros acc; simpl.
  - rewrite elem_of_nil. tauto.
  - rewrite IH, elem_of_cons, elem_of_union, elem_of_singleton. tauto.
Qed.

Lemma elem_of_ASCII_SET (code : Z) :
  code ∈ Converter.ASCII_SET ↔ 0x20 ≤ code ≤ 0xFF.
Proof.
  unfold Converter.ASCII_SET. rewrite elem_of_foldl_add, elem_of_seqZ.
  split; [intros [H|H]; [lia | by apply not_elem_of_empty in H] | intros H; left; lia].
Qed.

(** C8.  [isAcceptedGlyph] is a function of the code point and of the
    selection policy alone: two option records that denote the same policy
    accept the same code points (the sets it consults are constants).
    The Full policy accepts every code point; the AsciiOnly policy accepts
    exactly the code points of [0x20, 0xFF]; the AsciiPlusGb2312 policy
    accepts every code point of [0x20, 0xFF]. *)
Theorem filter_depends_on_policy (argv argv' : Argv.t) (gbkDecode : Z → Z → Z)
    (code : Z) :
  (policyOf argv = policyOf argv' →
   Converter.isAcceptedGlyph argv gbkDecode code =
     Converter.isAcceptedGlyph argv' gbkDecode code) ∧
  (policyOf argv = Full → Converter.isAcceptedGlyph argv gbkDecode code = true) ∧
  (policyOf argv = AsciiOnly →
   Converter.isAcceptedGlyph argv gbkDecode code = bool_decide (0x20 ≤ code ≤ 0xFF)) ∧
  (policyOf argv = AsciiPlusGb2312 →
   Converter.isAcceptedGlyph argv gbkDecode code =
     bool_decide (0x20 ≤ code ≤ 0xFF) ||
     bool_decide (code ∈ Converter.GB2312_SET gbkDecode)) ∧
  (0x20 ≤ code ≤ 0xFF →
   policyOf argv = AsciiOnly ∨ policyOf argv = AsciiPlusGb2312 →
   Converter.isAcceptedGlyph argv gbkDecode code = true).
Proof.
  assert (Hascii : bool_decide (code ∈ Converter.ASCII_SET)
                   = bool_decide (0x20 ≤ code ≤ 0xFF)).
  { apply bool_decide_ext, elem_of_ASCII_SET. }
  unfold policyOf, Converter.isAcceptedGlyph.
  destruct argv as [h shape dry gb], argv' as [h' shape' dry' gb'];
    cbn [Argv.dry_run Argv.gb2312_only].
  rewrite Hascii.
  split; [|split; [|split; [|split]]].
  - destruct dry, gb, dry', gb'; intros Hp; try discriminate Hp; reflexivity.
  - destruct dry, gb; intros Hp; try discriminate Hp; reflexivity.
  - destruct dry, gb; intros Hp; try discriminate Hp; reflexivity.
  - destruct dry, gb; intros Hp; try discriminate Hp; reflexivity.
  - intros Hcode Hpol.
    rewrite (bool_decide_eq_true_2 _ Hcode).
    destruct dry, gb; try reflexivity; destruct Hpol; discriminate.
Qed.

Lemma filter_depends_on_policy_witness :
  Converter.isAcceptedGlyph (Argv.Build 13 square true false) (λ _ _, 0) 0x41 =
    Converter.isAcceptedGlyph (Argv.Build 16 circle true true) (λ _ _, 0) 0x41 ∧
  Converter.isAcceptedGlyph (Argv.Build 13 square false true) (λ _ _, 0) 0x41 = true.
Proof.
  split.
  - destruct (filter_depends_on_policy (Argv.Build 13 square true false)
                (Argv.Build 16 circle true true) (λ _ _, 0) 0x41) as (H & _).
    exact (H eq_refl).
  - destruct (filter_depends_on_policy (Argv.Build 13 square false true)
                (Argv.Build 13 square false true) (λ _ _, 0) 0x41)
      as (_ & _ & _ & _ & H).
    apply H; [lia | right; reflexivity].
Defined.

(* ================================================================== *)
(** ** Unpacking a bitmap into scanlines *)
(* ================================================================== *)

Lemma byteToBinaryString_Some (b : byte) :
  Converter.byteToBinaryString (Some b) =
    (λ k : nat, if Z.testbit (Z_of_byte b) (7 - Z.of_nat k)
                then Converter.BLACK_PIXEL else Converter.WHITE_PIXEL)
      <$> seq 0 8.
Proof. destruct b; vm_compute; reflexivity. Qed.

Lemma byteToBinaryString_length (ob : option byte) :
  length (Converter.byteToBinaryString ob) = 8%nat.
Proof.
  destruct ob as [b|]; [|reflexivity].
  rewrite byteToBinaryString_Some, length_fmap, length_seq. done.
Qed.

Lemma byteToBinaryString_black (ob : option byte) (k : nat) :
  Converter.byteToBinaryString ob !! k = Some Converter.BLACK_PIXEL →
  ∃ b, ob = Some b ∧ (k < 8)%nat ∧ Z.testbit (Z_of_byte b) (7 - Z.of_nat k) = true.
Proof.
  destruct ob as [b|].
  - rewrite byteToBinaryString_Some. intros Hk.
    apply list_lookup_fmap_Some in Hk as (i & Hc & Hi).
    apply lookup_seq in Hi as [-> Hlt]. simpl in Hc.
    exists b. split; [done|]. split; [done|].
    destruct (Z.testbit (Z_of_byte b) (7 - Z.of_nat k)); [done | discriminate].
  - intros Hk. exfalso.
    do 8 (destruct k as [|k]; [vm_compute in Hk; discriminate|]).
    vm_compute in Hk. discriminate.
Qed.

Lemma binaryLine_eq (bitmap : list byte) (width i : Z) :
  Converter.binaryLine bitmap width i =
    JS.slice
      (mjoin ((λ j : nat, Converter.byteToBinaryString
                            (JS.index bitmap (i + Z.of_nat j))) <$> seq 0 4))
      (Some 0) (Some width).
Proof.
  unfold Converter.binaryLine. f_equal.
  change (seqZ 0 Converter.BYTES_PER_LINE) with [0; 1; 2; 3].
  change (seq 0 4) with [0; 1; 2; 3]%nat.
  cbn [foldl fmap list_fmap mjoin list_join Z.of_nat Pos.of_succ_nat Pos.succ].
  rewrite app_nil_r, app_nil_l, <- !app_assoc. reflexivity.
Qed.

Lemma slice_from_0_lookup {A : Type} (l : list A) (stop : option Z) (k : nat) (a : A) :
  JS.slice l (Some 0) stop !! k = Some a → l !! k = Some a.
Proof.
  unfold JS.slice. cbn [JS.sliceIndex Z.ltb Z.compare].
  rewrite Z.min_l by lia. cbn [Z.to_nat drop].
  intros H%lookup_take_Some. tauto.
Qed.

Lemma binaryLinesFrom_eq (bitmap : list byte) (width : Z) (fuel : nat) :
  ∀ (i : Z) (lines : list (list ascii)),
    let len := Z.of_nat (length bitmap) in
    (len - i + 3) / 4 ≤ Z.of_nat fuel →
    Converter.binaryLinesFrom fuel bitmap width i lines =
      lines ++ ((λ k : nat, Converter.binaryLine bitmap width (i + 4 * Z.of_nat k))
                  <$> seq 0 (Z.to_nat ((len - i + 3) / 4))).
Proof.
  induction fuel as [|fuel IH]; intros i lines len Hfuel.
  - replace (Z.to_nat ((len - i + 3) / 4)) with 0%nat by lia.
    simpl. by rewrite app_nil_r.
  - cbn [Converter.binaryLinesFrom]. fold len.
    destruct (Z.ltb_spec i len) as [Hlt|Hge].
    + assert (Hrows : (len - i + 3) / 4 = (len - (i + 4) + 3) / 4 + 1).
      { replace (len - i + 3) with ((len - (i + 4) + 3) + 1 * 4) by lia.
        rewrite Z.div_add by lia. lia. }
      assert (0 ≤ (len - (i + 4) + 3) / 4) by (apply Z.div_pos; lia).
      unfold Converter.BYTES_PER_LINE.
      rewrite IH by (fold len; lia). fold len.
      rewrite Hrows, Z2Nat.inj_add, Nat.add_1_r by lia.
      cbn [seq fmap list_fmap]. rewrite <- app_assoc. f_equal.
      cbn [app]. f_equal; [f_equal; lia|].
      rewrite <- fmap_S_seq, <- list_fmap_compose.
      apply list_fmap_ext. intros _ k _. simpl. f_equal. lia.
    + assert ((len - i + 3) / 4 ≤ 0).
      { apply Z.lt_succ_r. apply Z.div_lt_upper_bound; lia. }
      replace (Z.to_nat ((len - i + 3) / 4)) with 0%nat by lia.
      simpl. by rewrite app_nil_r.
Qed.

(** C10.  Unpacking a glyph bitmap is total and yields one line per
    started group of four bytes, that is ceil(length / 4) lines: a
    trailing group of fewer than four bytes still gives a line, and the
    loop ends by its own test (any larger bound on the number of turns
    gives the same lines).  Every black pixel of a line comes from a set
    bit of a byte inside the buffer: the pixel in column [x] of line [y]
    is bit [7 - x mod 8] of byte [4 y + x / 8], so positions past the end
    of the buffer give no black pixel. *)
Theorem bitmap_lines_total (bitmap : list byte) (width : Z) :
  let len := Z.of_nat (length bitmap) in
  let lines := Converter.bitmapToBinaryLines bitmap width in
  Z.of_nat (length lines) = (len + 3) / 4 ∧
  (len mod 4 ≠ 0 → Z.of_nat (length lines) = len / 4 + 1) ∧
  (∀ fuel : nat,
     (len + 3) / 4 ≤ Z.of_nat fuel →
     Converter.binaryLinesFrom fuel bitmap width 0 [] = lines) ∧
  (∀ (y x : Z) (line : list ascii),
     JS.index lines y = Some line →
     JS.index line x = Some Converter.BLACK_PIXEL →
     0 ≤ x < 32 ∧
     4 * y + x / 8 < len ∧
     Z.testbit (byteAt bitmap (4 * y + x / 8)) (7 - x mod 8) = true).
Proof.
  intros len lines.
  assert (Hlen4 : (len + 3) / 4 ≤ len).
  { apply Z.lt_succ_r, Z.div_lt_upper_bound; lia. }
  assert (Hlines : lines =
    (λ k : nat, Converter.binaryLine bitmap width (0 + 4 * Z.of_nat k))
      <$> seq 0 (Z.to_nat ((len + 3) / 4))).
  { subst lines. unfold Converter.bitmapToBinaryLines.
    rewrite binaryLinesFrom_eq by (rewrite Z.sub_0_r; fold len; lia).
    rewrite Z.sub_0_r. reflexivity. }
  assert (Hrows : 0 ≤ (len + 3) / 4) by (apply Z.div_pos; lia).
  split; [|split; [|split]].
  - rewrite Hlines, length_fmap, length_seq. lia.
  - intros Hmod. rewrite Hlines, length_fmap, length_seq.
    rewrite Z2Nat.id by done.
    pose proof (Z.div_mod len 4 ltac:(lia)) as Hdm.
    pose proof (Z.mod_pos_bound len 4 ltac:(lia)) as Hmb.
    symmetry. apply Z.div_unique with (r := len mod 4 - 1); lia.
  - intros fuel Hfuel.
    rewrite binaryLinesFrom_eq by (rewrite Z.sub_0_r; fold len; lia).
    rewrite Z.sub_0_r. fold len. rewrite Hlines. reflexivity.
  - intros y x line Hy Hx.
    rewrite Hlines in Hy.
    apply index_Some in Hy as [Hy0 Hy].
    apply list_lookup_fmap_Some in Hy as (k & -> & Hk).
    apply lookup_seq in Hk as [-> Hk]. simpl in Hk.
    apply index_Some in Hx as [Hx0 Hx].
    rewrite binaryLine_eq in Hx.
    apply slice_from_0_lookup in Hx.
    apply (join_lookup_Some_same_length 8) in Hx;
      [|apply Forall_fmap, Forall_forall; intros j _;
        apply byteToBinaryString_length].
    destruct Hx as (j & chunk & i' & Hchunk & Hpix & Hpos).
    apply list_lookup_fmap_Some in Hchunk as (j' & -> & Hj).
    apply lookup_seq in Hj as [-> Hj]. simpl in Hj.
    apply byteToBinaryString_black in Hpix as (b & Hb & Hi' & Hbit).
    assert (Hxz : x = 8 * Z.of_nat j + Z.of_nat i') by lia.
    assert (Hdiv : x / 8 = Z.of_nat j).
    { symmetry. apply Z.div_unique with (r := Z.of_nat i'); lia. }
    assert (Hmod : x mod 8 = Z.of_nat i').
    { symmetry. apply Z.mod_unique with (q := Z.of_nat j); lia. }
    rewrite Hdiv, Hmod.
    assert (Hat : 0 + 4 * Z.of_nat (0 + Z.to_nat y) + Z.of_nat (0 + j)
                  = 4 * y + Z.of_nat j) by lia.
    rewrite Hat in Hb.
    split; [lia|].
    pose proof Hb as Hb'. apply index_Some in Hb' as [_ Hlook].
    apply lookup_lt_Some in Hlook.
    split; [subst len; lia|].
    unfold byteAt. rewrite Hb. exact Hbit.
Qed.

Lemma bitmap_lines_total_witness :
  length (Converter.bitmapToBinaryLines (bytes [0xA8; 0; 0; 0; 0x50]) 5) = 2%nat ∧
  ∀ x line,
    JS.index (Converter.bitmapToBinaryLines (bytes [0xA8; 0; 0; 0; 0x50]) 5) 1
      = Some line →
    JS.index line x = Some Converter.BLACK_PIXEL →
    4 * 1 + x / 8 < 5.
Proof.
  pose proof (bitmap_lines_total (bytes [0xA8; 0; 0; 0; 0x50]) 5)
    as (Hrows & Hpartial & _ & Hblack).
  split.
  - apply Nat2Z.inj. rewrite Hpartial; [reflexivity | discriminate].
  - intros x line Hline Hx.
    destruct (Hblack 1 x line Hline Hx) as (_ & Hin & _). exact Hin.
Defined.

(* ================================================================== *)
(** ** The dots of a glyph *)
(* ================================================================== *)

Section Vectorize.

Variable argv : Argv.t.

Lemma vectorizeLine_eq (xOffset yOffset glyphTop : Q) (y : Z) (line : list ascii)
    (path : list command) :
  Converter.vectorizeLine argv xOffset yOffset glyphTop path y line =
    foldl (Converter.drawDot argv) path
      ((λ '(x, y), Converter.dotCorners argv xOffset yOffset glyphTop x y)
         <$> linePixels y line).
Proof.
  unfold Converter.vectorizeLine, linePixels.
  generalize (zip (seqZ 0 (Z.of_nat (length line))) line) as l.
  intros l. revert path. induction l as [|[x ch] l IH]; intros path.
  - reflexivity.
  - cbn [foldl omap list_omap]. rewrite IH.
    destruct (Ascii.eqb ch Converter.BLACK_PIXEL); reflexivity.
Qed.

Lemma vectorizeLines_eq (xOffset yOffset glyphTop : Q)
    (l : list (Z * list ascii)) (path : list command) :
  foldl (λ path '(y, line),
           Converter.vectorizeLine argv xOffset yOffset glyphTop path y line)
    path l =
  foldl (Converter.drawDot argv) path
    ((λ '(x, y), Converter.dotCorners argv xOffset yOffset glyphTop x y)
       <$> (l ≫= (λ '(y, line), linePixels y line))).
Proof.
  revert path. induction l as [|[y line] l IH]; intros path.
  - reflexivity.
  - cbn [foldl mbind list_bind]. rewrite IH, vectorizeLine_eq.
    rewrite fmap_app, foldl_app. reflexivity.
Qed.

Lemma vectorizeGlyph_eq (glyphInfo : GlyphInfo.t) (metrics : MetricsEntry.t) :
  GlyphInfo.metrics glyphInfo = Some metrics →
  Converter.vectorizeGlyph argv glyphInfo =
    Ok (Glyph.Build (GlyphInfo.name glyphInfo) (GlyphInfo.code glyphInfo)
          (inject_Z (MetricsEntry.characterWidth metrics)
           * Converter.PIXEL_SIZE argv)%Q
          (foldl (Converter.drawDot argv) []
             (glyphDots argv metrics (GlyphInfo.bitmap glyphInfo)) ++ [Zc])).
Proof.
  intros Hm. unfold Converter.vectorizeGlyph. rewrite Hm.
  cbv zeta. rewrite vectorizeLines_eq. reflexivity.
Qed.

Lemma dotCorners_eq (xOffset yOffset glyphTop : Q) (x y : Z) :
  Converter.dotCorners argv xOffset yOffset glyphTop x y =
    (inject_Z (Converter.Math_round
       (xOffset + inject_Z x * Converter.PIXEL_SIZE argv
        + Converter.PIXEL_PADDING argv)),
     inject_Z (Converter.Math_round
       (glyphTop - (yOffset + inject_Z y * Converter.PIXEL_SIZE argv
                    + Converter.PIXEL_PADDING argv))),
     inject_Z (Converter.Math_round
       (xOffset + (inject_Z x + 1) * Converter.PIXEL_SIZE argv
        - Converter.PIXEL_PADDING argv)),
     inject_Z (Converter.Math_round
       (glyphTop - (yOffset + (inject_Z y + 1) * Converter.PIXEL_SIZE argv
                    - Converter.PIXEL_PADDING argv))))%Q.
Proof. reflexivity. Qed.

Lemma squarePath_integer (dots : list (Q * Q * Q * Q)) (path : list command) :
  Argv.dot_shape argv = square →
  Forall (λ '(l, t, r, b),
            is_integer l ∧ is_integer t ∧ is_integer r ∧ is_integer b) dots →
  Forall (λ c, Forall (λ p, is_integer p.1 ∧ is_integer p.2) (commandPoints c)) path →
  Forall (λ c, Forall (λ p, is_integer p.1 ∧ is_integer p.2) (commandPoints c))
    (foldl (Converter.drawDot argv) path dots).
Proof.
  intros Hshape Hdots. revert path.
  induction Hdots as [|[[[l t] r] b] dots (Hl & Ht & Hr & Hb) _ IH]; intros path Hpath.
  - exact Hpath.
  - cbn [foldl]. apply IH.
    unfold Converter.drawDot. rewrite Hshape. unfold Converter.drawSquareDot.
    apply Forall_app. split; [exact Hpath|].
    repeat (constructor; [repeat constructor; assumption|]). constructor.
Qed.

End Vectorize.

Lemma Math_round_nearest (v : Q) :
  (inject_Z (Converter.Math_round v) <= v + (1 # 2))%Q ∧
  (v + (1 # 2) < inject_Z (Converter.Math_round v) + 1)%Q.
Proof.
  unfold Converter.Math_round. split.
  - apply Qfloor_le.
  - pose proof (Qlt_floor (v + (1 # 2))) as H.
    rewrite inject_Z_plus in H. exact H.
Qed.

Lemma pixel_height_nonzero (argv : Argv.t) :
  1 ≤ Argv.glyph_size_in_pixel argv →
  ¬ (inject_Z (Argv.glyph_size_in_pixel argv) == 0)%Q.
Proof.
  intros Hh. change 0%Q with (inject_Z 0). rewrite inject_Z_injective. lia.
Qed.

(** A number of ninths of the pixel size, one ninth away from a whole
    number of pixels, is neither an integer nor the half of one. *)
Lemma ninth_not_half_integer (h n s j : Z) :
  1 ≤ h → s = 1 ∨ s = -1 →
  ¬ (inject_Z (1000 * (9 * n + s)) / inject_Z (9 * h) == inject_Z j / 2)%Q.
Proof.
  intros Hh Hs Heq.
  assert (Hb : ¬ (inject_Z (9 * h) == 0)%Q).
  { change 0%Q with (inject_Z 0). rewrite inject_Z_injective. lia. }
  assert (Hcross : (inject_Z (1000 * (9 * n + s)) * 2 == inject_Z j * inject_Z (9 * h))%Q).
  { transitivity (inject_Z (1000 * (9 * n + s)) / inject_Z (9 * h)
                  * inject_Z (9 * h) * 2)%Q; [field; exact Hb|].
    rewrite Heq. field. }
  change 2%Q with (inject_Z 2) in Hcross.
  rewrite <- !inject_Z_mult, inject_Z_injective in Hcross.
  destruct Hs as [-> | ->]; lia.
Qed.

Lemma roundedFrom_Math_round (v : Q) (h n s : Z) :
  1 ≤ h → s = 1 ∨ s = -1 →
  (v == inject_Z (1000 * (9 * n + s)) / inject_Z (9 * h))%Q →
  roundedFrom v (inject_Z (Converter.Math_round v)).
Proof.
  intros Hh Hs Hv.
  destruct (Math_round_nearest v) as [Hlow Hhigh].
  set (k := Converter.Math_round v) in *.
  exists k. split; [reflexivity|].
  assert (Hfree : ∀ j : Z, ¬ (v == inject_Z j / 2)%Q).
  { intros j Hj. rewrite Hv in Hj. by apply ninth_not_half_integer in Hj. }
  split; [|split].
  - destruct (Qlt_le_dec (inject_Z k - (1 # 2)) v) as [Hlt|Hge]; [exact Hlt|].
    exfalso. apply (Hfree (2 * k - 1)).
    unfold Zminus. rewrite inject_Z_plus, inject_Z_mult, inject_Z_opp.
    change (inject_Z 2) with 2%Q. change (inject_Z 1) with 1%Q.
    unfold Qdiv. change (/ 2)%Q with (1 # 2)%Q. lra.
  - lra.
  - intros Heq. apply (Hfree (2 * k)).
    rewrite inject_Z_mult. change (inject_Z 2) with 2%Q.
    unfold Qdiv. change (/ 2)%Q with (1 # 2)%Q. lra.
Qed.

Lemma roundedFrom_proper (v v' corner : Q) :
  (v == v')%Q → roundedFrom v' corner → roundedFrom v corner.
Proof.
  intros Hv (n & -> & Hlow & Hhigh & Hne).
  exists n. split; [reflexivity|]. split; [lra|]. split; [lra|].
  intros Heq. apply Hne. lra.
Qed.

Section PaddedCorners.

Variable argv : Argv.t.
Variable metrics : MetricsEntry.t.
Hypothesis height_positive : 1 ≤ Argv.glyph_size_in_pixel argv.

Let h := Argv.glyph_size_in_pixel argv.
Let bearing := MetricsEntry.leftSidedBearing metrics.
Let ascent := MetricsEntry.characterAscent metrics.
Let pad := Converter.PIXEL_PADDING argv.

Lemma padded_corners_in_ninths (x y : Z) :
  (cellLeft argv metrics x + pad
     == inject_Z (1000 * (9 * (bearing + x) + 1)) / inject_Z (9 * h))%Q ∧
  (cellRight argv metrics x - pad
     == inject_Z (1000 * (9 * (bearing + x + 1) + -1)) / inject_Z (9 * h))%Q ∧
  (cellTop argv metrics y - pad
     == inject_Z (1000 * (9 * (ascent - y - 1) + -1)) / inject_Z (9 * h))%Q ∧
  (cellBottom argv metrics y + pad
     == inject_Z (1000 * (9 * (ascent - y - 2) + 1)) / inject_Z (9 * h))%Q.
Proof.
  pose proof (pixel_height_nonzero argv height_positive) as Hh0.
  unfold pad, cellLeft, cellRight, cellTop, cellBottom, xOffsetOf, yOffsetOf,
    glyphTopOf, Converter.PIXEL_PADDING, Converter.DESCENDER_HEIGHT,
    Converter.DEFAULT_ASCENT_IN_PIXELS, Converter.PIXEL_SIZE,
    Converter.UNITS_PER_EM, Converter.PIXEL_HEIGHT.
  fold h bearing ascent.
  unfold Zminus.
  rewrite !inject_Z_mult, !inject_Z_plus, !inject_Z_mult, !inject_Z_plus,
    !inject_Z_opp.
  change (inject_Z 1000) with 1000%Q. change (inject_Z 9) with 9%Q.
  change (inject_Z 1) with 1%Q. change (inject_Z 2) with 2%Q.
  change (inject_Z (-1)) with (-1)%Q.
  repeat split; field; exact Hh0.
Qed.

Lemma dotCorners_rounded (x y : Z) :
  let '(left_, top_, right_, bottom_) :=
    Converter.dotCorners argv (xOffsetOf argv metrics) (yOffsetOf argv metrics)
      (glyphTopOf argv) x y in
  roundedFrom (cellLeft argv metrics x + pad) left_ ∧
  roundedFrom (cellTop argv metrics y - pad) top_ ∧
  roundedFrom (cellRight argv metrics x - pad) right_ ∧
  roundedFrom (cellBottom argv metrics y + pad) bottom_.
Proof.
  destruct (padded_corners_in_ninths x y) as (Hl & Hr & Ht & Hb).
  rewrite dotCorners_eq. fold pad.
  split; [|split; [|split]].
  - eapply roundedFrom_proper;
      [|eapply (roundedFrom_Math_round _ h _ 1); [exact height_positive | by left|]].
    + reflexivity.
    + exact Hl.
  - eapply roundedFrom_proper;
      [|eapply (roundedFrom_Math_round _ h _ (-1)); [exact height_positive | by right|]].
    + unfold cellTop. lra.
    + rewrite <- Ht. unfold cellTop. lra.
  - eapply roundedFrom_proper;
      [|eapply (roundedFrom_Math_round _ h _ (-1)); [exact height_positive | by right|]].
    + reflexivity.
    + exact Hr.
  - eapply roundedFrom_proper;
      [|eapply (roundedFrom_Math_round _ h _ 1); [exact height_positive | by left|]].
    + unfold cellBottom. lra.
    + rewrite <- Hb. unfold cellBottom. lra.
Qed.

End PaddedCorners.

Lemma dotCorners_roundedCorners (argv : Argv.t) (metrics : MetricsEntry.t)
    (x y : Z) :
  1 ≤ Argv.glyph_size_in_pixel argv →
  roundedCorners argv metrics (x, y)
    (Converter.dotCorners argv (xOffsetOf argv metrics) (yOffsetOf argv metrics)
       (glyphTopOf argv) x y).
Proof.
  intros Hh.
  pose proof (dotCorners_rounded argv metrics Hh x y) as Hrounded.
  rewrite dotCorners_eq in Hrounded |- *.
  unfold roundedCorners, screenCorners. cbv zeta.
  split; [reflexivity|]. split; [reflexivity|]. exact Hrounded.
Qed.

(** C9.  For a pixel height of at least 1, and every black pixel of a
    glyph, taken in scanning order: the corners handed to the drawing
    function are the values [ScreenXyToFontXy] returns on the two padded
    corners of the pixel in screen coordinates, and they are rounded, not
    the exact pair: [left], [top], [right] and [bottom] are integers, each
    less than 1/2 away from the exact padded corner of the cell of the
    pixel in font coordinates (cell edge plus or minus the padding
    [PIXEL_SIZE / 9]), which is itself never an integer and never half-way
    between two integers.  The outline is these dots drawn in order, and
    with square dots every coordinate of the outline is an integer. *)
Theorem corners_are_integers (argv : Argv.t) (glyphInfo : GlyphInfo.t)
    (metrics : MetricsEntry.t) :
  1 ≤ Argv.glyph_size_in_pixel argv →
  GlyphInfo.metrics glyphInfo = Some metrics →
  let lines :=
    Converter.bitmapToBinaryLines (GlyphInfo.bitmap glyphInfo)
      (MetricsEntry.characterWidth metrics) in
  let dots := glyphDots argv metrics (GlyphInfo.bitmap glyphInfo) in
  Forall2 (roundedCorners argv metrics) (setPixels lines) dots ∧
  Forall (λ '(l, t, r, b),
            is_integer l ∧ is_integer t ∧ is_integer r ∧ is_integer b) dots ∧
  ∃ glyph,
    Converter.vectorizeGlyph argv glyphInfo = Ok glyph ∧
    Glyph.path glyph = foldl (Converter.drawDot argv) [] dots ++ [Zc] ∧
    (Argv.dot_shape argv = square →
     Forall (λ c, Forall (λ p, is_integer p.1 ∧ is_integer p.2) (commandPoints c))
       (Glyph.path glyph)).
Proof.
  intros Hh Hm lines dots.
  assert (Hrounded : Forall2 (roundedCorners argv metrics) (setPixels lines) dots).
  { subst dots. unfold glyphDots. fold lines.
    apply Forall2_fmap_r, Forall_Forall2_diag, Forall_forall.
    intros [x y] _. by apply dotCorners_roundedCorners. }
  assert (Hdots : Forall (λ '(l, t, r, b),
            is_integer l ∧ is_integer t ∧ is_integer r ∧ is_integer b) dots).
  { clear Hm. induction Hrounded as [|[x y] [[[l t] r] b] pixels dots' Hc _ IH];
      constructor; [|exact IH].
    unfold roundedCorners in Hc. cbv zeta in Hc.
    destruct (screenCorners argv metrics x y) as [[x1 y1] [x2 y2]].
    destruct Hc as (_ & _ & (nl & -> & _) & (nt & -> & _) & (nr & -> & _)
                    & (nb & -> & _)).
    repeat split; eexists; reflexivity. }
  split; [exact Hrounded|]. split; [exact Hdots|].
  eexists. split; [apply vectorizeGlyph_eq, Hm|].
  cbn [Glyph.path]. split; [reflexivity|].
  intros Hshape. apply Forall_app. split.
  - apply squarePath_integer; [exact Hshape | exact Hdots | constructor].
  - repeat constructor.
Qed.

Lemma corners_are_integers_witness :
  glyphDots argvFull (MetricsEntry.Build 0 1 1 11 0 0) (bytes [0x80; 0; 0; 0])
    = [(9, 761, 68, 701)%Q] ∧
  Forall2 (roundedCorners argvFull (MetricsEntry.Build 0 1 1 11 0 0))
    [(0, 0)] [(9, 761, 68, 701)%Q] ∧
  ∃ glyph,
    Converter.vectorizeGlyph argvFull (onePixelGlyph (MetricsEntry.Build 0 1 1 11 0 0))
      = Ok glyph ∧
    Forall (λ c, Forall (λ p, is_integer p.1 ∧ is_integer p.2) (commandPoints c))
      (Glyph.path glyph).
Proof.
  destruct (corners_are_integers argvFull
              (onePixelGlyph (MetricsEntry.Build 0 1 1 11 0 0))
              (MetricsEntry.Build 0 1 1 11 0 0) ltac:(cbn; lia) eq_refl)
    as (Hrounded & _ & glyph & Hglyph & _ & Hint).
  split; [vm_compute; reflexivity|]. split; [exact Hrounded|].
  exists glyph. split; [exact Hglyph | exact (Hint eq_refl)].
Defined.

(* ================================================================== *)
(** ** A single pixel *)
(* ================================================================== *)

Lemma pixel_size_lower_bound (argv : Argv.t) :
  1 ≤ Argv.glyph_size_in_pixel argv ≤ 222 →
  (9 # 2 < Converter.PIXEL_SIZE argv)%Q.
Proof.
  intros Hh.
  unfold Converter.PIXEL_SIZE, Converter.UNITS_PER_EM, Converter.PIXEL_HEIGHT.
  apply Qlt_shift_div_l.
  - change 0%Q with (inject_Z 0). rewrite <- Zlt_Qlt. lia.
  - unfold Qlt, Qmult, inject_Z. cbn [Qnum Qden]. lia.
Qed.

(** C7, as the code has it.  For a pixel height from 1 to 222, where
    the padding [pixelSize / 9] exceeds the half unit that rounding can
    move a corner, the glyph made of the single black pixel of line 0,
    column 0 (width 1) is vectorized, for each of the three dot shapes,
    into exactly one closed sub-path followed by the closing command, and
    every point of that sub-path lies strictly inside the nominal cell
    of the pixel.  The four corners of the dot are the padded corners of
    the cell rounded to integers, so each is within half a unit of the
    padded corner. *)
Theorem one_pixel_dot_inside_cell (argv : Argv.t) (metrics : MetricsEntry.t) :
  1 ≤ Argv.glyph_size_in_pixel argv ≤ 222 →
  MetricsEntry.characterWidth metrics = 1 →
  onePixelInsideCell argv metrics ∧
  glyphDots argv metrics (bytes [0x80; 0; 0; 0]) =
    [Converter.dotCorners argv (xOffsetOf argv metrics) (yOffsetOf argv metrics)
       (glyphTopOf argv) 0 0] ∧
  ∀ l t r b,
    Converter.dotCorners argv (xOffsetOf argv metrics) (yOffsetOf argv metrics)
      (glyphTopOf argv) 0 0 = (l, t, r, b) →
    let pad := Converter.PIXEL_PADDING argv in
    (cellLeft argv metrics 0 + pad - (1 # 2) < l)%Q ∧
    (l <= cellLeft argv metrics 0 + pad + (1 # 2))%Q ∧
    (cellRight argv metrics 0 - pad - (1 # 2) < r)%Q ∧
    (r <= cellRight argv metrics 0 - pad + (1 # 2))%Q ∧
    (cellTop argv metrics 0 - pad - (1 # 2) < t)%Q ∧
    (t <= cellTop argv metrics 0 - pad + (1 # 2))%Q ∧
    (cellBottom argv metrics 0 + pad - (1 # 2) < b)%Q ∧
    (b <= cellBottom argv metrics 0 + pad + (1 # 2))%Q.
Proof.
  intros Hh Hw.
  pose proof (pixel_size_lower_bound argv Hh) as HP.
  assert (Hdots : glyphDots argv metrics (bytes [0x80; 0; 0; 0]) =
    [Converter.dotCorners argv (xOffsetOf argv metrics) (yOffsetOf argv metrics)
       (glyphTopOf argv) 0 0]).
  { unfold glyphDots. rewrite Hw.
    replace (setPixels (Converter.bitmapToBinaryLines (bytes [128; 0; 0; 0]) 1))
      with [(0, 0)] by (vm_compute; reflexivity).
    reflexivity. }
  assert (Hcorners : ∀ l t r b,
    Converter.dotCorners argv (xOffsetOf argv metrics) (yOffsetOf argv metrics)
      (glyphTopOf argv) 0 0 = (l, t, r, b) →
    (cellLeft argv metrics 0 + Converter.PIXEL_PADDING argv - (1 # 2) < l)%Q ∧
    (l <= cellLeft argv metrics 0 + Converter.PIXEL_PADDING argv + (1 # 2))%Q ∧
    (cellRight argv metrics 0 - Converter.PIXEL_PADDING argv - (1 # 2) < r)%Q ∧
    (r <= cellRight argv metrics 0 - Converter.PIXEL_PADDING argv + (1 # 2))%Q ∧
    (cellTop argv metrics 0 - Converter.PIXEL_PADDING argv - (1 # 2) < t)%Q ∧
    (t <= cellTop argv metrics 0 - Converter.PIXEL_PADDING argv + (1 # 2))%Q ∧
    (cellBottom argv metrics 0 + Converter.PIXEL_PADDING argv - (1 # 2) < b)%Q ∧
    (b <= cellBottom argv metrics 0 + Converter.PIXEL_PADDING argv + (1 # 2))%Q).
  { intros l t r b. rewrite dotCorners_eq. intros [= <- <- <- <-].
    unfold cellLeft, cellRight, cellTop, cellBottom.
    set (xo := xOffsetOf argv metrics). set (yo := yOffsetOf argv metrics).
    set (gt := glyphTopOf argv). set (P := Converter.PIXEL_SIZE argv).
    set (pad := Converter.PIXEL_PADDING argv).
    destruct (Math_round_nearest (xo + inject_Z 0 * P + pad)) as [H1 H2].
    destruct (Math_round_nearest (gt - (yo + inject_Z 0 * P + pad))) as [H3 H4].
    destruct (Math_round_nearest (xo + (inject_Z 0 + 1) * P - pad)) as [H5 H6].
    destruct (Math_round_nearest (gt - (yo + (inject_Z 0 + 1) * P - pad))) as [H7 H8].
    change (inject_Z 0) with 0%Q in *.
    repeat split; lra. }
  split; [|split; [exact Hdots | exact Hcorners]].
  unfold onePixelInsideCell.
  rewrite (vectorizeGlyph_eq argv (onePixelGlyph metrics) metrics eq_refl).
  cbn [fmap result_fmap Glyph.path onePixelGlyph GlyphInfo.bitmap].
  rewrite Hdots. cbn [foldl].
  destruct (Converter.dotCorners argv (xOffsetOf argv metrics)
              (yOffsetOf argv metrics) (glyphTopOf argv) 0 0)
    as [[[l t] r] b] eqn:Hc.
  destruct (Hcorners l t r b eq_refl) as (L1 & L2 & R1 & R2 & T1 & T2 & B1 & B2).
  exists (Converter.drawDot argv [] (l, t, r, b)). split; [reflexivity|].
  unfold strictlyInside, cellLeft, cellRight, cellTop, cellBottom in *.
  unfold Converter.PIXEL_PADDING in *.
  set (xo := xOffsetOf argv metrics) in *. set (yo := yOffsetOf argv metrics) in *.
  set (gt := glyphTopOf argv) in *. set (P := Converter.PIXEL_SIZE argv) in *.
  clearbody xo yo gt P. clear Hc Hcorners Hdots.
  change (inject_Z 0) with 0%Q in *.
  unfold Qdiv in *. change (/ 9)%Q with (1 # 9)%Q in *.
  unfold Converter.drawDot.
  destruct (Argv.dot_shape argv).
  - unfold Converter.drawSquareDot. cbn [app]. split.
    + eexists _, _, _. split; [reflexivity|]. split; [repeat constructor | reflexivity].
    + repeat (constructor; [repeat constructor; cbn [fst snd]; lra|]). constructor.
  - unfold Converter.drawCircleDot. cbn [app]. split.
    + eexists _, _, _. split; [reflexivity|]. split; [repeat constructor | reflexivity].
    + unfold Qdiv. change (/ 2)%Q with (1 # 2)%Q.
      repeat (constructor; [repeat constructor; cbn [fst snd]; lra|]). constructor.
  - unfold Converter.drawDiamondDot. cbn [app]. split.
    + eexists _, _, _. split; [reflexivity|]. split; [repeat constructor | reflexivity].
    + unfold Qdiv. change (/ 2)%Q with (1 # 2)%Q.
      repeat (constructor; [repeat constructor; cbn [fst snd]; lra|]). constructor.
Qed.

Lemma one_pixel_dot_inside_cell_witness :
  onePixelInsideCell argvFull (MetricsEntry.Build 0 1 1 11 0 0) ∧
  Glyph.path <$> Converter.vectorizeGlyph argvFull
                   (onePixelGlyph (MetricsEntry.Build 0 1 1 11 0 0))
    = Ok [M 9 761; L 9 701; L 68 701; L 68 761; L 9 761; Zc].
Proof.
  split.
  - apply (one_pixel_dot_inside_cell argvFull (MetricsEntry.Build 0 1 1 11 0 0)).
    + vm_compute. split; discriminate.
    + reflexivity.
  - vm_compute. reflexivity.
Defined.

(** C7 as stated fails at large pixel heights.  At 1000 pixels the
    pixel size is 1 and the padding 1/9, every padded corner rounds to a
    corner of the cell, and the square drawn is the whole cell
    [0,1] x [996,997]: its outline touches the four edges. *)
Lemma one_pixel_dot_inside_cell_counterexample :
  Glyph.path <$> Converter.vectorizeGlyph (Argv.Build 1000 square false false)
                   (onePixelGlyph (MetricsEntry.Build 0 1 1 998 0 0))
    = Ok [M 0 997; L 0 996; L 1 996; L 1 997; L 0 997; Zc] ∧
  (cellLeft (Argv.Build 1000 square false false)
     (MetricsEntry.Build 0 1 1 998 0 0) 0 == 0)%Q ∧
  ¬ onePixelInsideCell (Argv.Build 1000 square false false)
      (MetricsEntry.Build 0 1 1 998 0 0).
Proof.
  split; [vm_compute; reflexivity|]. split; [vm_compute; reflexivity|].
  intros (sub & Hpath & _ & Hin).
  vm_compute in Hpath. injection Hpath as Hpath.
  change ([M 0 997; L 0 996; L 1 996; L 1 997; L 0 997] ++ [Zc] = sub ++ [Zc])
    in Hpath.
  apply app_inj_tail in Hpath as [<- _].
  apply Forall_cons in Hin as [Hfirst _].
  apply Forall_cons in Hfirst as [(Hleft & _) _].
  vm_compute in Hleft. discriminate.
Qed.

(* ================================================================== *)
(** * Further properties of the parser *)
(* ================================================================== *)

(** ** The bit tests of the type and format words *)

Lemma land_pow2_testbit (x k : Z) :
  0 ≤ k → Z.land x (2 ^ k) = if Z.testbit x k then 2 ^ k else 0.
Proof.
  intros Hk. apply Z.bits_inj'. intros n Hn.
  rewrite Z.land_spec, Z.pow2_bits_eqb by done.
  destruct (Z.eqb_spec k n) as [->|Hne].
  - rewrite andb_true_r. destruct (Z.testbit x n).
    + by rewrite Z.pow2_bits_true.
    + by rewrite Z.bits_0.
  - rewrite andb_false_r. destruct (Z.testbit x k).
    + rewrite Z.pow2_bits_false; [done | lia].
    + by rewrite Z.bits_0.
Qed.

Lemma truthy_and_pow2 (x k : Z) :
  0 ≤ k < 31 → JS.truthy (JS.and x (2 ^ k)) = Z.testbit x k.
Proof.
  intros Hk. unfold JS.truthy, JS.and.
  assert (Hpow : 0 < 2 ^ k < 2 ^ 31).
  { split; [apply Z.pow_pos_nonneg; lia | apply Z.pow_lt_mono_r; lia]. }
  assert (Hsmall : JS.ToInt32 (2 ^ k) = 2 ^ k).
  { unfold JS.ToInt32. rewrite Z.mod_small; lia. }
  rewrite Hsmall, land_pow2_testbit, ToInt32_testbit by lia.
  destruct (Z.testbit x k); [|reflexivity].
  destruct (Z.eqb_spec (2 ^ k) 0); [lia | reflexivity].
Qed.

Lemma mod_pow2_succ (x n : Z) :
  0 ≤ n → x mod 2 ^ (n + 1) = x mod 2 ^ n + 2 ^ n * Z.b2z (Z.testbit x n).
Proof.
  intros Hn. rewrite Z.pow_add_r, Z.pow_1_r by lia.
  rewrite Z.rem_mul_r by (try apply Z.pow_nonzero; lia).
  by rewrite Z.testbit_spec'.
Qed.

Lemma land_511_bits (x : Z) :
  Z.land x 0x1FF =
    valueOfBits (Z.testbit x 0) (Z.testbit x 1) (Z.testbit x 2) (Z.testbit x 3)
      (Z.testbit x 4) (Z.testbit x 5) (Z.testbit x 6) (Z.testbit x 7)
      (Z.testbit x 8).
Proof.
  change 0x1FF with (Z.ones 9). rewrite Z.land_ones by lia.
  assert (H9 : x mod 2 ^ 9 = x mod 2 ^ 8 + 2 ^ 8 * Z.b2z (Z.testbit x 8))
    by exact (mod_pow2_succ x 8 ltac:(lia)).
  assert (H8 : x mod 2 ^ 8 = x mod 2 ^ 7 + 2 ^ 7 * Z.b2z (Z.testbit x 7))
    by exact (mod_pow2_succ x 7 ltac:(lia)).
  assert (H7 : x mod 2 ^ 7 = x mod 2 ^ 6 + 2 ^ 6 * Z.b2z (Z.testbit x 6))
    by exact (mod_pow2_succ x 6 ltac:(lia)).
  assert (H6 : x mod 2 ^ 6 = x mod 2 ^ 5 + 2 ^ 5 * Z.b2z (Z.testbit x 5))
    by exact (mod_pow2_succ x 5 ltac:(lia)).
  assert (H5 : x mod 2 ^ 5 = x mod 2 ^ 4 + 2 ^ 4 * Z.b2z (Z.testbit x 4))
    by exact (mod_pow2_succ x 4 ltac:(lia)).
  assert (H4 : x mod 2 ^ 4 = x mod 2 ^ 3 + 2 ^ 3 * Z.b2z (Z.testbit x 3))
    by exact (mod_pow2_succ x 3 ltac:(lia)).
  assert (H3 : x mod 2 ^ 3 = x mod 2 ^ 2 + 2 ^ 2 * Z.b2z (Z.testbit x 2))
    by exact (mod_pow2_succ x 2 ltac:(lia)).
  assert (H2 : x mod 2 ^ 2 = x mod 2 ^ 1 + 2 ^ 1 * Z.b2z (Z.testbit x 1))
    by exact (mod_pow2_succ x 1 ltac:(lia)).
  assert (H1 : x mod 2 ^ 1 = x mod 2 ^ 0 + 2 ^ 0 * Z.b2z (Z.testbit x 0))
    by exact (mod_pow2_succ x 0 ltac:(lia)).
  assert (H0 : x mod 2 ^ 0 = 0) by (rewrite Z.pow_0_r; apply Z.mod_1_r).
  unfold valueOfBits. lia.
Qed.

Lemma tableTypeToString_bits (type : Z) :
  PcfParser.tableTypeToString type =
    typeStringOfBits (Z.testbit type 0) (Z.testbit type 1) (Z.testbit type 2)
      (Z.testbit type 3) (Z.testbit type 4) (Z.testbit type 5)
      (Z.testbit type 6) (Z.testbit type 7) (Z.testbit type 8).
Proof.
  unfold PcfParser.tableTypeToString. cbv zeta beta.
  change (JS.shl 1 0) with (2 ^ 0). change (JS.shl 1 1) with (2 ^ 1).
  change (JS.shl 1 2) with (2 ^ 2). change (JS.shl 1 3) with (2 ^ 3).
  change (JS.shl 1 4) with (2 ^ 4). change (JS.shl 1 5) with (2 ^ 5).
  change (JS.shl 1 6) with (2 ^ 6). change (JS.shl 1 7) with (2 ^ 7).
  change (JS.shl 1 8) with (2 ^ 8).
  rewrite !truthy_and_pow2 by lia.
  unfold typeStringOfBits.
  destruct (Z.testbit type 0), (Z.testbit type 1), (Z.testbit type 2),
    (Z.testbit type 3), (Z.testbit type 4), (Z.testbit type 5),
    (Z.testbit type 6), (Z.testbit type 7), (Z.testbit type 8);
    reflexivity.
Qed.

Lemma typeStringOfBits_dispatch (b0 b1 b2 b3 b4 b5 b6 b7 b8 : bool) :
  let name := typeStringOfBits b0 b1 b2 b3 b4 b5 b6 b7 b8 in
  let low := valueOfBits b0 b1 b2 b3 b4 b5 b6 b7 b8 in
  String.eqb name "PCF_GLYPH_NAMES" = (low =? 128) ∧
  String.eqb name "PCF_BDF_ENCODINGS" = (low =? 32) ∧
  String.eqb name "PCF_METRICS" = (low =? 4) ∧
  String.eqb name "PCF_BITMAPS" = (low =? 8).
Proof.
  destruct b0, b1, b2, b3, b4, b5, b6, b7, b8; vm_compute; auto.
Qed.

Lemma tableTypeToString_dispatch (type : Z) :
  let name := PcfParser.tableTypeToString type in
  let low := Z.land type 0x1FF in
  String.eqb name "PCF_GLYPH_NAMES" = (low =? 128) ∧
  String.eqb name "PCF_BDF_ENCODINGS" = (low =? 32) ∧
  String.eqb name "PCF_METRICS" = (low =? 4) ∧
  String.eqb name "PCF_BITMAPS" = (low =? 8).
Proof.
  cbv zeta. rewrite tableTypeToString_bits, land_511_bits.
  apply typeStringOfBits_dispatch.
Qed.

(** X1.  The decoder that [parse] runs for a directory entry depends on
    the nine low bits of its type word only, and one is run only when
    exactly one of these bits is set: bit 7 for glyph names, bit 5 for
    encodings, bit 2 for metrics, bit 3 for bitmaps.  An entry with any
    other combination of the nine bits (none, another single bit, or
    several bits) is passed over: nothing is decoded and nothing fails. *)
Theorem table_type_dispatch (type : Z) :
  let low := Z.land type 0x1FF in
  (PcfParser.tableTypeToString type = "PCF_GLYPH_NAMES"%string ↔ low = 128) ∧
  (PcfParser.tableTypeToString type = "PCF_BDF_ENCODINGS"%string ↔ low = 32) ∧
  (PcfParser.tableTypeToString type = "PCF_METRICS"%string ↔ low = 4) ∧
  (PcfParser.tableTypeToString type = "PCF_BITMAPS"%string ↔ low = 8) ∧
  (low ≠ 128 → low ≠ 32 → low ≠ 4 → low ≠ 8 →
   ∀ rawBuffer pcf format size offset,
     PcfParser.parseTable rawBuffer pcf (TocEntry.Build type format size offset)
       = Ok pcf).
Proof.
  intros low.
  destruct (tableTypeToString_dispatch type) as (Hn & He & Hm & Hb).
  fold low in Hn, He, Hm, Hb.
  repeat split.
  - intros H. apply Z.eqb_eq. rewrite <- Hn. by apply String.eqb_eq.
  - intros H. apply String.eqb_eq. rewrite Hn. by apply Z.eqb_eq.
  - intros H. apply Z.eqb_eq. rewrite <- He. by apply String.eqb_eq.
  - intros H. apply String.eqb_eq. rewrite He. by apply Z.eqb_eq.
  - intros H. apply Z.eqb_eq. rewrite <- Hm. by apply String.eqb_eq.
  - intros H. apply String.eqb_eq. rewrite Hm. by apply Z.eqb_eq.
  - intros H. apply Z.eqb_eq. rewrite <- Hb. by apply String.eqb_eq.
  - intros H. apply String.eqb_eq. rewrite Hb. by apply Z.eqb_eq.
  - intros H128 H32 H4 H8 rawBuffer pcf format size offset.
    unfold PcfParser.parseTable. cbn [TocEntry.type].
    rewrite Hn, He, Hm, Hb.
    rewrite (proj2 (Z.eqb_neq low 128) H128), (proj2 (Z.eqb_neq low 32) H32),
      (proj2 (Z.eqb_neq low 4) H4), (proj2 (Z.eqb_neq low 8) H8).
    reflexivity.
Qed.

Lemma table_type_dispatch_witness :
  PcfParser.tableTypeToString 0x204 = "PCF_METRICS"%string ∧
  ∀ rawBuffer pcf,
    PcfParser.parseTable rawBuffer pcf (TocEntry.Build 0x0C 0 0 0) = Ok pcf.
Proof.
  split.
  - apply (table_type_dispatch 0x204). reflexivity.
  - intros rawBuffer pcf.
    apply (table_type_dispatch 0x0C); vm_compute; discriminate.
Defined.

(** X2.  The labels that [tableFormatToString] lists for a format word.
    The byte-order and bit-order labels follow bits 2 and 3.  Because of
    the precedence of [==] over [&], the pad label and the scan-unit
    label do not test their two-bit masks: each is listed exactly when
    bit 0 of the format is set, so the two always come together.  The
    first label is the compressed-metrics one exactly when
    [isCompressedMetrics] holds, and the byte-order label is listed
    exactly when the decoders read big-endian. *)
Theorem table_format_labels (format : Z) :
  let names := PcfParser.tableFormatNames format in
  bool_decide ("PCF_GLYPH_PAD_MASK"%string ∈ names) = Z.testbit format 0 ∧
  bool_decide ("PCF_SCAN_UNIT_MASK"%string ∈ names) = Z.testbit format 0 ∧
  bool_decide ("PCF_BYTE_MASK"%string ∈ names) = Z.testbit format 2 ∧
  bool_decide ("PCF_BIT_MASK"%string ∈ names) = Z.testbit format 3 ∧
  bool_decide (head names = Some "PCF_COMPRESSED_METRICS"%string)
    = PcfParser.isCompressedMetrics format ∧
  (PcfParser.getEndianessFromFormat format
     = (BinaryParser.big, BinaryParser.big)
   ↔ "PCF_BYTE_MASK"%string ∈ names).
Proof.
  intros names.
  assert (Hend : PcfParser.getEndianessFromFormat format
                   = (BinaryParser.big, BinaryParser.big)
                 ↔ Z.testbit format 2 = true).
  { rewrite getEndianessFromFormat_spec. unfold formatEndianess.
    destruct (Z.testbit format 2); split; intros H; congruence. }
  assert (Hnames : bool_decide ("PCF_GLYPH_PAD_MASK"%string ∈ names)
                     = Z.testbit format 0 ∧
    bool_decide ("PCF_SCAN_UNIT_MASK"%string ∈ names) = Z.testbit format 0 ∧
    bool_decide ("PCF_BYTE_MASK"%string ∈ names) = Z.testbit format 2 ∧
    bool_decide ("PCF_BIT_MASK"%string ∈ names) = Z.testbit format 3 ∧
    bool_decide (head names = Some "PCF_COMPRESSED_METRICS"%string)
      = PcfParser.isCompressedMetrics format).
  { subst names. unfold PcfParser.tableFormatNames, PcfParser.isCompressedMetrics.
    cbv zeta.
    change (JS.ofBool (JS.shl 3 0 =? 3)) with (2 ^ 0).
    change (JS.ofBool (JS.shl 3 4 =? JS.shl 3 4)) with (2 ^ 0).
    change (JS.shl 1 2) with (2 ^ 2). change (JS.shl 1 3) with (2 ^ 3).
    rewrite !truthy_and_pow2 by lia.
    destruct (Z.eqb_spec (JS.and format 4294967040) 512) as [H2|H2],
      (Z.eqb_spec (JS.and format 4294967040) 256) as [H1|H1];
      try lia;
      destruct (Z.testbit format 0), (Z.testbit format 2), (Z.testbit format 3);
      vm_compute; auto. }
  destruct Hnames as (H0 & H4 & H2 & H3 & Hc).
  repeat split; try assumption.
  - intros H. apply Hend in H. rewrite <- H2 in H. by apply bool_decide_eq_true in H.
  - intros H. apply Hend. rewrite <- H2. by apply bool_decide_eq_true.
Qed.

(** ** The names of the glyphs *)

Lemma Z_of_byte_zero (b : byte) : Z_of_byte b = 0 ↔ b = x00.
Proof.
  split; [|by intros ->].
  intros Hb. unfold Z_of_byte in Hb.
  assert (Hn : Byte.to_N b = Byte.to_N x00) by (simpl; lia).
  assert (Hs : Some b = Some x00).
  { rewrite <- (Byte.of_to_N b), <- (Byte.of_to_N x00). by rewrite Hn. }
  congruence.
Qed.

Lemma zeroTerminated_Ok (s str r : list byte) :
  BinaryParser.zeroTerminated s = Ok (str, r) ↔
  s = str ++ x00 :: r ∧ Forall (λ b, b ≠ x00) str.
Proof.
  revert str r. induction s as [|b s IH]; intros str r; simpl.
  - split; [done|]. intros [H _]. by destruct str.
  - destruct (Z.eqb_spec (Z_of_byte b) 0) as [Hb|Hb].
    + apply Z_of_byte_zero in Hb. subst b. split.
      * intros [= <- <-]. split; [done | constructor].
      * intros [Hs Hstr]. destruct str as [|c str].
        -- simpl in Hs. by injection Hs as ->.
        -- simpl in Hs. injection Hs as <- _. by inversion Hstr.
    + assert (Hb' : b ≠ x00) by (intros ->; by apply Hb).
      destruct (BinaryParser.zeroTerminated s) as [[str' r']|e].
      * split.
        -- intros [= <- <-]. destruct (proj1 (IH str' r') eq_refl) as [-> Hstr].
           split; [done | by constructor].
        -- intros [Hs Hstr]. destruct str as [|c str].
           ++ simpl in Hs. injection Hs as -> _. done.
           ++ simpl in Hs. injection Hs as <- Hs. inversion Hstr; subst.
              assert (Hok : Ok (str', r') = Ok (str, r)) by (by apply IH).
              by injection Hok as -> ->.
      * split; [done|]. intros [Hs Hstr]. destruct str as [|c str].
        -- simpl in Hs. injection Hs as -> _. done.
        -- simpl in Hs. injection Hs as <- Hs. inversion Hstr; subst.
           assert (Hok : @Err (list byte * list byte) e = Ok (str, r)) by (by apply IH).
           done.
Qed.

Lemma zeroTerminated_Err (s : list byte) (e : error) :
  BinaryParser.zeroTerminated s = Err e ↔ e = RangeError ∧ Forall (λ b, b ≠ x00) s.
Proof.
  induction s as [|b s IH]; simpl.
  - split; [intros [= <-]; by split | by intros [-> _]].
  - destruct (Z.eqb_spec (Z_of_byte b) 0) as [Hb|Hb].
    + apply Z_of_byte_zero in Hb. subst b. split; [done|].
      intros [_ H]. by inversion H.
    + assert (Hb' : b ≠ x00) by (intros ->; by apply Hb).
      destruct (BinaryParser.zeroTerminated s) as [[str' r']|e'].
      * split; [done|]. intros [-> H]. inversion H; subst.
        assert (@Ok (list byte * list byte) (str', r') = Err RangeError) by (by apply IH).
        done.
      * split.
        -- intros [= <-]. destruct (proj1 IH eq_refl) as [-> H]. split; [done | by constructor].
        -- intros [-> H]. inversion H; subst. f_equal.
           assert (Err e' = @Err (list byte * list byte) RangeError) by (by apply IH). congruence.
Qed.

Lemma mapM_result_Ok {A B : Type} (f : A → result B) (l : list A) (ks : list B) :
  mapM f l = Ok ks ↔ Forall2 (λ x k, f x = Ok k) l ks.
Proof.
  revert ks. induction l as [|x l IH]; intros ks; simpl.
  - split; [intros [= <-]; constructor | by inversion 1].
  - destruct (f x) as [y|e] eqn:Hx; simpl.
    + destruct (mapM f l) as [ks'|e]; simpl.
      * split.
        -- intros [= <-]. constructor; [done | by apply IH].
        -- inversion 1; subst. f_equal.
           assert (Ok ks' = Ok l') by (by apply IH). congruence.
      * split; [done|]. inversion 1; subst.
        assert (@Err (list B) e = Ok l') by (by apply IH). done.
    + split; [done|]. inversion 1; subst. congruence.
Qed.

Lemma mapM_result_Err {A B : Type} (f : A → result B) (l : list A) (e : error) :
  mapM f l = Err e → ∃ x, x ∈ l ∧ f x = Err e.
Proof.
  induction l as [|x l IH]; simpl; [done|].
  destruct (f x) as [y|e'] eqn:Hx; simpl.
  - destruct (mapM f l) as [ks'|e'']; simpl; [done|].
    intros [= ->]. destruct (IH eq_refl) as (x' & Hin & Hx').
    exists x'. split; [by right | done].
  - intros [= ->]. exists x. split; [by left | done].
Qed.

Lemma parse_string_Ok (buf : list byte) (pos : Z) (name : list byte) :
  BinaryParser.parse
    (_ ← BinaryParser.seek pos; BinaryParser.string_zeroTerminated) buf = Ok name ↔
  Forall (λ b, b ≠ x00) name ∧
  ∃ rest, drop (Z.to_nat pos) buf = name ++ x00 :: rest.
Proof.
  rewrite parse_unfold, run_bind, run_seek. cbn [BinaryParser.runParser BinaryParser.string_zeroTerminated].
  destruct (BinaryParser.zeroTerminated (drop (Z.to_nat pos) buf)) as [[str r]|e] eqn:Hz.
  - apply zeroTerminated_Ok in Hz as [Hs Hstr]. split.
    + intros [= <-]. split; [done | by exists r].
    + intros [Hname [rest Hrest]]. f_equal.
      assert (Hok : BinaryParser.zeroTerminated (drop (Z.to_nat pos) buf) = Ok (name, rest))
        by (by apply zeroTerminated_Ok).
      assert (Hok' : BinaryParser.zeroTerminated (drop (Z.to_nat pos) buf) = Ok (str, r))
        by (by apply zeroTerminated_Ok).
      congruence.
  - split; [done|]. intros [Hname [rest Hrest]].
    assert (Hok : BinaryParser.zeroTerminated (drop (Z.to_nat pos) buf) = Ok (name, rest))
      by (by apply zeroTerminated_Ok).
    congruence.
Qed.

(** X3.  The names of a glyph-name table.  A table that decodes has one
    name per declared glyph, in the order of its offsets; the name of
    glyph [i] is the run of bytes of the file that starts at the table's
    string base (the table offset plus 8 + 4 glyphCount + 4) plus
    [offsets[i]] and stops before the first zero byte: the name holds no
    zero byte and the byte after it in the file is zero. *)
Theorem glyph_names_zero_terminated (buf : list byte) (offset format : Z)
    (t : GlyphNameTable.t) :
  0 ≤ offset →
  PcfParser.parseGlyphNameTable buf offset format = Ok t →
  let base := offset + 8 + 4 * GlyphNameTable.glyphCount t + 4 in
  Z.of_nat (length (GlyphNameTable.strings t)) = GlyphNameTable.glyphCount t ∧
  length (GlyphNameTable.offsets t) = length (GlyphNameTable.strings t) ∧
  ∀ (i : nat) (stringOffset : Z) (name : list byte),
    GlyphNameTable.offsets t !! i = Some stringOffset →
    GlyphNameTable.strings t !! i = Some name →
    Forall (λ b, b ≠ x00) name ∧
    ∃ rest, drop (Z.to_nat (base + stringOffset)) buf = name ++ x00 :: rest.
Proof.
  intros Hoffset Hparse base.
  rewrite parseGlyphNameTable_eq in Hparse by done.
  case_decide as Hfit; [|done].
  destruct (mapM _ _) as [strings|e] eqn:Hstrings; [|done].
  cbn in Hparse. injection Hparse as <-.
  apply mapM_result_Ok in Hstrings.
  subst base. cbn [GlyphNameTable.strings GlyphNameTable.offsets GlyphNameTable.glyphCount].
  pose proof (Forall2_length _ _ _ Hstrings) as Hlen.
  rewrite length_fmap, length_seq in Hlen.
  pose proof (u32At_range (formatEndianess format) buf (offset + 4)).
  split; [lia|]. split; [by rewrite length_fmap, length_seq|].
  intros i stringOffset name Hoff Hname.
  pose proof (Forall2_lookup_lr _ _ _ _ _ _ Hstrings Hoff Hname) as Hread.
  cbv beta in Hread. apply parse_string_Ok in Hread as [Hnz [rest Hrest]].
  split; [done|]. exists rest. rewrite <- Hrest. f_equal. f_equal. lia.
Qed.

Lemma glyph_names_zero_terminated_witness :
  ∃ t, PcfParser.parseGlyphNameTable sampleGlyphNamesBE 0 4 = Ok t ∧
       GlyphNameTable.strings t = [[x41]] ∧
       ∃ rest, drop (Z.to_nat (0 + 8 + 4 * GlyphNameTable.glyphCount t + 4 + 0))
                 sampleGlyphNamesBE = [x41] ++ x00 :: rest.
Proof.
  eexists. split; [vm_compute; reflexivity|]. split; [reflexivity|].
  refine (proj2 (proj2 (proj2 (glyph_names_zero_terminated sampleGlyphNamesBE 0 4 _
            ltac:(lia) ltac:(vm_compute; reflexivity)))
          0%nat 0 [x41] ltac:(reflexivity) ltac:(reflexivity))).
Defined.


(** ** Ranges of the decoded values *)

Lemma Forall_fmap_seq {A : Type} (P : A → Prop) (f : nat → A) (n : nat) :
  (∀ i, P (f i)) → Forall P (f <$> seq 0 n).
Proof.
  intros Hf. apply Forall_fmap, Forall_forall. intros i _. apply Hf.
Qed.

(** X4.  Ranges of the decoded values.  An encoding table holds
    (maxCharOrByte2 - minCharOrByte2 + 1) * (maxByte1 - minByte1 + 1)
    glyph indices, none when this product is not positive, each in
    [[0, 0xFFFF]].  A metrics table holds [metricsCount] entries; in the
    compressed format the count is at most 0xFFFF, every metric lies in
    [[-128, 127]] and [characterAttributes] is 0; in the default format
    every field lies in [[0, 0xFFFF]], so that no metric is ever negative.
    A bitmap table holds [glyphCount] offsets and four sizes, all
    unsigned 32-bit values. *)
Theorem decoded_values_in_range (buf : list byte) (offset format : Z) :
  0 ≤ offset →
  (∀ t, PcfParser.parseEncodingTable buf offset format = Ok t →
     let rows := EncodingTable.maxByte1 t - EncodingTable.minByte1 t + 1 in
     let columns :=
       EncodingTable.maxCharOrByte2 t - EncodingTable.minCharOrByte2 t + 1 in
     Z.of_nat (length (EncodingTable.glyphIndeces t)) = Z.max 0 (columns * rows) ∧
     Forall (λ index, 0 ≤ index ≤ 0xFFFF) (EncodingTable.glyphIndeces t)) ∧
  (∀ t, PcfParser.parseMetricsTable buf offset format = Ok t →
     Z.of_nat (length (MetricsTable.metrics t)) = MetricsTable.metricsCount t ∧
     if PcfParser.isCompressedMetrics format
     then
       MetricsTable.metricsCount t ≤ 0xFFFF ∧
       Forall (λ m,
                 -128 ≤ MetricsEntry.leftSidedBearing m ≤ 127 ∧
                 -128 ≤ MetricsEntry.rightSideBearing m ≤ 127 ∧
                 -128 ≤ MetricsEntry.characterWidth m ≤ 127 ∧
                 -128 ≤ MetricsEntry.characterAscent m ≤ 127 ∧
                 -128 ≤ MetricsEntry.characterDescent m ≤ 127 ∧
                 MetricsEntry.characterAttributes m = 0)
         (MetricsTable.metrics t)
     else
       Forall (λ m,
                 0 ≤ MetricsEntry.leftSidedBearing m ≤ 0xFFFF ∧
                 0 ≤ MetricsEntry.rightSideBearing m ≤ 0xFFFF ∧
                 0 ≤ MetricsEntry.characterWidth m ≤ 0xFFFF ∧
                 0 ≤ MetricsEntry.characterAscent m ≤ 0xFFFF ∧
                 0 ≤ MetricsEntry.characterDescent m ≤ 0xFFFF ∧
                 0 ≤ MetricsEntry.characterAttributes m ≤ 0xFFFF)
         (MetricsTable.metrics t)) ∧
  (∀ t, PcfParser.parseBitmapTable buf offset format = Ok t →
     Z.of_nat (length (BitmapTable.offsets t)) = BitmapTable.glyphCount t ∧
     length (BitmapTable.bitmapSizes t) = 4%nat ∧
     Forall (λ o, 0 ≤ o < 2 ^ 32) (BitmapTable.offsets t) ∧
     Forall (λ s, 0 ≤ s < 2 ^ 32) (BitmapTable.bitmapSizes t)).
Proof.
  intros Hoffset. split; [|split].
  - intros t Hparse. rewrite parseEncodingTable_eq in Hparse by done.
    cbv zeta in Hparse. case_decide as Hfit; [|done].
    injection Hparse as <-. cbn [EncodingTable.maxByte1 EncodingTable.minByte1
      EncodingTable.maxCharOrByte2 EncodingTable.minCharOrByte2
      EncodingTable.glyphIndeces]. cbv zeta.
    split; [rewrite length_fmap, length_seq; lia|].
    apply Forall_fmap_seq. intros i.
    pose proof (u16At_range (formatEndianess format) buf (offset + 14 + 2 * Z.of_nat i)).
    lia.
  - intros t Hparse.
    destruct (PcfParser.isCompressedMetrics format) eqn:Hc.
    + rewrite parseMetricsTable_compressed_eq in Hparse by done.
      cbv zeta in Hparse. case_decide as Hfit; [|done].
      injection Hparse as <-. cbn [MetricsTable.metrics MetricsTable.metricsCount].
      pose proof (u16At_range (formatEndianess format) buf (offset + 4)).
      split; [rewrite length_fmap, length_seq; lia|]. split; [lia|].
      apply Forall_fmap_seq. intros i.
      cbn [MetricsEntry.leftSidedBearing MetricsEntry.rightSideBearing
           MetricsEntry.characterWidth MetricsEntry.characterAscent
           MetricsEntry.characterDescent MetricsEntry.characterAttributes].
      pose proof (byteAt_range buf (offset + 6 + 5 * Z.of_nat i)).
      pose proof (byteAt_range buf (offset + 6 + 5 * Z.of_nat i + 1)).
      pose proof (byteAt_range buf (offset + 6 + 5 * Z.of_nat i + 2)).
      pose proof (byteAt_range buf (offset + 6 + 5 * Z.of_nat i + 3)).
      pose proof (byteAt_range buf (offset + 6 + 5 * Z.of_nat i + 4)).
      lia.
    + rewrite parseMetricsTable_default_eq in Hparse by done.
      cbv zeta in Hparse. case_decide as Hfit; [|done].
      injection Hparse as <-. cbn [MetricsTable.metrics MetricsTable.metricsCount].
      pose proof (u32At_range (formatEndianess format) buf (offset + 4)).
      split; [rewrite length_fmap, length_seq; lia|].
      apply Forall_fmap_seq. intros i.
      cbn [MetricsEntry.leftSidedBearing MetricsEntry.rightSideBearing
           MetricsEntry.characterWidth MetricsEntry.characterAscent
           MetricsEntry.characterDescent MetricsEntry.characterAttributes].
      pose proof (u16At_range (formatEndianess format) buf (offset + 8 + 12 * Z.of_nat i)).
      pose proof (u16At_range (formatEndianess format) buf (offset + 8 + 12 * Z.of_nat i + 2)).
      pose proof (u16At_range (formatEndianess format) buf (offset + 8 + 12 * Z.of_nat i + 4)).
      pose proof (u16At_range (formatEndianess format) buf (offset + 8 + 12 * Z.of_nat i + 6)).
      pose proof (u16At_range (formatEndianess format) buf (offset + 8 + 12 * Z.of_nat i + 8)).
      pose proof (u16At_range (formatEndianess format) buf (offset + 8 + 12 * Z.of_nat i + 10)).
      lia.
  - intros t Hparse. rewrite parseBitmapTable_eq in Hparse by done.
    cbv zeta in Hparse. case_decide as Hfit; [|done].
    injection Hparse as <-.
    cbn [BitmapTable.offsets BitmapTable.glyphCount BitmapTable.bitmapSizes].
    pose proof (u32At_range (formatEndianess format) buf (offset + 4)).
    split; [rewrite length_fmap, length_seq; lia|].
    split; [reflexivity|].
    split.
    + apply Forall_fmap_seq; intros i.
      pose proof (u32At_range (formatEndianess format) buf (offset + 8 + 4 * Z.of_nat i)).
      lia.
    + repeat constructor;
        match goal with
        | |- _ ≤ u32At ?e ?b ?p => pose proof (u32At_range e b p); lia
        | |- u32At ?e ?b ?p < _ => pose proof (u32At_range e b p); lia
        end.
Qed.

Lemma decoded_values_in_range_witness :
  (∀ t, PcfParser.parseEncodingTable sampleEncodingBE 0 4 = Ok t →
     Z.of_nat (length (EncodingTable.glyphIndeces t)) = 2) ∧
  ∃ t, PcfParser.parseEncodingTable sampleEncodingBE 0 4 = Ok t.
Proof.
  split.
  - intros t Hparse.
    pose proof (proj1 (proj1 (decoded_values_in_range sampleEncodingBE 0 4 ltac:(lia))
                  t Hparse)) as Hlen.
    vm_compute in Hparse. injection Hparse as <-. exact Hlen.
  - eexists. vm_compute. reflexivity.
Defined.


(** ** The loop over the table of contents *)

Section ParseTables.
Import PcfParser.

Lemma parseTable_eq (buf : list byte) (pcf : Pcf.t) (entry : TocEntry.t) :
  parseTable buf pcf entry =
    let offset := TocEntry.offset entry in
    let format := TocEntry.format entry in
    if tableKind entry =? 128 then
      t ← parseGlyphNameTable buf offset format;
      Ok (Pcf.Build (Pcf.header pcf) (Pcf.tableCount pcf) (Pcf.tocEntry pcf)
            (Some t) (Pcf.encodingTable pcf) (Pcf.metricsTable pcf)
            (Pcf.bitmapTable pcf))
    else if tableKind entry =? 32 then
      t ← parseEncodingTable buf offset format;
      Ok (Pcf.Build (Pcf.header pcf) (Pcf.tableCount pcf) (Pcf.tocEntry pcf)
            (Pcf.glyphNameTable pcf) (Some t) (Pcf.metricsTable pcf)
            (Pcf.bitmapTable pcf))
    else if tableKind entry =? 4 then
      t ← parseMetricsTable buf offset format;
      Ok (Pcf.Build (Pcf.header pcf) (Pcf.tableCount pcf) (Pcf.tocEntry pcf)
            (Pcf.glyphNameTable pcf) (Pcf.encodingTable pcf) (Some t)
            (Pcf.bitmapTable pcf))
    else if tableKind entry =? 8 then
      t ← parseBitmapTable buf offset format;
      Ok (Pcf.Build (Pcf.header pcf) (Pcf.tableCount pcf) (Pcf.tocEntry pcf)
            (Pcf.glyphNameTable pcf) (Pcf.encodingTable pcf)
            (Pcf.metricsTable pcf) (Some t))
    else Ok pcf.
Proof.
  unfold parseTable, tableKind.
  destruct (tableTypeToString_dispatch (TocEntry.type entry)) as (Hn & He & Hm & Hb).
  cbv zeta in Hn, He, Hm, Hb |- *. rewrite Hn, He, Hm, Hb. reflexivity.
Qed.

Lemma parseTables_app (buf : list byte) (l1 l2 : list TocEntry.t) (pcf : Pcf.t) :
  parseTables buf pcf (l1 ++ l2) =
    pcf1 ← parseTables buf pcf l1; parseTables buf pcf1 l2.
Proof.
  revert pcf. induction l1 as [|e l1 IH]; intros pcf; [done|].
  cbn [app parseTables]. destruct (parseTable buf pcf e) as [pcf1|err]; [|done].
  cbn. apply IH.
Qed.

(** Decoding a table leaves the signature and the table of contents of
    the object as they are. *)
Lemma parseTable_directory (buf : list byte) (pcf pcf' : Pcf.t) (entry : TocEntry.t) :
  parseTable buf pcf entry = Ok pcf' →
  Pcf.header pcf' = Pcf.header pcf ∧ Pcf.tableCount pcf' = Pcf.tableCount pcf ∧
  Pcf.tocEntry pcf' = Pcf.tocEntry pcf.
Proof.
  rewrite parseTable_eq. cbv zeta.
  destruct (tableKind entry =? 128);
    [|destruct (tableKind entry =? 32);
      [|destruct (tableKind entry =? 4); [|destruct (tableKind entry =? 8)]]];
    intros Hp;
    try (injection Hp as <-; done);
    match type of Hp with
    | context [?d buf ?o ?f] => destruct (d buf o f); [|done]
    end; cbn in Hp; injection Hp as <-; done.
Qed.

Lemma parseTables_directory (buf : list byte) (entries : list TocEntry.t)
    (pcf pcf' : Pcf.t) :
  parseTables buf pcf entries = Ok pcf' →
  Pcf.header pcf' = Pcf.header pcf ∧ Pcf.tableCount pcf' = Pcf.tableCount pcf ∧
  Pcf.tocEntry pcf' = Pcf.tocEntry pcf.
Proof.
  revert pcf. induction entries as [|e entries IH]; intros pcf; cbn [parseTables].
  - by intros [= <-].
  - destruct (parseTable buf pcf e) as [pcf1|err] eqn:He; [|done].
    cbn. intros H. apply IH in H as (-> & -> & ->).
    by apply parseTable_directory in He.
Qed.

End ParseTables.

Lemma lastOfKind_snoc (kind : Z) (entries : list TocEntry.t) (e : TocEntry.t) :
  lastOfKind kind (entries ++ [e]) =
    if decide (tableKind e = kind) then Some e else lastOfKind kind entries.
Proof.
  unfold lastOfKind. rewrite filter_app.
  case_decide as Hk.
  - rewrite filter_cons_True, filter_nil by done. apply last_snoc.
  - rewrite filter_cons_False, filter_nil by done. by rewrite app_nil_r.
Qed.

Lemma lastOfKind_None (kind : Z) (entries : list TocEntry.t) :
  lastOfKind kind entries = None ↔ Forall (λ e, tableKind e ≠ kind) entries.
Proof.
  unfold lastOfKind. rewrite last_None. split.
  - intros Hnil. apply Forall_forall. intros e He Hk.
    assert (Hin : e ∈ filter (λ e, tableKind e = kind) entries)
      by (apply list_elem_of_filter; done).
    rewrite Hnil in Hin. by apply elem_of_nil in Hin.
  - induction 1 as [|e l He _ IH]; [done|].
    by rewrite filter_cons_False.
Qed.

(** One of the four table slots of the object: [get] reads it, entries
    of kind [kind] set it to what [decoder] returns, entries of the other
    kinds leave it as it is.  After the loop the slot holds the table of
    the last entry of its kind. *)
Section TableSlot.
Import PcfParser.

Context {T : Type}.
Variable buf : list byte.
Variable kind : Z.
Variable get : Pcf.t → option T.
Variable decoder : list byte → Z → Z → result T.

Hypothesis other_kind : ∀ pcf entry pcf',
  parseTable buf pcf entry = Ok pcf' → tableKind entry ≠ kind → get pcf' = get pcf.
Hypothesis this_kind : ∀ pcf entry pcf',
  parseTable buf pcf entry = Ok pcf' → tableKind entry = kind →
  ∃ t, decoder buf (TocEntry.offset entry) (TocEntry.format entry) = Ok t ∧
       get pcf' = Some t.

Lemma parseTables_slot (entries : list TocEntry.t) (pcf pcf' : Pcf.t) :
  parseTables buf pcf entries = Ok pcf' →
  match lastOfKind kind entries with
  | Some entry =>
      ∃ t, decoder buf (TocEntry.offset entry) (TocEntry.format entry) = Ok t ∧
           get pcf' = Some t
  | None => get pcf' = get pcf
  end.
Proof.
  revert pcf'. induction entries as [|e entries IH] using rev_ind; intros pcf'.
  - cbn. by intros [= <-].
  - rewrite parseTables_app, lastOfKind_snoc.
    destruct (parseTables buf pcf entries) as [pcf1|err]; [|done].
    specialize (IH pcf1 eq_refl). cbn [mbind result_bind parseTables].
    destruct (parseTable buf pcf1 e) as [pcf2|err] eqn:He; [|done].
    cbn. intros [= <-]. case_decide as Hk.
    + by eapply this_kind.
    + rewrite (other_kind _ _ _ He Hk). exact IH.
Qed.

End TableSlot.

(** The cases of one turn of the loop that returned. *)
Ltac parseTable_cases Hp :=
  rewrite parseTable_eq in Hp; cbv zeta in Hp;
  repeat match type of Hp with
         | context [?a =? ?b] => destruct (Z.eqb_spec a b)
         end;
  try match type of Hp with
      | context [?d ?buf ?o ?f ≫= _] => destruct (d buf o f) eqn:?; [|discriminate Hp]
      end;
  cbn in Hp; injection Hp as <-.

Lemma parseTables_tables (buf : list byte) (entries : list TocEntry.t)
    (pcf pcf' : Pcf.t) :
  PcfParser.parseTables buf pcf entries = Ok pcf' →
  match lastOfKind 128 entries with
  | Some entry =>
      ∃ t, PcfParser.parseGlyphNameTable buf (TocEntry.offset entry)
             (TocEntry.format entry) = Ok t ∧
           Pcf.glyphNameTable pcf' = Some t
  | None => Pcf.glyphNameTable pcf' = Pcf.glyphNameTable pcf
  end ∧
  match lastOfKind 32 entries with
  | Some entry =>
      ∃ t, PcfParser.parseEncodingTable buf (TocEntry.offset entry)
             (TocEntry.format entry) = Ok t ∧
           Pcf.encodingTable pcf' = Some t
  | None => Pcf.encodingTable pcf' = Pcf.encodingTable pcf
  end ∧
  match lastOfKind 4 entries with
  | Some entry =>
      ∃ t, PcfParser.parseMetricsTable buf (TocEntry.offset entry)
             (TocEntry.format entry) = Ok t ∧
           Pcf.metricsTable pcf' = Some t
  | None => Pcf.metricsTable pcf' = Pcf.metricsTable pcf
  end ∧
  match lastOfKind 8 entries with
  | Some entry =>
      ∃ t, PcfParser.parseBitmapTable buf (TocEntry.offset entry)
             (TocEntry.format entry) = Ok t ∧
           Pcf.bitmapTable pcf' = Some t
  | None => Pcf.bitmapTable pcf' = Pcf.bitmapTable pcf
  end.
Proof.
  intros Hparse.
  split; [|split; [|split]];
    (eapply parseTables_slot; [| |exact Hparse]);
    intros pcf1 entry pcf2 Hp Hk; parseTable_cases Hp;
    first [lia | reflexivity | (eexists; split; reflexivity)].
Qed.

Lemma lastOfKind_middle (kind : Z) (before after : list TocEntry.t)
    (entry : TocEntry.t) :
  tableKind entry = kind →
  Forall (λ e, tableKind e ≠ kind) after →
  lastOfKind kind (before ++ entry :: after) = Some entry.
Proof.
  intros Hk Hafter. apply lastOfKind_None in Hafter.
  unfold lastOfKind in *. apply last_None in Hafter.
  rewrite filter_app, filter_cons_True, Hafter by done.
  apply last_snoc.
Qed.

Lemma lastOfKind_Some (kind : Z) (entries : list TocEntry.t) :
  is_Some (lastOfKind kind entries) ↔ Exists (λ e, tableKind e = kind) entries.
Proof.
  split.
  - intros [e He]. unfold lastOfKind in He.
    assert (Hin : e ∈ filter (λ e, tableKind e = kind) entries).
    { apply last_Some in He as [l' ->]. apply elem_of_app. right. by left. }
    apply list_elem_of_filter in Hin as [Hk Hin].
    apply Exists_exists. by exists e.
  - intros Hex. destruct (lastOfKind kind entries) eqn:Hlast; [by eexists|].
    apply lastOfKind_None in Hlast. apply Exists_exists in Hex as (e & Hin & Hk).
    rewrite Forall_forall in Hlast. by destruct (Hlast e Hin).
Qed.

Section RangeErrorOnly.
Import BinaryParser.

Lemma rangeOnly_ret {A : Type} (a : A) : raisesRangeErrorOnly (mret a).
Proof. intros s e. done. Qed.

Lemma rangeOnly_bind {A B : Type} (p : Parser A) (k : A → Parser B) :
  raisesRangeErrorOnly p → (∀ a, raisesRangeErrorOnly (k a)) →
  raisesRangeErrorOnly (p ≫= k).
Proof.
  intros Hp Hk s e. rewrite run_bind.
  destruct (runParser p s) as [[a s']|e'] eqn:Hrun.
  - apply Hk.
  - intros [= <-]. by eapply Hp.
Qed.

Lemma rangeOnly_seek (n : Z) : raisesRangeErrorOnly (seek n).
Proof. intros s e. done. Qed.

Lemma rangeOnly_string_length (n : nat) : raisesRangeErrorOnly (string_length n).
Proof. intros s e. done. Qed.

Lemma rangeOnly_uint8 : raisesRangeErrorOnly uint8.
Proof. intros [|b s] e; simpl; [by intros [= <-] | done]. Qed.

Lemma rangeOnly_zeroTerminated : raisesRangeErrorOnly string_zeroTerminated.
Proof. intros s e H. by apply zeroTerminated_Err in H as [-> _]. Qed.

Lemma rangeOnly_arrayN {A : Type} (n : nat) (p : Parser A) :
  raisesRangeErrorOnly p → raisesRangeErrorOnly (arrayN n p).
Proof.
  intros Hp. induction n as [|n IH]; cbn [arrayN].
  - apply rangeOnly_ret.
  - apply rangeOnly_bind; [done|]. intros x.
    apply rangeOnly_bind; [done|]. intros xs. apply rangeOnly_ret.
Qed.

Lemma rangeOnly_parse {A : Type} (p : Parser A) (buf : list byte) (e : error) :
  raisesRangeErrorOnly p → parse p buf = Err e → e = RangeError.
Proof.
  intros Hp. rewrite parse_unfold.
  destruct (runParser p buf) as [[a s']|e'] eqn:Hrun; [done|].
  intros [= <-]. by eapply Hp.
Qed.

End RangeErrorOnly.

Ltac range_only :=
  repeat first
    [ apply rangeOnly_ret
    | apply rangeOnly_seek
    | apply rangeOnly_string_length
    | apply rangeOnly_uint8
    | apply rangeOnly_zeroTerminated
    | apply rangeOnly_arrayN
    | apply rangeOnly_bind; [|intros ?] ].

Lemma decoders_RangeError (buf : list byte) (offset format : Z) (e : error) :
  (PcfParser.parseGlyphNameTable buf offset format = Err e → e = RangeError) ∧
  (PcfParser.parseEncodingTable buf offset format = Err e → e = RangeError) ∧
  (PcfParser.parseMetricsTable buf offset format = Err e → e = RangeError) ∧
  (PcfParser.parseBitmapTable buf offset format = Err e → e = RangeError).
Proof.
  split; [|split; [|split]].
  - unfold PcfParser.parseGlyphNameTable.
    destruct (PcfParser.getEndianessFromFormat format) as [e1 e2].
    destruct (BinaryParser.parse _ buf) as [[[[f c] o] s]|e'] eqn:Hhead.
    + cbn [mbind result_bind].
      destruct (mapM _ o) as [strings|e'] eqn:Hstrings; [done|].
      cbn. intros [= <-].
      apply mapM_result_Err in Hstrings as (x & _ & Hx).
      eapply rangeOnly_parse; [|exact Hx]. range_only.
    + cbn. intros [= <-].
      eapply rangeOnly_parse; [|exact Hhead].
      unfold BinaryParser.uint32, BinaryParser.array. range_only.
  - unfold PcfParser.parseEncodingTable.
    destruct (PcfParser.getEndianessFromFormat format) as [e1 e2].
    apply rangeOnly_parse.
    unfold BinaryParser.uint32, BinaryParser.uint16, BinaryParser.array. range_only.
  - unfold PcfParser.parseMetricsTable.
    destruct (PcfParser.getEndianessFromFormat format) as [e1 e2].
    destruct (PcfParser.isCompressedMetrics format).
    + destruct (BinaryParser.parse _ buf) as [t|e'] eqn:Hhead; [done|].
      cbn. intros [= <-].
      eapply rangeOnly_parse; [|exact Hhead].
      unfold PcfParser.compressedEntryParser, BinaryParser.uint32,
        BinaryParser.uint16, BinaryParser.array. range_only.
    + apply rangeOnly_parse.
      unfold PcfParser.defaultEntryParser, BinaryParser.uint32,
        BinaryParser.uint16, BinaryParser.array. range_only.
  - unfold PcfParser.parseBitmapTable.
    destruct (PcfParser.getEndianessFromFormat format) as [e1 e2].
    destruct (BinaryParser.parse _ buf) as [[[[f c] o] s]|e'] eqn:Hhead; [done|].
    cbn. intros [= <-].
    eapply rangeOnly_parse; [|exact Hhead].
    unfold BinaryParser.uint32, BinaryParser.array. range_only.
Qed.

Lemma parseTable_RangeError (buf : list byte) (pcf : Pcf.t) (entry : TocEntry.t)
    (e : error) :
  PcfParser.parseTable buf pcf entry = Err e → e = RangeError.
Proof.
  destruct (decoders_RangeError buf (TocEntry.offset entry) (TocEntry.format entry) e)
    as (Hn & He & Hm & Hb).
  rewrite parseTable_eq. cbv zeta.
  repeat match goal with
         | |- context [?a =? ?b] => destruct (a =? b)
         end; try done;
    match goal with
    | |- context [?d buf ?o ?f ≫= _] => destruct (d buf o f) eqn:Hd; [done|]
    end; cbn; intros [= <-]; auto.
Qed.

Lemma parseTables_RangeError (buf : list byte) (entries : list TocEntry.t)
    (pcf : Pcf.t) (e : error) :
  PcfParser.parseTables buf pcf entries = Err e → e = RangeError.
Proof.
  revert pcf. induction entries as [|entry entries IH]; intros pcf; [done|].
  cbn [PcfParser.parseTables].
  destruct (PcfParser.parseTable buf pcf entry) as [pcf1|e'] eqn:Hentry.
  - apply IH.
  - cbn. intros [= <-]. by eapply parseTable_RangeError.
Qed.

(** [parse], with the test of the signature made on the first four
    bytes of the file. *)
Lemma parse_eq (buf : list byte) :
  PcfParser.parse buf =
    match BinaryParser.parse PcfParser.mainParser buf with
    | Ok pcf0 =>
        if decide (take 4 buf = PcfParser.PCF_MAGIC) then
          match PcfParser.parseTables buf pcf0 (Pcf.tocEntry pcf0) with
          | Ok pcf =>
              match Pcf.metricsTable pcf with
              | Some _ => Ok pcf
              | None => Err TypeError
              end
          | Err e => Err e
          end
        else Err NotValidPcf
    | Err e => Err e
    end.
Proof.
  unfold PcfParser.parse.
  destruct (BinaryParser.parse PcfParser.mainParser buf) as [pcf0|e] eqn:Hmain;
    [|done].
  cbn [mbind result_bind].
  assert (Hheader : Pcf.header pcf0 = take 4 buf).
  { rewrite mainParser_eq in Hmain. cbv zeta in Hmain.
    case_decide; [|done]. by injection Hmain as <-. }
  rewrite Hheader.
  destruct (decide (take 4 buf = PcfParser.PCF_MAGIC)) as [Hm|Hm].
  - rewrite bool_decide_eq_false_2 by (by intros ?).
    destruct (PcfParser.parseTables buf pcf0 (Pcf.tocEntry pcf0)) as [pcf|e]; [|done].
    cbn. by destruct (Pcf.metricsTable pcf).
  - by rewrite bool_decide_eq_true_2.
Qed.

(** X5.  What a successful [parse] guarantees.  The file starts with the
    signature; the table of contents is the [tableCount] sixteen-byte
    entries that follow byte 8, all inside the file, each read as four
    little-endian words; the metrics table is set, and the directory has
    an entry of the metrics kind; each of the three other tables is set
    exactly when the directory has an entry of its kind. *)
Theorem parse_ok_directory (buf : list byte) (pcf : Pcf.t) :
  PcfParser.parse buf = Ok pcf →
  take 4 buf = PcfParser.PCF_MAGIC ∧
  Pcf.header pcf = PcfParser.PCF_MAGIC ∧
  Pcf.tableCount pcf = u32At BinaryParser.little buf 4 ∧
  8 + 16 * Pcf.tableCount pcf ≤ Z.of_nat (length buf) ∧
  Z.of_nat (length (Pcf.tocEntry pcf)) = Pcf.tableCount pcf ∧
  (∀ i, 0 ≤ i < Pcf.tableCount pcf →
     JS.index (Pcf.tocEntry pcf) i =
       Some (TocEntry.Build
               (u32At BinaryParser.little buf (8 + 16 * i))
               (u32At BinaryParser.little buf (8 + 16 * i + 4))
               (u32At BinaryParser.little buf (8 + 16 * i + 8))
               (u32At BinaryParser.little buf (8 + 16 * i + 12)))) ∧
  is_Some (Pcf.metricsTable pcf) ∧
  Exists (λ entry, tableKind entry = 4) (Pcf.tocEntry pcf) ∧
  (is_Some (Pcf.glyphNameTable pcf)
   ↔ Exists (λ entry, tableKind entry = 128) (Pcf.tocEntry pcf)) ∧
  (is_Some (Pcf.encodingTable pcf)
   ↔ Exists (λ entry, tableKind entry = 32) (Pcf.tocEntry pcf)) ∧
  (is_Some (Pcf.bitmapTable pcf)
   ↔ Exists (λ entry, tableKind entry = 8) (Pcf.tocEntry pcf)).
Proof.
  rewrite parse_eq, mainParser_eq. cbv zeta.
  case_decide as Hfit; [|done].
  case_decide as Hmagic; [|done].
  match goal with
  | |- context [PcfParser.parseTables buf ?p ?l] =>
      set (pcf0 := p);
      destruct (PcfParser.parseTables buf pcf0 (Pcf.tocEntry pcf0)) as [pcf1|e] eqn:Htables;
        [|done]
  end.
  destruct (Pcf.metricsTable pcf1) as [mt|] eqn:Hmt; [|done].
  intros [= <-].
  pose proof (u32At_range BinaryParser.little buf 4) as Hcount.
  destruct (parseTables_directory _ _ _ _ Htables) as (Hh & Hc & Htoc).
  destruct (parseTables_tables _ _ _ _ Htables) as (Hn & He & Hm & Hb).
  rewrite Hh, Hc, Htoc. subst pcf0.
  cbn [Pcf.header Pcf.tableCount Pcf.tocEntry Pcf.glyphNameTable
       Pcf.encodingTable Pcf.metricsTable Pcf.bitmapTable] in *.
  split; [done|]. split; [done|]. split; [done|]. split; [lia|].
  split; [rewrite length_fmap, length_seq; lia|].
  split.
  { intros i Hi. rewrite index_fmap_seq by lia. cbv beta.
    by rewrite Z2Nat.id by lia. }
  split; [by eexists|].
  split.
  { apply lastOfKind_Some. rewrite Hmt in Hm.
    destruct (lastOfKind 4 _); [by eexists | done]. }
  split; [|split]; rewrite <- lastOfKind_Some.
  - destruct (lastOfKind 128 _).
    + destruct Hn as (tn & _ & ->). split; intros _; by eexists.
    + rewrite Hn. split; intros [? ?]; done.
  - destruct (lastOfKind 32 _).
    + destruct He as (te & _ & ->). split; intros _; by eexists.
    + rewrite He. split; intros [? ?]; done.
  - destruct (lastOfKind 8 _).
    + destruct Hb as (tb & _ & ->). split; intros _; by eexists.
    + rewrite Hb. split; intros [? ?]; done.
Qed.

Lemma parse_ok_directory_witness :
  ∃ pcf, PcfParser.parse sampleFile = Ok pcf ∧
         Pcf.tableCount pcf = u32At BinaryParser.little sampleFile 4 ∧
         Exists (λ entry, tableKind entry = 4) (Pcf.tocEntry pcf).
Proof.
  destruct (PcfParser.parse sampleFile) as [pcf|e] eqn:Hparse;
    [|vm_compute in Hparse; discriminate Hparse].
  exists pcf. split; [reflexivity|].
  pose proof (parse_ok_directory sampleFile pcf Hparse) as H.
  split; [apply H | apply H].
Defined.

(** X6.  [parse] ends with a [TypeError] (its last statement reads
    [metricsTable.metricsCount] of an undefined table) exactly when
    everything else went well and the directory has no entry of the
    metrics kind: the directory is read, the signature is right, every
    table of the directory decodes. *)
Theorem parse_without_metrics_entry (buf : list byte) :
  PcfParser.parse buf = Err TypeError ↔
  ∃ pcf0 pcf,
    BinaryParser.parse PcfParser.mainParser buf = Ok pcf0 ∧
    take 4 buf = PcfParser.PCF_MAGIC ∧
    PcfParser.parseTables buf pcf0 (Pcf.tocEntry pcf0) = Ok pcf ∧
    Forall (λ entry, tableKind entry ≠ 4) (Pcf.tocEntry pcf0).
Proof.
  rewrite parse_eq. split.
  - destruct (BinaryParser.parse PcfParser.mainParser buf) as [pcf0|e] eqn:Hmain.
    + case_decide as Hmagic; [|done].
      destruct (PcfParser.parseTables buf pcf0 (Pcf.tocEntry pcf0)) as [pcf|e]
        eqn:Htables.
      * destruct (Pcf.metricsTable pcf) as [mt|] eqn:Hmt; [done|]. intros _.
        exists pcf0, pcf. split; [done|]. split; [done|]. split; [done|].
        apply lastOfKind_None.
        destruct (parseTables_tables _ _ _ _ Htables) as (_ & _ & Hm & _).
        destruct (lastOfKind 4 _); [|done].
        destruct Hm as (tm & _ & Ht). congruence.
      * intros [= ->]. by apply parseTables_RangeError in Htables.
    + intros [= ->]. rewrite mainParser_eq in Hmain. cbv zeta in Hmain.
      by case_decide.
  - intros (pcf0 & pcf & Hmain & Hmagic & Htables & Hnone).
    rewrite Hmain, decide_True, Htables by done.
    destruct (parseTables_tables _ _ _ _ Htables) as (_ & _ & Hm & _).
    apply lastOfKind_None in Hnone. rewrite Hnone in Hm. rewrite Hm.
    rewrite mainParser_eq in Hmain. cbv zeta in Hmain.
    case_decide; [|done]. by injection Hmain as <-.
Qed.

Lemma parse_without_metrics_entry_witness :
  PcfParser.parse sampleNoMetrics = Err TypeError.
Proof.
  apply (proj2 (parse_without_metrics_entry sampleNoMetrics)).
  eexists _, _. split; [vm_compute; reflexivity|].
  split; [reflexivity|]. split; [vm_compute; reflexivity|].
  repeat constructor; vm_compute; discriminate.
Defined.

(** X7.  When the directory lists several tables of one kind, the loop
    of [parse] decodes each of them and keeps the last: after the loop the
    table of the kind of [entry] is the one decoded at the offset and with
    the format of [entry], provided no later entry has the same kind. *)
Theorem last_directory_entry_wins (buf : list byte) (pcf pcf' : Pcf.t)
    (before after : list TocEntry.t) (entry : TocEntry.t) :
  PcfParser.parseTables buf pcf (before ++ entry :: after) = Ok pcf' →
  Forall (λ later, tableKind later ≠ tableKind entry) after →
  let offset := TocEntry.offset entry in
  let format := TocEntry.format entry in
  (tableKind entry = 128 →
   ∃ t, PcfParser.parseGlyphNameTable buf offset format = Ok t ∧
        Pcf.glyphNameTable pcf' = Some t) ∧
  (tableKind entry = 32 →
   ∃ t, PcfParser.parseEncodingTable buf offset format = Ok t ∧
        Pcf.encodingTable pcf' = Some t) ∧
  (tableKind entry = 4 →
   ∃ t, PcfParser.parseMetricsTable buf offset format = Ok t ∧
        Pcf.metricsTable pcf' = Some t) ∧
  (tableKind entry = 8 →
   ∃ t, PcfParser.parseBitmapTable buf offset format = Ok t ∧
        Pcf.bitmapTable pcf' = Some t).
Proof.
  intros Htables Hafter offset format.
  destruct (parseTables_tables _ _ _ _ Htables) as (Hn & He & Hm & Hb).
  split; [|split; [|split]]; intros Hk; rewrite Hk in Hafter.
  - by rewrite (lastOfKind_middle 128 before after entry Hk Hafter) in Hn.
  - by rewrite (lastOfKind_middle 32 before after entry Hk Hafter) in He.
  - by rewrite (lastOfKind_middle 4 before after entry Hk Hafter) in Hm.
  - by rewrite (lastOfKind_middle 8 before after entry Hk Hafter) in Hb.
Qed.

Lemma last_directory_entry_wins_witness :
  ∃ pcf t,
    PcfParser.parse sampleTwoMetrics = Ok pcf ∧
    PcfParser.parseMetricsTable sampleTwoMetrics 51 0x100 = Ok t ∧
    Pcf.metricsTable pcf = Some t ∧
    MetricsTable.metrics t = [MetricsEntry.Build 1 2 3 4 5 0].
Proof.
  destruct (PcfParser.parse sampleTwoMetrics) as [pcf|e] eqn:Hparse;
    [|vm_compute in Hparse; discriminate Hparse].
  set (entry0 := TocEntry.Build 4 0x100 11 40).
  set (entry1 := TocEntry.Build 4 0x100 11 51).
  assert (Htables :
    PcfParser.parseTables sampleTwoMetrics
      (Pcf.Build PcfParser.PCF_MAGIC 2 [entry0; entry1] None None None None)
      ([entry0] ++ entry1 :: []) = Ok pcf).
  { rewrite <- Hparse. vm_compute. reflexivity. }
  destruct (proj1 (proj2 (proj2
              (last_directory_entry_wins _ _ _ _ _ _ Htables ltac:(constructor))))
              ltac:(reflexivity)) as (t & Ht & Hpcf).
  exists pcf, t. split; [reflexivity|]. split; [exact Ht|]. split; [exact Hpcf|].
  vm_compute in Ht. by injection Ht as <-.
Defined.

(** X8.  The only exception that reading the directory or decoding a
    table can raise is the [RangeError] of a read past the end of the
    buffer, whatever the offset and the format.  So [parse] raises a
    [RangeError], or the invalid-file error on a wrong signature, or a
    [TypeError] with a right signature. *)
Theorem decoding_errors_are_range_errors (buf : list byte) (e : error) :
  (∀ offset format,
     (PcfParser.parseGlyphNameTable buf offset format = Err e → e = RangeError) ∧
     (PcfParser.parseEncodingTable buf offset format = Err e → e = RangeError) ∧
     (PcfParser.parseMetricsTable buf offset format = Err e → e = RangeError) ∧
     (PcfParser.parseBitmapTable buf offset format = Err e → e = RangeError)) ∧
  (BinaryParser.parse PcfParser.mainParser buf = Err e → e = RangeError) ∧
  (∀ pcf entries, PcfParser.parseTables buf pcf entries = Err e → e = RangeError) ∧
  (PcfParser.parse buf = Err e →
   e = RangeError ∨
   (e = NotValidPcf ∧ take 4 buf ≠ PcfParser.PCF_MAGIC) ∨
   (e = TypeError ∧ take 4 buf = PcfParser.PCF_MAGIC)).
Proof.
  split; [intros offset format; apply decoders_RangeError|].
  assert (Hmain : BinaryParser.parse PcfParser.mainParser buf = Err e → e = RangeError).
  { rewrite mainParser_eq. cbv zeta. case_decide; [done|]. by intros [= <-]. }
  split; [exact Hmain|].
  split; [intros pcf entries; apply parseTables_RangeError|].
  rewrite parse_eq.
  destruct (BinaryParser.parse PcfParser.mainParser buf) as [pcf0|e0].
  - case_decide as Hmagic.
    + destruct (PcfParser.parseTables buf pcf0 (Pcf.tocEntry pcf0)) as [pcf|e1] eqn:Htables.
      * destruct (Pcf.metricsTable pcf); [done|]. intros [= <-]. right. right. done.
      * intros [= <-]. left. by eapply parseTables_RangeError.
    + intros [= <-]. right. left. done.
  - intros H. left. by apply Hmain.
Qed.

Lemma decoding_errors_are_range_errors_witness :
  PcfParser.parse sampleTruncated = Err RangeError.
Proof.
  destruct (PcfParser.parse sampleTruncated) as [pcf|e] eqn:Hparse;
    [vm_compute in Hparse; discriminate Hparse|].
  destruct (proj2 (proj2 (proj2 (decoding_errors_are_range_errors sampleTruncated e)))
              Hparse) as [->|[[_ Hm]|[_ Hm]]]; [reflexivity| |].
  - exfalso. apply Hm. reflexivity.
  - vm_compute in Hparse. symmetry. exact Hparse.
Defined.


(** ** When the decoders return *)

Lemma zeroTerminated_returns (s : list byte) :
  returns (BinaryParser.zeroTerminated s) ↔ x00 ∈ s.
Proof.
  split.
  - intros [[str r] Hz]. apply zeroTerminated_Ok in Hz as [-> _].
    apply elem_of_app. right. by left.
  - intros Hin. destruct (BinaryParser.zeroTerminated s) as [r|e] eqn:Hz;
      [by exists r|].
    apply zeroTerminated_Err in Hz as [_ Hall].
    rewrite Forall_forall in Hall. by destruct (Hall x00 Hin).
Qed.

Lemma mapM_returns {A B : Type} (f : A → result B) (l : list A) :
  returns (mapM f l) ↔ Forall (λ x, returns (f x)) l.
Proof.
  split.
  - intros [ks Hks]. apply mapM_result_Ok in Hks.
    induction Hks as [|x k l ks Hx _ IH]; constructor; [by exists k | exact IH].
  - induction 1 as [|x l [k Hk] _ [ks Hks]]; [by exists []|].
    exists (k :: ks). cbn [mapM]. by rewrite Hk, Hks.
Qed.

(** X9.  When the decoders return.  The encoding, metrics and bitmap
    decoders return exactly when the fixed fields and the declared
    entries lie inside the buffer (an encoding table whose entry count is
    not positive needs its 14 header bytes only).  The glyph-name decoder
    returns exactly when its header and offsets lie inside the buffer and
    a zero byte follows the start of every name. *)
Theorem decoders_return_exactly_when_fit (buf : list byte) (offset format : Z) :
  0 ≤ offset →
  let e := formatEndianess format in
  let len := Z.of_nat (length buf) in
  (returns (PcfParser.parseGlyphNameTable buf offset format) ↔
   let count := u32At e buf (offset + 4) in
   offset + 8 + 4 * count + 4 ≤ len ∧
   ∀ i, 0 ≤ i < count →
     x00 ∈ drop (Z.to_nat (offset + (8 + 4 * count + 4)
                           + u32At e buf (offset + 8 + 4 * i))) buf) ∧
  (returns (PcfParser.parseEncodingTable buf offset format) ↔
   let count := (u16At e buf (offset + 6) - u16At e buf (offset + 4) + 1) *
                (u16At e buf (offset + 10) - u16At e buf (offset + 8) + 1) in
   offset + 14 ≤ len ∧ (count ≤ 0 ∨ offset + 14 + 2 * count ≤ len)) ∧
  (returns (PcfParser.parseMetricsTable buf offset format) ↔
   if PcfParser.isCompressedMetrics format
   then offset + 6 + 5 * u16At e buf (offset + 4) ≤ len
   else offset + 8 + 12 * u32At e buf (offset + 4) ≤ len) ∧
  (returns (PcfParser.parseBitmapTable buf offset format) ↔
   offset + 8 + 4 * u32At e buf (offset + 4) + 16 ≤ len).
Proof.
  intros Hoffset e len. split; [|split; [|split]].
  - rewrite parseGlyphNameTable_eq by done. cbv zeta. fold e len.
    pose proof (u32At_range e buf (offset + 4)) as Hcount.
    case_decide as Hfit.
    + match goal with
      | |- returns (mapM ?f ?l ≫= _) ↔ _ =>
          assert (Hmap : returns (mapM f l ≫= (λ strings,
                    mret (GlyphNameTable.Build (u32At BinaryParser.little buf offset)
                            (u32At e buf (offset + 4)) l
                            (u32At e buf (offset + 8 + 4 * u32At e buf (offset + 4)))
                            strings)))
                  ↔ returns (mapM f l))
      end.
      { split.
        - intros [t Ht]. destruct (mapM _ _) as [strings|err]; [by eexists | done].
        - intros [strings Hs]. rewrite Hs. by eexists. }
      rewrite Hmap, mapM_returns, Forall_fmap, Forall_forall.
      split.
      * intros Hall. split; [lia|]. intros i Hi.
        specialize (Hall (Z.to_nat i)).
        assert (Hin : Z.to_nat i ∈ seq 0 (Z.to_nat (u32At e buf (offset + 4)))).
        { apply elem_of_seq. lia. }
        apply Hall in Hin. cbn [compose] in Hin.
        rewrite Z2Nat.id in Hin by lia.
        rewrite parse_unfold, run_bind, run_seek in Hin.
        cbn [BinaryParser.runParser BinaryParser.string_zeroTerminated] in Hin.
        apply zeroTerminated_returns.
        replace (offset + (8 + 4 * u32At e buf (offset + 4) + 4)
                 + u32At e buf (offset + 8 + 4 * i))
          with (offset + (4 * 2 + 4 * u32At e buf (offset + 4) + 4)
                + u32At e buf (offset + 8 + 4 * i)) by lia.
        destruct Hin as [name Hname].
        destruct (BinaryParser.zeroTerminated _) as [[str r]|err]; [by eexists | done].
      * intros [_ Hall] i Hi. apply elem_of_seq in Hi. cbn [compose].
        specialize (Hall (Z.of_nat i) ltac:(lia)).
        replace (offset + (8 + 4 * u32At e buf (offset + 4) + 4)
                 + u32At e buf (offset + 8 + 4 * Z.of_nat i))
          with (offset + (4 * 2 + 4 * u32At e buf (offset + 4) + 4)
                + u32At e buf (offset + 8 + 4 * Z.of_nat i)) in Hall by lia.
        apply zeroTerminated_returns in Hall as [[str r] Hz].
        rewrite parse_unfold, run_bind, run_seek.
        cbn [BinaryParser.runParser BinaryParser.string_zeroTerminated].
        rewrite Hz. by eexists.
    + split; [by intros [t Ht] | intros [Hfit' _]; lia].
  - rewrite parseEncodingTable_eq by done. cbv zeta. fold e len.
    case_decide as Hfit; [split; [done | by eexists]|].
    split; [by intros [t Ht] | done].
  - destruct (PcfParser.isCompressedMetrics format) eqn:Hc.
    + rewrite parseMetricsTable_compressed_eq by done. cbv zeta. fold e len.
      pose proof (u16At_range e buf (offset + 4)) as Hcount.
      case_decide as Hfit; [split; [lia | by eexists]|].
      split; [by intros [t Ht] | lia].
    + rewrite parseMetricsTable_default_eq by done. cbv zeta. fold e len.
      pose proof (u32At_range e buf (offset + 4)) as Hcount.
      case_decide as Hfit; [split; [lia | by eexists]|].
      split; [by intros [t Ht] | lia].
  - rewrite parseBitmapTable_eq by done. cbv zeta. fold e len.
    case_decide as Hfit; [split; [done | by eexists]|].
    split; [by intros [t Ht] | done].
Qed.

Lemma decoders_return_exactly_when_fit_witness :
  returns (PcfParser.parseGlyphNameTable sampleGlyphNamesBE 0 4) ∧
  ¬ returns (PcfParser.parseBitmapTable sampleGlyphNamesBE 0 4).
Proof.
  pose proof (decoders_return_exactly_when_fit sampleGlyphNamesBE 0 4 ltac:(lia))
    as (Hnames & _ & _ & Hbitmaps).
  split.
  - by eexists.
  - intros Hret. apply Hbitmaps in Hret. vm_compute in Hret. by apply Hret.
Defined.


(** ** The bytes of a glyph *)

Lemma index_None {A : Type} (l : list A) (i : Z) :
  JS.index l i = None ↔ i < 0 ∨ Z.of_nat (length l) ≤ i.
Proof.
  unfold JS.index. destruct (Z.ltb_spec i 0) as [Hi|Hi].
  - split; [by left | done].
  - rewrite lookup_ge_None. lia.
Qed.

Lemma slice_nonneg {A : Type} (buf : list A) (start stop : Z) :
  0 ≤ start → 0 ≤ stop →
  let len := Z.of_nat (length buf) in
  Z.of_nat (length (JS.slice buf (Some start) (Some stop)))
    = Z.max 0 (Z.min stop len - Z.min start len) ∧
  ∀ k, 0 ≤ k < Z.of_nat (length (JS.slice buf (Some start) (Some stop))) →
    JS.index (JS.slice buf (Some start) (Some stop)) k = JS.index buf (start + k).
Proof.
  intros Hstart Hstop len. unfold JS.slice, JS.sliceIndex. fold len.
  destruct (Z.ltb_spec start 0); [lia|]. destruct (Z.ltb_spec stop 0); [lia|].
  assert (Hlen : Z.of_nat (length (take (Z.to_nat (Z.min stop len - Z.min start len))
                                     (drop (Z.to_nat (Z.min start len)) buf)))
                 = Z.max 0 (Z.min stop len - Z.min start len)).
  { rewrite length_take, length_drop. lia. }
  split; [exact Hlen|].
  intros k Hk. rewrite Hlen in Hk.
  unfold JS.index. destruct (Z.ltb_spec k 0); [lia|].
  destruct (Z.ltb_spec (start + k) 0); [lia|].
  rewrite lookup_take_lt by lia. rewrite lookup_drop. f_equal. lia.
Qed.

(** X10.  The bytes [getGlyphBitmap] returns.  For a glyph whose two
    ends [start] and [stop] are defined and not negative, the result is
    the run of bytes of the file from [start] up to [stop], both clamped
    to the length of the file: byte [k] of the result is byte
    [start + k] of the file, and there are [stop - start] of them when
    [start <= stop <= length]. *)
Theorem glyph_bitmap_bytes (rawBuffer : list byte) (pcf : Pcf.t) (glyphCode : Z)
    (t : BitmapTable.t) (glyphIndex start stop : Z) :
  Pcf.bitmapTable pcf = Some t →
  Accessor.glyphIndexOf pcf glyphCode = Ok (Some glyphIndex) →
  Accessor.glyphBitmapRange t (Some glyphIndex) = (Some start, Some stop) →
  0 ≤ start → 0 ≤ stop →
  let len := Z.of_nat (length rawBuffer) in
  ∃ bitmap,
    Accessor.getGlyphBitmap rawBuffer pcf glyphCode = Ok bitmap ∧
    Z.of_nat (length bitmap) = Z.max 0 (Z.min stop len - Z.min start len) ∧
    (start ≤ stop ≤ len → Z.of_nat (length bitmap) = stop - start) ∧
    ∀ k, 0 ≤ k < Z.of_nat (length bitmap) →
      JS.index bitmap k = JS.index rawBuffer (start + k).
Proof.
  intros Hbt Hindex Hrange Hstart Hstop len.
  exists (JS.slice rawBuffer (Some start) (Some stop)).
  destruct (slice_nonneg rawBuffer start stop Hstart Hstop) as [Hlen Hbytes].
  split.
  - unfold Accessor.getGlyphBitmap. rewrite Hindex. cbn [mbind result_bind].
    by rewrite Hbt, Hrange.
  - split; [exact Hlen|]. split; [fold len in Hlen; lia | exact Hbytes].
Qed.

(** X11.  The accessors on a code point outside the encoding table.  The
    glyph index is then undefined; no accessor raises: the name and the
    metrics are undefined, and the bitmap is not empty but the file from
    its first byte up to [bitmapSize + bitmapsBaseOffset] (the start is
    [NaN], which [slice] reads as 0). *)
Theorem accessors_without_glyph_index (rawBuffer : list byte) (pcf : Pcf.t)
    (glyphCode : Z) (enc : EncodingTable.t) (names : GlyphNameTable.t)
    (mt : MetricsTable.t) (bt : BitmapTable.t) :
  Pcf.encodingTable pcf = Some enc →
  Pcf.glyphNameTable pcf = Some names →
  Pcf.metricsTable pcf = Some mt →
  Pcf.bitmapTable pcf = Some bt →
  (glyphCode < 0 ∨ Z.of_nat (length (EncodingTable.glyphIndeces enc)) ≤ glyphCode) →
  Accessor.getGlyphName pcf glyphCode = Ok None ∧
  Accessor.getGlyphMetrics pcf glyphCode = Ok None ∧
  Accessor.getGlyphBitmap rawBuffer pcf glyphCode =
    Ok (JS.slice rawBuffer None
          (JS.add (BitmapTable.bitmapSize bt)
             (Some (BitmapTable.bitmapsBaseOffset bt)))) ∧
  (∀ size,
     BitmapTable.bitmapSize bt = Some size →
     0 ≤ size + BitmapTable.bitmapsBaseOffset bt →
     Accessor.getGlyphBitmap rawBuffer pcf glyphCode =
       Ok (take (Z.to_nat (size + BitmapTable.bitmapsBaseOffset bt)) rawBuffer)).
Proof.
  intros Henc Hnames Hmt Hbt Hcode.
  apply index_None in Hcode.
  assert (Hindex : Accessor.glyphIndexOf pcf glyphCode = Ok None).
  { unfold Accessor.glyphIndexOf. by rewrite Henc, Hcode. }
  assert (Hbitmap : Accessor.getGlyphBitmap rawBuffer pcf glyphCode =
    Ok (JS.slice rawBuffer None
          (JS.add (BitmapTable.bitmapSize bt)
             (Some (BitmapTable.bitmapsBaseOffset bt))))).
  { unfold Accessor.getGlyphBitmap. rewrite Hindex. cbn [mbind result_bind].
    rewrite Hbt. reflexivity. }
  split; [|split; [|split]].
  - unfold Accessor.getGlyphName. rewrite Hindex. cbn [mbind result_bind].
    by rewrite Hnames.
  - unfold Accessor.getGlyphMetrics. rewrite Hindex. cbn [mbind result_bind].
    by rewrite Hmt.
  - exact Hbitmap.
  - intros size Hsize Hnonneg. rewrite Hbitmap, Hsize. f_equal.
    cbn [JS.add]. unfold JS.slice, JS.sliceIndex.
    destruct (Z.ltb_spec (size + BitmapTable.bitmapsBaseOffset bt) 0); [lia|].
    rewrite Z.sub_0_r. change (drop (Z.to_nat 0) rawBuffer) with rawBuffer.
    destruct (Z.le_ge_cases (size + BitmapTable.bitmapsBaseOffset bt)
                (Z.of_nat (length rawBuffer))).
    + by rewrite Z.min_l by lia.
    + rewrite Z.min_r by lia. rewrite Nat2Z.id.
      rewrite !take_ge by lia. done.
Qed.

Lemma glyph_bitmap_bytes_witness :
  ∃ pcf bitmap,
    PcfParser.parse sampleFont = Ok pcf ∧
    Accessor.getGlyphBitmap sampleFont pcf 1 = Ok bitmap ∧
    Z.of_nat (length bitmap) = 5 ∧
    JS.index bitmap 4 = JS.index sampleFont (168 + 4).
Proof.
  destruct (PcfParser.parse sampleFont) as [pcf|e] eqn:Hparse;
    [|vm_compute in Hparse; discriminate Hparse].
  destruct (Pcf.bitmapTable pcf) as [t|] eqn:Ht;
    [|vm_compute in Hparse; injection Hparse as <-; discriminate Ht].
  assert (Hindex : Accessor.glyphIndexOf pcf 1 = Ok (Some 1))
    by (vm_compute in Hparse; injection Hparse as <-; reflexivity).
  assert (Hrange : Accessor.glyphBitmapRange t (Some 1) = (Some 168, Some 173)).
  { vm_compute in Hparse. injection Hparse as <-.
    vm_compute in Ht. injection Ht as <-. reflexivity. }
  destruct (glyph_bitmap_bytes sampleFont pcf 1 t 1 168 173 Ht Hindex Hrange
              ltac:(lia) ltac:(lia)) as (bitmap & Hbitmap & _ & Hlen & Hbytes).
  exists pcf, bitmap. split; [reflexivity|]. split; [exact Hbitmap|].
  assert (Hl : Z.of_nat (length bitmap) = 5).
  { rewrite Hlen; [reflexivity|]. vm_compute. split; discriminate. }
  split; [exact Hl|]. apply Hbytes. lia.
Defined.

Lemma accessors_without_glyph_index_witness :
  ∃ pcf,
    PcfParser.parse sampleFont = Ok pcf ∧
    Accessor.getGlyphName pcf 3 = Ok None ∧
    Accessor.getGlyphBitmap sampleFont pcf 3 = Ok (take 173 sampleFont).
Proof.
  destruct (PcfParser.parse sampleFont) as [pcf|e] eqn:Hparse;
    [|vm_compute in Hparse; discriminate Hparse].
  exists pcf. split; [reflexivity|].
  destruct (Pcf.encodingTable pcf) as [enc|] eqn:Henc;
    [|vm_compute in Hparse; injection Hparse as <-; discriminate Henc].
  destruct (Pcf.glyphNameTable pcf) as [names|] eqn:Hnames;
    [|vm_compute in Hparse; injection Hparse as <-; discriminate Hnames].
  destruct (Pcf.metricsTable pcf) as [mt|] eqn:Hmt;
    [|vm_compute in Hparse; injection Hparse as <-; discriminate Hmt].
  destruct (Pcf.bitmapTable pcf) as [bt|] eqn:Hbt;
    [|vm_compute in Hparse; injection Hparse as <-; discriminate Hbt].
  assert (Hcode : 3 < 0 ∨ Z.of_nat (length (EncodingTable.glyphIndeces enc)) ≤ 3).
  { right. vm_compute in Hparse. injection Hparse as <-.
    vm_compute in Henc. injection Henc as <-. vm_compute. discriminate. }
  destruct (accessors_without_glyph_index sampleFont pcf 3 enc names mt bt
              Henc Hnames Hmt Hbt Hcode) as (Hname & _ & _ & Hprefix).
  split; [exact Hname|].
  assert (Hsize : BitmapTable.bitmapSize bt = Some 9 ∧
                  BitmapTable.bitmapsBaseOffset bt = 164).
  { vm_compute in Hparse. injection Hparse as <-.
    vm_compute in Hbt. injection Hbt as <-. split; reflexivity. }
  destruct Hsize as [Hsize Hbase].
  rewrite (Hprefix 9 Hsize) by (rewrite Hbase; lia).
  rewrite Hbase. reflexivity.
Defined.


(* ================================================================== *)
(** * Further properties of the converter *)
(* ================================================================== *)

(** ** The GB2312 set *)

Lemma elem_of_foldl_add_map (g : Z → Z) (l : list Z) (acc : gset Z) (x : Z) :
  x ∈ foldl (λ ret byte2, {[g byte2]} ∪ ret) acc l ↔
  (∃ byte2, byte2 ∈ l ∧ x = g byte2) ∨ x ∈ acc.
Proof.
  revert acc. induction l as [|b l IH]; intros acc; cbn [foldl].
  - split; [by right|]. intros [(b & Hb & _)|H]; [|done].
    by apply elem_of_nil in Hb.
  - rewrite IH, elem_of_union, elem_of_singleton. split.
    + intros [(b' & Hb' & ->)|[->|H]].
      * left. exists b'. split; [by right | done].
      * left. exists b. split; [by left | done].
      * by right.
    + intros [(b' & Hb' & ->)|H]; [|by right; right].
      apply elem_of_cons in Hb' as [->|Hb'].
      * right. by left.
      * left. by exists b'.
Qed.

Lemma elem_of_foldl_rows (g : Z → Z → Z) (l1 l2 : list Z) (acc : gset Z) (x : Z) :
  x ∈ foldl (λ ret byte1, foldl (λ ret byte2, {[g byte1 byte2]} ∪ ret) ret l2) acc l1 ↔
  (∃ byte1 byte2, byte1 ∈ l1 ∧ byte2 ∈ l2 ∧ x = g byte1 byte2) ∨ x ∈ acc.
Proof.
  revert acc. induction l1 as [|b l1 IH]; intros acc; cbn [foldl].
  - split; [by right|]. intros [(b1 & b2 & Hb & _)|H]; [|done].
    by apply elem_of_nil in Hb.
  - rewrite IH, (elem_of_foldl_add_map (g b)). split.
    + intros [(b1 & b2 & H1 & H2 & ->)|[(b2 & H2 & ->)|H]].
      * left. exists b1, b2. split; [by right | done].
      * left. exists b, b2. split; [by left | done].
      * by right.
    + intros [(b1 & b2 & H1 & H2 & ->)|H]; [|by right; right].
      apply elem_of_cons in H1 as [->|H1].
      * right. left. by exists b2.
      * left. by exists b1, b2.
Qed.

Lemma size_foldl_add_map (g : Z → Z) (l : list Z) (acc : gset Z) :
  (size (foldl (λ ret byte2, {[g byte2]} ∪ ret) acc l) ≤ length l + size acc)%nat.
Proof.
  revert acc. induction l as [|b l IH]; intros acc; cbn [foldl length]; [lia|].
  etrans; [apply IH|].
  rewrite size_union_alt, size_singleton.
  assert (Hle : (size (acc ∖ {[g b]}) ≤ size acc)%nat).
  { apply subseteq_size. intros x Hx. by apply elem_of_difference in Hx as [Hx _]. }
  lia.
Qed.

Lemma size_foldl_rows (g : Z → Z → Z) (l1 l2 : list Z) (acc : gset Z) :
  (size (foldl (λ ret byte1, foldl (λ ret byte2, {[g byte1 byte2]} ∪ ret) ret l2)
           acc l1)
   ≤ length l1 * length l2 + size acc)%nat.
Proof.
  revert acc. induction l1 as [|b l1 IH]; intros acc; cbn [foldl length]; [lia|].
  etrans; [apply IH|].
  pose proof (size_foldl_add_map (g b) l2 acc). lia.
Qed.

(** X12.  [GB2312_SET] holds exactly the code points that the decoder
    gives for the two-byte sequences whose first byte is in 0xA1..0xA9 or
    0xB0..0xF7 and whose second byte is in 0xA1..0xFE: at most
    81 * 94 = 7614 code points. *)
Theorem gb2312_set_membership (gbkDecode : Z → Z → Z) :
  (∀ code,
     code ∈ Converter.GB2312_SET gbkDecode ↔
     ∃ byte1 byte2,
       (0xA1 ≤ byte1 ≤ 0xA9 ∨ 0xB0 ≤ byte1 ≤ 0xF7) ∧
       0xA1 ≤ byte2 ≤ 0xFE ∧
       code = gbkDecode byte1 byte2) ∧
  Z.of_nat (size (Converter.GB2312_SET gbkDecode)) ≤ 7614.
Proof.
  unfold Converter.GB2312_SET. cbv zeta. split.
  - intros code. rewrite !elem_of_foldl_rows. split.
    + intros [(b1 & b2 & H1 & H2 & ->)|[(b1 & b2 & H1 & H2 & ->)|H]].
      * apply elem_of_seqZ in H1, H2. exists b1, b2.
        split; [right; lia|]. split; [lia | done].
      * apply elem_of_seqZ in H1, H2. exists b1, b2.
        split; [left; lia|]. split; [lia | done].
      * by apply elem_of_empty in H.
    + intros (b1 & b2 & [H1|H1] & H2 & ->).
      * right. left. exists b1, b2.
        split; [apply elem_of_seqZ; lia|]. split; [apply elem_of_seqZ; lia | done].
      * left. exists b1, b2.
        split; [apply elem_of_seqZ; lia|]. split; [apply elem_of_seqZ; lia | done].
  - match goal with
    | |- Z.of_nat (size (foldl ?f (foldl ?f' ∅ ?l1) ?l2)) ≤ _ =>
        pose proof (size_foldl_rows gbkDecode l2 (seqZ 0xA1 (0xFE - 0xA1 + 1))
                      (foldl f' ∅ l1)) as Hsecond;
        pose proof (size_foldl_rows gbkDecode l1 (seqZ 0xA1 (0xFE - 0xA1 + 1)) ∅)
          as Hfirst
    end.
    rewrite size_empty in Hfirst. rewrite !length_seqZ in Hfirst, Hsecond. lia.
Qed.


(** ** The pixels of a scanline *)

Lemma Z_of_byte_inj (b b' : byte) : Z_of_byte b = Z_of_byte b' → b = b'.
Proof.
  unfold Z_of_byte. intros Hz.
  assert (Hn : Byte.to_N b = Byte.to_N b') by lia.
  assert (Hs : Some b = Some b').
  { rewrite <- (Byte.of_to_N b), <- (Byte.of_to_N b'). by rewrite Hn. }
  congruence.
Qed.

(** X13.  [byteToBinaryString] of a byte is eight characters, each the
    black or the white pixel, that spell the byte in binary, most
    significant bit first: reading them back gives the byte, so that
    different bytes give different strings, none of which is the string
    given for a missing byte. *)
Theorem byte_pixels_round_trip (b : byte) :
  let pixels := Converter.byteToBinaryString (Some b) in
  length pixels = 8%nat ∧
  Forall (λ ch, ch = Converter.BLACK_PIXEL ∨ ch = Converter.WHITE_PIXEL) pixels ∧
  pixelsValue pixels = Z_of_byte b ∧
  pixels ≠ Converter.byteToBinaryString None ∧
  ∀ b', Converter.byteToBinaryString (Some b') = pixels → b' = b.
Proof.
  intros pixels.
  assert (Hvalue : ∀ c, pixelsValue (Converter.byteToBinaryString (Some c)) = Z_of_byte c).
  { intros c. destruct c; vm_compute; reflexivity. }
  split; [apply byteToBinaryString_length|].
  split.
  { subst pixels. rewrite byteToBinaryString_Some.
    apply Forall_fmap, Forall_forall. intros k _. cbn [compose].
    destruct (Z.testbit (Z_of_byte b) (7 - Z.of_nat k)); [by left | by right]. }
  split; [apply Hvalue|].
  split.
  { subst pixels. rewrite byteToBinaryString_Some. intros Heq.
    apply (f_equal (λ l, l !! 7%nat)) in Heq.
    rewrite list_lookup_fmap in Heq. cbn in Heq.
    destruct (Z.testbit _ _); vm_compute in Heq; discriminate Heq. }
  intros b' Heq.
  assert (Hz : Z_of_byte b' = Z_of_byte b).
  { rewrite <- (Hvalue b'), <- (Hvalue b). by rewrite Heq. }
  by apply Z_of_byte_inj.
Qed.

Lemma index_nonneg {A : Type} (l : list A) (i : Z) :
  0 ≤ i → JS.index l i = l !! Z.to_nat i.
Proof. intros Hi. unfold JS.index. by destruct (Z.ltb_spec i 0); [lia|]. Qed.

Lemma bitmapToBinaryLines_eq (bitmap : list byte) (width : Z) :
  Converter.bitmapToBinaryLines bitmap width =
    (λ k : nat, Converter.binaryLine bitmap width (4 * Z.of_nat k))
      <$> seq 0 (Z.to_nat ((Z.of_nat (length bitmap) + 3) / 4)).
Proof.
  unfold Converter.bitmapToBinaryLines.
  assert (Hfuel : (Z.of_nat (length bitmap) + 3) / 4 ≤ Z.of_nat (length bitmap)).
  { apply Z.lt_succ_r, Z.div_lt_upper_bound; lia. }
  rewrite binaryLinesFrom_eq by (rewrite Z.sub_0_r; exact Hfuel).
  rewrite Z.sub_0_r. reflexivity.
Qed.

Lemma packedLine_length (bitmap : list byte) (i : Z) :
  length (mjoin ((λ j : nat, Converter.byteToBinaryString
                               (JS.index bitmap (i + Z.of_nat j))) <$> seq 0 4))
    = 32%nat.
Proof.
  cbn [seq fmap list_fmap mjoin list_join].
  rewrite !length_app, !byteToBinaryString_length. reflexivity.
Qed.

Lemma packedLine_lookup (bitmap : list byte) (i x : Z) :
  0 ≤ x < 32 →
  mjoin ((λ j : nat, Converter.byteToBinaryString
                       (JS.index bitmap (i + Z.of_nat j))) <$> seq 0 4)
    !! Z.to_nat x
  = Converter.byteToBinaryString (JS.index bitmap (i + x / 8)) !! Z.to_nat (x mod 8).
Proof.
  intros Hx.
  pose proof (Z.div_mod x 8 ltac:(lia)) as Hdm.
  pose proof (Z.mod_pos_bound x 8 ltac:(lia)) as Hmb.
  assert (Hq : 0 ≤ x / 8 < 4).
  { split; [apply Z.div_pos; lia | apply Z.div_lt_upper_bound; lia]. }
  assert (Hsome : is_Some (Converter.byteToBinaryString (JS.index bitmap (i + x / 8))
                             !! Z.to_nat (x mod 8))).
  { apply lookup_lt_is_Some. rewrite byteToBinaryString_length. lia. }
  destruct Hsome as [ch Hch]. rewrite Hch.
  replace (Z.to_nat x) with (Z.to_nat (x / 8) * 8 + Z.to_nat (x mod 8))%nat by lia.
  apply (join_lookup_Some_same_length' 8).
  - apply Forall_fmap, Forall_forall. intros j _. apply byteToBinaryString_length.
  - lia.
  - eexists. split; [|exact Hch].
    rewrite list_lookup_fmap, lookup_seq_lt by lia. cbn.
    by rewrite Z2Nat.id by lia.
Qed.

(** X14.  Every pixel of an unpacked line.  A line has [min(width, 32)]
    characters ([max(32 + width, 0)] for a negative width).  The
    character in column [x] of line [y] is character [x mod 8] of the
    string of byte [4 y + x / 8]: black when the byte is inside the bitmap
    and its bit [7 - x mod 8] is set, white when the bit is clear, and
    never black when the byte is past the end of the bitmap. *)
Theorem bitmap_line_pixels (bitmap : list byte) (width y : Z) (line : list ascii) :
  JS.index (Converter.bitmapToBinaryLines bitmap width) y = Some line →
  let len := Z.of_nat (length bitmap) in
  Z.of_nat (length line)
    = (if width <? 0 then Z.max (32 + width) 0 else Z.min width 32) ∧
  ∀ x, 0 ≤ x < Z.of_nat (length line) →
    JS.index line x =
      JS.index (Converter.byteToBinaryString (JS.index bitmap (4 * y + x / 8)))
        (x mod 8) ∧
    (4 * y + x / 8 < len →
     JS.index line x =
       Some (if Z.testbit (byteAt bitmap (4 * y + x / 8)) (7 - x mod 8)
             then Converter.BLACK_PIXEL else Converter.WHITE_PIXEL)) ∧
    (len ≤ 4 * y + x / 8 →
     JS.index line x ≠ Some Converter.BLACK_PIXEL).
Proof.
  intros Hline len.
  rewrite bitmapToBinaryLines_eq in Hline.
  apply index_Some in Hline as [Hy Hline].
  apply list_lookup_fmap_Some in Hline as (k & -> & Hk).
  apply lookup_seq in Hk as [Hk _]. cbn in Hk. subst k.
  rewrite Z2Nat.id by lia. rewrite binaryLine_eq.
  set (packed := mjoin _).
  assert (Hpacked : length packed = 32%nat) by apply packedLine_length.
  assert (Hlen : Z.of_nat (length (JS.slice packed (Some 0) (Some width)))
                 = if width <? 0 then Z.max (32 + width) 0 else Z.min width 32).
  { unfold JS.slice, JS.sliceIndex. rewrite Hpacked.
    cbn [Z.ltb Z.compare]. rewrite length_take, length_drop, Hpacked.
    destruct (Z.ltb_spec width 0); lia. }
  split; [exact Hlen|].
  intros x Hx.
  assert (Hx32 : 0 ≤ x < 32).
  { rewrite Hlen in Hx. destruct (Z.ltb_spec width 0); lia. }
  pose proof (Z.mod_pos_bound x 8 ltac:(lia)) as Hmb.
  assert (Hpixel : JS.index (JS.slice packed (Some 0) (Some width)) x =
                   JS.index (Converter.byteToBinaryString
                               (JS.index bitmap (4 * y + x / 8))) (x mod 8)).
  { rewrite (index_nonneg _ x), (index_nonneg _ (x mod 8)) by lia.
    rewrite <- (packedLine_lookup bitmap (4 * y) x Hx32). fold packed.
    unfold JS.slice, JS.sliceIndex in Hx |- *. rewrite Hpacked in Hx |- *.
    cbn [Z.ltb Z.compare] in Hx |- *.
    rewrite length_take, length_drop, Hpacked in Hx.
    rewrite lookup_take_lt by lia. rewrite lookup_drop. reflexivity. }
  split; [exact Hpixel|]. split.
  - intros Hin. rewrite Hpixel.
    assert (Hbyte : is_Some (JS.index bitmap (4 * y + x / 8))).
    { assert (0 ≤ x / 8) by (apply Z.div_pos; lia).
      unfold JS.index. destruct (Z.ltb_spec (4 * y + x / 8) 0); [lia|].
      apply lookup_lt_is_Some. lia. }
    destruct Hbyte as [b Hb]. unfold byteAt. rewrite Hb.
    rewrite byteToBinaryString_Some.
    rewrite index_fmap_seq by lia. by rewrite Z2Nat.id by lia.
  - intros Hout Hblack. rewrite Hpixel in Hblack.
    apply index_Some in Hblack as [_ Hblack].
    apply byteToBinaryString_black in Hblack as (b & Hb & _).
    apply index_Some in Hb as [_ Hb]. apply lookup_lt_Some in Hb. lia.
Qed.

Lemma bitmap_line_pixels_witness :
  ∃ line,
    JS.index (Converter.bitmapToBinaryLines (bytes [0xA8; 0; 0; 0; 0x50]) 5) 1
      = Some line ∧
    Z.of_nat (length line) = 5 ∧
    JS.index line 1 = Some Converter.BLACK_PIXEL.
Proof.
  eexists. split; [vm_compute; reflexivity|].
  destruct (bitmap_line_pixels (bytes [0xA8; 0; 0; 0; 0x50]) 5 1 _
              ltac:(vm_compute; reflexivity)) as [Hlen Hpixels].
  split; [exact Hlen|].
  destruct (Hpixels 1 ltac:(rewrite Hlen; cbn; lia))
    as (_ & Hin & _).
  exact (Hin ltac:(vm_compute; reflexivity)).
Defined.


(** ** The sub-paths of an outline *)

Lemma elem_of_zip_seqZ {A : Type} (l : list A) (i : Z) (a : A) :
  (i, a) ∈ zip (seqZ 0 (Z.of_nat (length l))) l ↔ JS.index l i = Some a.
Proof.
  rewrite index_Some, list_elem_of_lookup. split.
  - intros (k & Hk). apply lookup_zip_with_Some in Hk as (i' & a' & Heq & Hi & Ha).
    injection Heq as -> ->. apply lookup_seqZ in Hi as [-> _].
    split; [lia|]. by rewrite Z.add_0_l, Nat2Z.id.
  - intros [Hi Ha]. exists (Z.to_nat i).
    apply lookup_zip_with_Some. exists i, a. split; [done|]. split; [|done].
    apply lookup_seqZ. apply lookup_lt_Some in Ha. lia.
Qed.

Lemma elem_of_linePixels (y : Z) (line : list ascii) (p : Z * Z) :
  p ∈ linePixels y line ↔
  p.2 = y ∧ JS.index line p.1 = Some Converter.BLACK_PIXEL.
Proof.
  unfold linePixels. rewrite list_elem_of_omap. split.
  - intros ([x ch] & Hin & Hp). apply elem_of_zip_seqZ in Hin.
    destruct (Ascii.eqb_spec ch Converter.BLACK_PIXEL) as [->|]; [|done].
    injection Hp as <-. done.
  - intros [Hy Hx]. exists (p.1, Converter.BLACK_PIXEL).
    split; [by apply elem_of_zip_seqZ|].
    rewrite Ascii.eqb_refl. destruct p; cbn in *. by subst.
Qed.

Lemma elem_of_setPixels (lines : list (list ascii)) (x y : Z) :
  (x, y) ∈ setPixels lines ↔
  ∃ line, JS.index lines y = Some line ∧
          JS.index line x = Some Converter.BLACK_PIXEL.
Proof.
  unfold setPixels. rewrite list_elem_of_bind. split.
  - intros ([y' line] & Hp & Hin). apply elem_of_linePixels in Hp as [Hy Hx].
    cbn in Hy, Hx. subst y'. apply elem_of_zip_seqZ in Hin. by exists line.
  - intros (line & Hy & Hx). exists (y, line).
    split; [by apply elem_of_linePixels | by apply elem_of_zip_seqZ].
Qed.

Section Outline.

Variable argv : Argv.t.

Lemma drawDot_app (path : list command) (corners : Q * Q * Q * Q) :
  Converter.drawDot argv path corners = path ++ Converter.drawDot argv [] corners.
Proof.
  destruct corners as [[[l t] r] b]. unfold Converter.drawDot.
  destruct (Argv.dot_shape argv); reflexivity.
Qed.

Lemma foldl_drawDot (dots : list (Q * Q * Q * Q)) (path : list command) :
  foldl (Converter.drawDot argv) path dots =
    path ++ mjoin (Converter.drawDot argv [] <$> dots).
Proof.
  revert path. induction dots as [|c dots IH]; intros path; cbn [foldl].
  - by rewrite app_nil_r.
  - rewrite IH, drawDot_app. cbn [fmap list_fmap mjoin list_join].
    by rewrite app_assoc.
Qed.

Lemma drawDot_closed (corners : Q * Q * Q * Q) :
  closedSubpath (Converter.drawDot argv [] corners) ∧
  length (Converter.drawDot argv [] corners) = 5%nat.
Proof.
  destruct corners as [[[l t] r] b]. unfold Converter.drawDot, closedSubpath.
  destruct (Argv.dot_shape argv); (split; [|reflexivity]);
    eexists _, _, _; (split; [reflexivity|]); split;
      [repeat constructor | reflexivity | repeat constructor | reflexivity
      | repeat constructor | reflexivity].
Qed.

End Outline.

(** X15.  The outline [vectorizeGlyph] builds.  It carries the name, the
    code point and the advance width [characterWidth * PIXEL_SIZE] of the
    glyph, and its path is one closed sub-path of five commands per black
    pixel, in scanning order, followed by the closing command: a move,
    then four lines or four curves of which the last ends where the move
    went.  The black pixels are the positions of the unpacked lines that
    hold the black character. *)
Theorem outline_is_closed_dots (argv : Argv.t) (glyphInfo : GlyphInfo.t)
    (metrics : MetricsEntry.t) :
  GlyphInfo.metrics glyphInfo = Some metrics →
  let lines :=
    Converter.bitmapToBinaryLines (GlyphInfo.bitmap glyphInfo)
      (MetricsEntry.characterWidth metrics) in
  let dots := glyphDots argv metrics (GlyphInfo.bitmap glyphInfo) in
  let subpaths := Converter.drawDot argv [] <$> dots in
  ∃ glyph,
    Converter.vectorizeGlyph argv glyphInfo = Ok glyph ∧
    Glyph.name glyph = GlyphInfo.name glyphInfo ∧
    Glyph.unicode glyph = GlyphInfo.code glyphInfo ∧
    Glyph.advanceWidth glyph =
      (inject_Z (MetricsEntry.characterWidth metrics) * Converter.PIXEL_SIZE argv)%Q ∧
    Glyph.path glyph = mjoin subpaths ++ [Zc] ∧
    Forall (λ sub, closedSubpath sub ∧ length sub = 5%nat) subpaths ∧
    length subpaths = length (setPixels lines) ∧
    length (Glyph.path glyph) = (5 * length (setPixels lines) + 1)%nat ∧
    (∀ x y, (x, y) ∈ setPixels lines ↔
            ∃ line, JS.index lines y = Some line ∧
                    JS.index line x = Some Converter.BLACK_PIXEL).
Proof.
  intros Hm lines dots subpaths.
  eexists. split; [apply vectorizeGlyph_eq, Hm|].
  cbn [Glyph.name Glyph.unicode Glyph.advanceWidth Glyph.path].
  split; [reflexivity|]. split; [reflexivity|]. split; [reflexivity|].
  assert (Hclosed : Forall (λ sub, closedSubpath sub ∧ length sub = 5%nat) subpaths).
  { apply Forall_fmap, Forall_forall. intros c _. apply drawDot_closed. }
  assert (Hcount : length subpaths = length (setPixels lines)).
  { subst subpaths dots. unfold glyphDots. by rewrite !length_fmap. }
  split; [by rewrite foldl_drawDot|]. split; [exact Hclosed|].
  split; [exact Hcount|]. split; [|apply elem_of_setPixels].
  rewrite foldl_drawDot, app_nil_l, length_app, length_join. fold dots subpaths.
  rewrite <- Hcount. cbn [length].
  assert (Hsum : ∀ l : list (list command),
             Forall (λ sub, closedSubpath sub ∧ length sub = 5%nat) l →
             sum_list (length <$> l) = (5 * length l)%nat).
  { induction 1 as [|sub l [_ Hsub] _ IH]; [reflexivity|].
    rewrite fmap_cons. cbn [sum_list length]. rewrite Hsub, IH. unfold id. lia. }
  rewrite (Hsum subpaths Hclosed). lia.
Qed.

Lemma outline_is_closed_dots_witness :
  ∃ glyph,
    Converter.vectorizeGlyph argvFull
      (GlyphInfo.Build 66 1 None (Some (MetricsEntry.Build 0 5 5 11 0 0))
         (bytes [0xA8; 0; 0; 0; 0x50])) = Ok glyph ∧
    length (Glyph.path glyph) = 26%nat.
Proof.
  destruct (outline_is_closed_dots argvFull
              (GlyphInfo.Build 66 1 None (Some (MetricsEntry.Build 0 5 5 11 0 0))
                 (bytes [0xA8; 0; 0; 0; 0x50]))
              (MetricsEntry.Build 0 5 5 11 0 0) eq_refl)
    as (glyph & Hglyph & _ & _ & _ & _ & _ & _ & Hlen & _).
  exists glyph. split; [exact Hglyph|]. rewrite Hlen. reflexivity.
Defined.


(** ** The boxes of the dots *)

Lemma pixel_size_positive (argv : Argv.t) :
  1 ≤ Argv.glyph_size_in_pixel argv →
  (0 < Converter.PIXEL_SIZE argv)%Q ∧
  (Converter.PIXEL_PADDING argv == Converter.PIXEL_SIZE argv * (1 # 9))%Q.
Proof.
  intros Hh. split; [|reflexivity].
  unfold Converter.PIXEL_SIZE, Converter.UNITS_PER_EM, Converter.PIXEL_HEIGHT, Qdiv.
  apply Qmult_lt_0_compat; [reflexivity|].
  apply Qinv_lt_0_compat. change 0%Q with (inject_Z 0). rewrite <- Zlt_Qlt. lia.
Qed.

Lemma Math_round_le (a b : Q) :
  (a <= b)%Q → (inject_Z (Converter.Math_round a) <= inject_Z (Converter.Math_round b))%Q.
Proof.
  intros Hab. rewrite <- Zle_Qle. unfold Converter.Math_round.
  apply Qfloor_resp_le. lra.
Qed.

(** X16.  For a pixel height of at least 1, the corners handed to the
    drawing functions are ordered ([left <= right], [bottom <= top]) and
    the boxes of two pixels do not overlap: the right edge of a pixel is
    not past the left edge of any pixel of a later column, and the top
    edge of a pixel of a later line is not above the bottom edge. *)
Theorem dots_do_not_overlap (argv : Argv.t) (xOffset yOffset glyphTop : Q)
    (x y x' y' : Z) :
  1 ≤ Argv.glyph_size_in_pixel argv →
  let '(left_, top_, right_, bottom_) :=
    Converter.dotCorners argv xOffset yOffset glyphTop x y in
  let '(left', top', right', bottom') :=
    Converter.dotCorners argv xOffset yOffset glyphTop x' y' in
  (left_ <= right_)%Q ∧ (bottom_ <= top_)%Q ∧
  (x < x' → (right_ <= left')%Q) ∧
  (y < y' → (top' <= bottom_)%Q).
Proof.
  intros Hh. rewrite !dotCorners_eq.
  destruct (pixel_size_positive argv Hh) as [Hp Hpad].
  set (P := Converter.PIXEL_SIZE argv) in *.
  set (pad := Converter.PIXEL_PADDING argv) in *.
  split; [|split; [|split]].
  - apply Math_round_le. lra.
  - apply Math_round_le. lra.
  - intros Hx. apply Math_round_le.
    assert (Hd : (0 <= (inject_Z x' - inject_Z x - 1) * P)%Q).
    { apply Qmult_le_0_compat; [|lra].
      assert (Hz : (inject_Z (x + 1) <= inject_Z x')%Q) by (rewrite <- Zle_Qle; lia).
      rewrite inject_Z_plus in Hz. change (inject_Z 1) with 1%Q in Hz. lra. }
    lra.
  - intros Hy. apply Math_round_le.
    assert (Hd : (0 <= (inject_Z y' - inject_Z y - 1) * P)%Q).
    { apply Qmult_le_0_compat; [|lra].
      assert (Hz : (inject_Z (y + 1) <= inject_Z y')%Q) by (rewrite <- Zle_Qle; lia).
      rewrite inject_Z_plus in Hz. change (inject_Z 1) with 1%Q in Hz. lra. }
    lra.
Qed.

Lemma dots_do_not_overlap_witness :
  let '(left_, top_, right_, bottom_) :=
    Converter.dotCorners argvFull 0 0 (10000 # 13) 0 0 in
  let '(left', top', right', bottom') :=
    Converter.dotCorners argvFull 0 0 (10000 # 13) 1 1 in
  (left_ <= right_)%Q ∧ (bottom_ <= top_)%Q ∧
  (0 < 1 → (right_ <= left')%Q) ∧
  (0 < 1 → (top' <= bottom_)%Q).
Proof.
  exact (dots_do_not_overlap argvFull 0 0 (10000 # 13) 0 0 1 1 ltac:(cbn; lia)).
Defined.


(** X17.  The three drawing functions on a square box (as wide as it is
    high, with [left <= right]): every point of the dot, the control
    points of the curves included, lies in the box; and a circle or a
    diamond touches the box at the middle of its four sides, where its
    moves, lines and curves end.  The radius is taken from the width
    alone. *)
Theorem dot_within_square_box (argv : Argv.t) (left_ top_ right_ bottom_ : Q) :
  (left_ <= right_)%Q →
  (top_ - bottom_ == right_ - left_)%Q →
  let path := Converter.drawDot argv [] (left_, top_, right_, bottom_) in
  Forall (λ c, Forall (inBox left_ top_ right_ bottom_) (commandPoints c)) path ∧
  (Argv.dot_shape argv ≠ square →
   Forall2 endsAt path
     [((left_ + right_) / 2, top_); (left_, (top_ + bottom_) / 2);
      ((left_ + right_) / 2, bottom_); (right_, (top_ + bottom_) / 2);
      ((left_ + right_) / 2, top_)]%Q).
Proof.
  intros Hlr Hsq path. subst path. unfold Converter.drawDot.
  destruct (Argv.dot_shape argv); split; try (intros Hs; by destruct Hs);
    try intros _;
    unfold Converter.drawSquareDot, Converter.drawCircleDot,
      Converter.drawDiamondDot; cbn [app];
    repeat match goal with
           | |- Forall _ [] => constructor
           | |- Forall _ (_ :: _) => constructor
           | |- Forall2 _ [] [] => constructor
           | |- Forall2 _ (_ :: _) (_ :: _) => constructor
           | |- Forall _ (commandPoints _) => cbn [commandPoints]
           | |- inBox _ _ _ _ _ =>
               unfold inBox, Qdiv; change (/ 2)%Q with (1 # 2)%Q; cbn [fst snd];
               repeat split; lra
           | |- endsAt _ _ =>
               eexists; split; [reflexivity|]; unfold Qdiv;
               change (/ 2)%Q with (1 # 2)%Q; cbn [fst snd]; split; lra
           end.
Qed.

Lemma dot_within_square_box_witness :
  Forall (λ c, Forall (inBox 9 761 68 702) (commandPoints c))
    (Converter.drawDot (Argv.Build 13 circle false false) [] (9, 761, 68, 702)%Q).
Proof.
  apply (dot_within_square_box (Argv.Build 13 circle false false) 9 761 68 702);
    [discriminate | reflexivity].
Defined.


(** ** The first revision *)

Section LegacyVectorize.

Variable argv : Argv.t.

Lemma legacy_vectorizeLine_eq (xOffset yOffset glyphTop : Q) (y : Z)
    (line : list ascii) (path : list command) :
  Legacy.vectorizeLine argv xOffset yOffset glyphTop path y line =
    foldl Legacy.drawDot path
      ((λ '(x, y), Legacy.dotCorners argv xOffset yOffset glyphTop x y)
         <$> linePixels y line).
Proof.
  unfold Legacy.vectorizeLine, linePixels.
  generalize (zip (seqZ 0 (Z.of_nat (length line))) line) as l.
  intros l. revert path. induction l as [|[x ch] l IH]; intros path.
  - reflexivity.
  - cbn [foldl omap list_omap]. rewrite IH.
    destruct (Ascii.eqb ch Converter.BLACK_PIXEL); reflexivity.
Qed.

Lemma legacy_vectorizeLines_eq (xOffset yOffset glyphTop : Q)
    (l : list (Z * list ascii)) (path : list command) :
  foldl (λ path '(y, line),
           Legacy.vectorizeLine argv xOffset yOffset glyphTop path y line)
    path l =
  foldl Legacy.drawDot path
    ((λ '(x, y), Legacy.dotCorners argv xOffset yOffset glyphTop x y)
       <$> (l ≫= (λ '(y, line), linePixels y line))).
Proof.
  revert path. induction l as [|[y line] l IH]; intros path.
  - reflexivity.
  - cbn [foldl mbind list_bind]. rewrite IH, legacy_vectorizeLine_eq.
    rewrite fmap_app, foldl_app. reflexivity.
Qed.

Lemma legacy_vectorizeGlyph_eq (glyphInfo : GlyphInfo.t) (metrics : MetricsEntry.t) :
  GlyphInfo.metrics glyphInfo = Some metrics →
  Legacy.vectorizeGlyph argv glyphInfo =
    Ok (Glyph.Build (GlyphInfo.name glyphInfo) (GlyphInfo.code glyphInfo)
          (inject_Z (MetricsEntry.characterWidth metrics)
           * Converter.PIXEL_SIZE argv)%Q
          (foldl Legacy.drawDot []
             (legacyDots argv metrics (GlyphInfo.bitmap glyphInfo)) ++ [Zc])).
Proof.
  intros Hm. unfold Legacy.vectorizeGlyph. rewrite Hm.
  cbv zeta. rewrite legacy_vectorizeLines_eq. reflexivity.
Qed.

Lemma legacy_foldl_drawDot (dots : list (Q * Q * Q * Q)) (path : list command) :
  foldl Legacy.drawDot path dots = path ++ mjoin (Legacy.drawDot [] <$> dots).
Proof.
  revert path. induction dots as [|[[[l t] r] b] dots IH]; intros path; cbn [foldl].
  - by rewrite app_nil_r.
  - rewrite IH. cbn [fmap list_fmap mjoin list_join].
    unfold Legacy.drawDot at 1 3. by rewrite app_nil_l, <- app_assoc.
Qed.

End LegacyVectorize.




Lemma square_dot_rounds_legacy (argv : Argv.t) (xOffset yOffset glyphTop : Q)
    (x y : Z) :
  Argv.dot_shape argv = square →
  Converter.drawDot argv [] (Converter.dotCorners argv xOffset yOffset glyphTop x y) =
    roundCommand <$>
      Legacy.drawDot [] (Legacy.dotCorners argv xOffset yOffset glyphTop x y).
Proof.
  intros Hshape. unfold Converter.drawDot, Converter.dotCorners,
    Converter.ScreenXyToFontXy. rewrite Hshape. reflexivity.
Qed.

(** X19.  The two revisions of [vectorizeGlyph].  With square dots the
    later revision returns the glyph of the first revision with every
    coordinate of its path rounded by [Math.round]; both raise the same
    [TypeError] on a glyph without metrics. *)
Theorem square_outline_rounds_legacy (argv : Argv.t) (glyphInfo : GlyphInfo.t) :
  Argv.dot_shape argv = square →
  Converter.vectorizeGlyph argv glyphInfo =
    (λ glyph, Glyph.Build (Glyph.name glyph) (Glyph.unicode glyph)
                (Glyph.advanceWidth glyph) (roundCommand <$> Glyph.path glyph))
      <$> Legacy.vectorizeGlyph argv glyphInfo.
Proof.
  intros Hshape.
  destruct (GlyphInfo.metrics glyphInfo) as [metrics|] eqn:Hm.
  - rewrite (vectorizeGlyph_eq argv glyphInfo metrics Hm),
      (legacy_vectorizeGlyph_eq argv glyphInfo metrics Hm).
    cbn [fmap result_fmap Glyph.name Glyph.unicode Glyph.advanceWidth Glyph.path].
    f_equal. f_equal.
    rewrite foldl_drawDot, legacy_foldl_drawDot, !app_nil_l, fmap_app.
    f_equal. unfold glyphDots, legacyDots.
    induction (setPixels _) as [|[x y] l IH]; [reflexivity|].
    cbn [fmap list_fmap mjoin list_join]. rewrite fmap_app. f_equal.
    + by apply square_dot_rounds_legacy.
    + exact IH.
  - unfold Converter.vectorizeGlyph, Legacy.vectorizeGlyph. by rewrite Hm.
Qed.

Lemma square_outline_rounds_legacy_witness :
  Glyph.path <$> Converter.vectorizeGlyph argvFull
                   (onePixelGlyph (MetricsEntry.Build 0 1 1 11 0 0))
  = (λ glyph, roundCommand <$> Glyph.path glyph)
      <$> Legacy.vectorizeGlyph argvFull
            (onePixelGlyph (MetricsEntry.Build 0 1 1 11 0 0)).
Proof.
  rewrite (square_outline_rounds_legacy argvFull
             (onePixelGlyph (MetricsEntry.Build 0 1 1 11 0 0)) eq_refl).
  destruct (Legacy.vectorizeGlyph argvFull _); reflexivity.
Defined.


(** ** The whole conversion *)

Section CollectedFields.

Variable argv : Argv.t.
Variable gbkDecode : Z → Z → Z.
Variable rawBuffer : list byte.
Variable pcf : Pcf.t.
Variable enc : EncodingTable.t.
Variable names : GlyphNameTable.t.
Variable mt : MetricsTable.t.
Variable bt : BitmapTable.t.
Hypothesis Henc : Pcf.encodingTable pcf = Some enc.
Hypothesis Hnames : Pcf.glyphNameTable pcf = Some names.
Hypothesis Hmetrics : Pcf.metricsTable pcf = Some mt.
Hypothesis Hbitmaps : Pcf.bitmapTable pcf = Some bt.

Lemma collectGlyph_fields (glyphs : list GlyphInfo.t) (code : Z) :
  ∃ more,
    Converter.collectGlyph argv gbkDecode rawBuffer pcf enc mt glyphs code
      = Ok (glyphs ++ more) ∧
    GlyphInfo.code <$> more =
      (if isEmitted argv gbkDecode enc mt code then [code] else []) ∧
    Forall (collected rawBuffer enc names mt bt) more.
Proof.
  unfold Converter.collectGlyph, isEmitted.
  destruct (JS.index (EncodingTable.glyphIndeces enc) code) as [index|] eqn:Hidx;
    cbn [JS.ge JS.lt].
  - replace (index >=? 0) with (0 <=? index) by (rewrite Z.geb_leb; done).
    destruct (Z.leb_spec 0 index) as [H0|H0];
      [destruct (Z.ltb_spec index (MetricsTable.metricsCount mt)) as [H1|H1]|];
      cbn [andb];
      [destruct (Converter.isAcceptedGlyph argv gbkDecode code)| |];
      try (exists []; rewrite app_nil_r; by split).
    unfold Accessor.getGlyphName, Accessor.getGlyphMetrics,
      Accessor.getGlyphBitmap, Accessor.glyphIndexOf.
    rewrite Henc, Hnames, Hmetrics, Hbitmaps. cbn [mbind result_bind mret result_ret].
    rewrite Hidx.
    destruct (Accessor.glyphBitmapRange bt (Some index)) as [bitmapOffset bitmapEnd]
      eqn:Hrange.
    cbn [mbind result_bind mret result_ret].
    eexists. split; [reflexivity|]. split; [reflexivity|].
    constructor; [|constructor].
    unfold collected. cbn [GlyphInfo.index GlyphInfo.code GlyphInfo.name
      GlyphInfo.metrics GlyphInfo.bitmap default Accessor.at_ mbind option_bind].
    unfold id. rewrite Hrange. cbn [fst snd]. repeat split; done || lia.
  - exists []. rewrite app_nil_r. by split.
Qed.

Lemma collectGlyphsFrom_fields (codes : list Z) (glyphs : list GlyphInfo.t) :
  ∃ more,
    Converter.collectGlyphsFrom argv gbkDecode rawBuffer pcf enc mt glyphs codes
      = Ok (glyphs ++ more) ∧
    GlyphInfo.code <$> more = filter (λ code, isEmitted argv gbkDecode enc mt code) codes ∧
    Forall (collected rawBuffer enc names mt bt) more.
Proof.
  revert glyphs. induction codes as [|code codes IH]; intros glyphs.
  - exists []. rewrite app_nil_r. by split.
  - cbn [Converter.collectGlyphsFrom].
    destruct (collectGlyph_fields glyphs code) as (m1 & -> & Hc1 & Hi1).
    cbn [mbind result_bind].
    destruct (IH (glyphs ++ m1)) as (m2 & -> & Hc2 & Hi2).
    exists (m1 ++ m2). rewrite app_assoc. split; [done|]. split.
    + rewrite fmap_app, Hc1, Hc2, filter_cons.
      destruct (isEmitted argv gbkDecode enc mt code); reflexivity.
    + by apply Forall_app.
Qed.

End CollectedFields.

Lemma lastOfKind_elem (kind : Z) (entries : list TocEntry.t) (entry : TocEntry.t) :
  lastOfKind kind entries = Some entry → entry ∈ entries ∧ tableKind entry = kind.
Proof.
  unfold lastOfKind. intros Hlast.
  assert (Hin : entry ∈ filter (λ e, tableKind e = kind) entries).
  { apply last_Some in Hlast as [l' ->]. apply elem_of_app. right. by left. }
  apply list_elem_of_filter in Hin as [Hk Hin]. done.
Qed.

Lemma parseMetricsTable_length (buf : list byte) (offset format : Z)
    (t : MetricsTable.t) :
  0 ≤ offset →
  PcfParser.parseMetricsTable buf offset format = Ok t →
  Z.of_nat (length (MetricsTable.metrics t)) = MetricsTable.metricsCount t.
Proof.
  intros Hoffset Hparse.
  destruct (PcfParser.isCompressedMetrics format) eqn:Hc.
  - rewrite parseMetricsTable_compressed_eq in Hparse by done.
    cbv zeta in Hparse. case_decide as Hfit; [|done].
    injection Hparse as <-. cbn [MetricsTable.metrics MetricsTable.metricsCount].
    pose proof (u16At_range (formatEndianess format) buf (offset + 4)) as Hr.
    rewrite length_fmap, length_seq. lia.
  - rewrite parseMetricsTable_default_eq in Hparse by done.
    cbv zeta in Hparse. case_decide as Hfit; [|done].
    injection Hparse as <-. cbn [MetricsTable.metrics MetricsTable.metricsCount].
    pose proof (u32At_range (formatEndianess format) buf (offset + 4)) as Hr.
    rewrite length_fmap, length_seq. lia.
Qed.

Lemma parse_metrics_length (buf : list byte) (pcf : Pcf.t) :
  PcfParser.parse buf = Ok pcf →
  ∃ mt, Pcf.metricsTable pcf = Some mt ∧
        Z.of_nat (length (MetricsTable.metrics mt)) = MetricsTable.metricsCount mt.
Proof.
  rewrite parse_eq, mainParser_eq. cbv zeta.
  case_decide as Hfit; [|done]. case_decide as Hmagic; [|done].
  match goal with
  | |- context [PcfParser.parseTables buf ?p ?l] =>
      set (pcf0 := p);
      destruct (PcfParser.parseTables buf pcf0 (Pcf.tocEntry pcf0)) as [pcf1|e]
        eqn:Htables; [|done]
  end.
  destruct (Pcf.metricsTable pcf1) as [mt|] eqn:Hmt; [|done].
  intros [= <-]. exists mt. split; [done|].
  destruct (parseTables_tables _ _ _ _ Htables) as (_ & _ & Hm & _).
  destruct (lastOfKind 4 (Pcf.tocEntry pcf0)) as [entry|] eqn:Hlast.
  - destruct Hm as (t' & Hdecode & Ht'). rewrite Hmt in Ht'. injection Ht' as <-.
    apply lastOfKind_elem in Hlast as [Hin _].
    apply parseMetricsTable_length in Hdecode; [done|].
    subst pcf0. cbn [Pcf.tocEntry] in Hin.
    apply list_elem_of_fmap in Hin as (i & -> & _). cbn [TocEntry.offset].
    apply u32At_range.
  - rewrite Hmt in Hm. done.
Qed.

Lemma mapM_vectorizeGlyph (argv : Argv.t) (glyphs : list GlyphInfo.t) :
  Forall (λ g, is_Some (GlyphInfo.metrics g)) glyphs →
  ∃ fontGlyphs,
    mapM (Converter.vectorizeGlyph argv) glyphs = Ok fontGlyphs ∧
    Forall2 (λ g glyph, Converter.vectorizeGlyph argv g = Ok glyph) glyphs fontGlyphs ∧
    Glyph.unicode <$> fontGlyphs = GlyphInfo.code <$> glyphs.
Proof.
  induction 1 as [|g glyphs [metrics Hm] _ (fontGlyphs & Hmap & Hall & Hcodes)].
  - exists []. split; [reflexivity|]. split; [constructor | reflexivity].
  - pose proof (vectorizeGlyph_eq argv g metrics Hm) as Hg.
    eexists (_ :: fontGlyphs). split; [|split].
    + cbn [mapM]. rewrite Hg, Hmap. reflexivity.
    + constructor; [exact Hg | exact Hall].
    + cbn [fmap list_fmap Glyph.unicode]. f_equal. exact Hcodes.
Qed.

(** X20.  The two loops of [convert] on a file that parses and has an
    encoding, a glyph-name and a bitmap table: neither raises.  The first
    collects one glyph per emitted code point, in increasing order of the
    code points; each has its metrics, because a parsed metrics table
    holds [metricsCount] entries, and has a name exactly when its glyph
    index is below the number of names.  The second turns each of them
    into an outline with the same name, undefined or not, and the same
    code point.  Nothing is said of the calls of the font library that
    follow the loops. *)
Theorem convert_loops_complete (argv : Argv.t) (gbkDecode : Z → Z → Z)
    (rawBuffer : list byte) (pcf : Pcf.t) (enc : EncodingTable.t)
    (names : GlyphNameTable.t) :
  PcfParser.parse rawBuffer = Ok pcf →
  Pcf.encodingTable pcf = Some enc →
  Pcf.glyphNameTable pcf = Some names →
  is_Some (Pcf.bitmapTable pcf) →
  ∃ mt glyphs fontGlyphs,
    Pcf.metricsTable pcf = Some mt ∧
    Converter.collectGlyphs argv gbkDecode rawBuffer pcf = Ok glyphs ∧
    GlyphInfo.code <$> glyphs =
      filter (λ code, isEmitted argv gbkDecode enc mt code)
        (seqZ 0 (Z.of_nat (length (EncodingTable.glyphIndeces enc)))) ∧
    Forall (λ g,
              is_Some (GlyphInfo.metrics g) ∧
              GlyphInfo.name g =
                JS.index (GlyphNameTable.strings names) (GlyphInfo.index g) ∧
              (is_Some (GlyphInfo.name g) ↔
               GlyphInfo.index g
                 < Z.of_nat (length (GlyphNameTable.strings names))))
      glyphs ∧
    mapM (Converter.vectorizeGlyph argv) glyphs = Ok fontGlyphs ∧
    Forall2 (λ g glyph,
               Converter.vectorizeGlyph argv g = Ok glyph ∧
               Glyph.name glyph = GlyphInfo.name g ∧
               Glyph.unicode glyph = GlyphInfo.code g)
      glyphs fontGlyphs.
Proof.
  intros Hparse Henc Hnames [bt Hbt].
  destruct (parse_metrics_length rawBuffer pcf Hparse) as (mt & Hmt & Hlen).
  destruct (collectGlyphsFrom_fields argv gbkDecode rawBuffer pcf enc names mt bt
              Henc Hnames Hmt Hbt
              (seqZ 0 (Z.of_nat (length (EncodingTable.glyphIndeces enc)))) [])
    as (glyphs & Hcollect & Hcodes & Hfields).
  rewrite app_nil_l in Hcollect.
  assert (Hglyphs : Converter.collectGlyphs argv gbkDecode rawBuffer pcf = Ok glyphs).
  { unfold Converter.collectGlyphs. by rewrite Henc, Hmt. }
  assert (Hsome : Forall (λ g, is_Some (GlyphInfo.metrics g)) glyphs).
  { eapply Forall_impl; [exact Hfields|]. intros g (_ & Hrange & _ & Hm & _).
    rewrite Hm. unfold JS.index.
    destruct (Z.ltb_spec (GlyphInfo.index g) 0); [lia|].
    apply lookup_lt_is_Some. lia. }
  destruct (mapM_vectorizeGlyph argv glyphs Hsome) as (fontGlyphs & Hmap & Hall & Hu).
  exists mt, glyphs, fontGlyphs.
  split; [exact Hmt|]. split; [exact Hglyphs|]. split; [exact Hcodes|].
  split; [|split; [exact Hmap|]].
  - rewrite Forall_forall in Hfields, Hsome. apply Forall_forall. intros g Hg.
    destruct (Hfields g Hg) as (_ & Hrange & Hname & _).
    split; [by apply Hsome|]. split; [exact Hname|].
    rewrite Hname. unfold JS.index.
    destruct (Z.ltb_spec (GlyphInfo.index g) 0); [lia|].
    rewrite lookup_lt_is_Some. lia.
  - eapply Forall2_impl; [exact Hall|]. intros g glyph Hg. cbv beta in Hg.
    split; [exact Hg|].
    unfold Converter.vectorizeGlyph in Hg.
    destruct (GlyphInfo.metrics g); [|discriminate Hg].
    injection Hg as <-. split; reflexivity.
Qed.

Lemma convert_loops_complete_witness :
  ∃ glyphs fontGlyphs,
    Converter.collectGlyphs argvFull (λ _ _, 0) sampleFont
      <$> PcfParser.parse sampleFont = Ok (Ok glyphs) ∧
    mapM (Converter.vectorizeGlyph argvFull) glyphs = Ok fontGlyphs ∧
    Glyph.unicode <$> fontGlyphs = [0; 1] ∧
    Glyph.name <$> fontGlyphs = [Some [x41]; Some [x42]].
Proof.
  destruct (PcfParser.parse sampleFont) as [pcf|e] eqn:Hparse;
    [|vm_compute in Hparse; discriminate Hparse].
  destruct (Pcf.encodingTable pcf) as [enc|] eqn:Henc;
    [|vm_compute in Hparse; injection Hparse as <-; discriminate Henc].
  destruct (Pcf.glyphNameTable pcf) as [names|] eqn:Hnames;
    [|vm_compute in Hparse; injection Hparse as <-; discriminate Hnames].
  assert (Hbt : is_Some (Pcf.bitmapTable pcf))
    by (vm_compute in Hparse; injection Hparse as <-; by eexists).
  destruct (convert_loops_complete argvFull (λ _ _, 0) sampleFont pcf enc names
              Hparse Henc Hnames Hbt)
    as (mt & glyphs & fontGlyphs & _ & Hglyphs & _ & _ & Hmap & _).
  exists glyphs, fontGlyphs.
  split; [cbn [fmap result_fmap]; by rewrite Hglyphs|].
  split; [exact Hmap|].
  vm_compute in Hparse. injection Hparse as <-.
  vm_compute in Hglyphs. injection Hglyphs as <-.
  vm_compute in Hmap. injection Hmap as <-.
  split; reflexivity.
Defined.


Section MissingTable.

Variable argv : Argv.t.
Variable gbkDecode : Z → Z → Z.
Variable rawBuffer : list byte.
Variable pcf : Pcf.t.
Variable enc : EncodingTable.t.
Variable mt : MetricsTable.t.
Hypothesis Henc : Pcf.encodingTable pcf = Some enc.
Hypothesis Hmetrics : Pcf.metricsTable pcf = Some mt.
Hypothesis Hmissing : Pcf.glyphNameTable pcf = None ∨ Pcf.bitmapTable pcf = None.



End MissingTable.



